(** * order-book-service: matching engine and transactional order lifecycle

    A shallow embedding of

    - [pkg/matchingengine/engine.go]      (the price-time matching engine),
    - [internal/models]                   (orders, matches, outbox events, errors),
    - [internal/repository]               (order, outbox and idempotency stores),
    - [internal/service/order_service.go] (the order service),

    followed by the properties of the specification that concern them. *)

From Stdlib Require Import ZArith QArith Qpower Lia List Ascii String Sorted.
From stdpp Require Import base decidable countable strings list gmap fin_maps.

Local Open Scope Z_scope.

(** ** shopspring/decimal

    A [decimal.Decimal] is [value * 10 ^ exp] with an arbitrary-precision
    [value] (a [big.Int]) and an [int32] exponent.  The exponent is taken in
    [Z]: the library panics when [Mul] overflows [int32], which no price or
    stake of this service approaches. *)
Module decimal.

Record Decimal : Type := mkDecimal { value : Z; exp : Z }.

#[global] Instance Decimal_eq_dec : EqDecision Decimal.
Proof. solve_decision. Defined.

#[global] Instance Decimal_countable : Countable Decimal :=
  inj_countable' (fun d => (value d, exp d)) (fun p => mkDecimal (fst p) (snd p))
                 (fun d => match d with mkDecimal _ _ => eq_refl end).

Definition Zero : Decimal := mkDecimal 0 0.

Definition NewFromInt (n : Z) : Decimal := mkDecimal n 0.

(** [d.rescale(exp)]: [big.Int.Quo] truncates towards zero. *)
Definition rescale (d : Decimal) (e : Z) : Decimal :=
  if exp d =? e then d
  else if exp d <? e
       then mkDecimal (Z.quot (value d) (10 ^ (e - exp d))) e
       else mkDecimal (value d * 10 ^ (exp d - e)) e.

Definition RescalePair (d1 d2 : Decimal) : Decimal * Decimal :=
  if exp d1 <? exp d2 then (d1, rescale d2 (exp d1))
  else if exp d2 <? exp d1 then (rescale d1 (exp d2), d2)
  else (d1, d2).

Definition Add (d d2 : Decimal) : Decimal :=
  let '(rd, rd2) := RescalePair d d2 in
  mkDecimal (value rd + value rd2) (exp rd).

Definition Sub (d d2 : Decimal) : Decimal :=
  let '(rd, rd2) := RescalePair d d2 in
  mkDecimal (value rd - value rd2) (exp rd).

Definition Mul (d d2 : Decimal) : Decimal :=
  mkDecimal (value d * value d2) (exp d + exp d2).

Definition Cmp (d d2 : Decimal) : comparison :=
  if exp d =? exp d2 then value d ?= value d2
  else let '(rd, rd2) := RescalePair d d2 in value rd ?= value rd2.

Definition Equal (d d2 : Decimal) : bool :=
  match Cmp d d2 with Eq => true | _ => false end.

Definition LessThan (d d2 : Decimal) : bool :=
  match Cmp d d2 with Lt => true | _ => false end.

Definition GreaterThan (d d2 : Decimal) : bool :=
  match Cmp d d2 with Gt => true | _ => false end.

Definition LessThanOrEqual (d d2 : Decimal) : bool :=
  match Cmp d d2 with Gt => false | _ => true end.

Definition IsZero (d : Decimal) : bool := value d =? 0.

(** [decimal.Min(first, rest...)] at two arguments: the first one wins a
    tie. *)
Definition Min (first item : Decimal) : Decimal :=
  match Cmp item first with Lt => item | _ => first end.

(** [d.String()] prints the shortest numeral of [d]: a non-negative
    exponent is expanded, and the zeros that end the fractional part are
    trimmed.  [NewFromString] reads a numeral back as the pair (digits,
    minus the number of fractional digits).  The numeral is kept as that
    pair, so that [String] is the normal form [NewFromString (String d)]. *)
Fixpoint trimTrailingZeros (n : nat) (v e : Z) : Decimal :=
  match n with
  | O => mkDecimal v e
  | S n' => if v mod 10 =? 0 then trimTrailingZeros n' (v / 10) (e + 1)
            else mkDecimal v e
  end.

Definition String (d : Decimal) : Decimal :=
  if 0 <=? exp d then rescale d 0
  else trimTrailingZeros (Z.to_nat (- exp d)) (value d) (exp d).

Definition NewFromString (numeral : Decimal) : Decimal := numeral.

(** The rational a decimal stands for. *)
Definition toQ (d : Decimal) : Q := (inject_Z (value d) * (10 # 1) ^ exp d)%Q.

End decimal.

Abbreviation Decimal := decimal.Decimal.

(** ** internal/models *)

(** A [uuid.UUID] is a 128-bit value; [uuid.Nil] is zero. *)
Abbreviation UUID := N.
Definition uuid_Nil : UUID := 0%N.

(** A [time.Time] is an instant, counted in nanoseconds as [time.Duration]
    is; the zero time is [0]. *)
Abbreviation Time := Z.
Definition Hour : Z := 3600 * 1000000000.

(** [models.OrderSide] and [models.OrderStatus] are string types: the
    service converts a request's bet type into a side and writes statuses
    that are not among the declared constants. *)
Definition OrderSideBack : string := "BACK".
Definition OrderSideLay : string := "LAY".

Definition OrderStatusPending : string := "PENDING".
Definition OrderStatusMatched : string := "MATCHED".
Definition OrderStatusPartially : string := "PARTIALLY".
Definition OrderStatusCancelled : string := "CANCELLED".
Definition OrderStatusExpired : string := "EXPIRED".

Module Order.
Record t : Type := mk {
  ID : UUID;
  UserID : UUID;
  MarketID : string;
  SelectionID : string;
  Side : string;
  Price : Decimal;
  Size : Decimal;
  SizeMatched : Decimal;
  SizeRemaining : Decimal;
  Status : string;
  ReservationID : string;
  SagaID : string;
  IdempotencyKey : string;
  PlacedAt : Time;
  MatchedAt : option Time;
  CancelledAt : option Time;
  Version : Z
}.

(** The zero value of the struct. *)
Definition zero : t :=
  mk uuid_Nil uuid_Nil "" "" "" decimal.Zero decimal.Zero decimal.Zero
     decimal.Zero "" "" "" "" 0 None None 0.

Definition set_ID (x : UUID) (o : t) : t :=
  mk x (UserID o) (MarketID o) (SelectionID o) (Side o) (Price o) (Size o)
     (SizeMatched o) (SizeRemaining o) (Status o) (ReservationID o) (SagaID o)
     (IdempotencyKey o) (PlacedAt o) (MatchedAt o) (CancelledAt o) (Version o).
Definition set_Price (x : Decimal) (o : t) : t :=
  mk (ID o) (UserID o) (MarketID o) (SelectionID o) (Side o) x (Size o)
     (SizeMatched o) (SizeRemaining o) (Status o) (ReservationID o) (SagaID o)
     (IdempotencyKey o) (PlacedAt o) (MatchedAt o) (CancelledAt o) (Version o).
Definition set_Size (x : Decimal) (o : t) : t :=
  mk (ID o) (UserID o) (MarketID o) (SelectionID o) (Side o) (Price o) x
     (SizeMatched o) (SizeRemaining o) (Status o) (ReservationID o) (SagaID o)
     (IdempotencyKey o) (PlacedAt o) (MatchedAt o) (CancelledAt o) (Version o).
Definition set_SizeMatched (x : Decimal) (o : t) : t :=
  mk (ID o) (UserID o) (MarketID o) (SelectionID o) (Side o) (Price o) (Size o)
     x (SizeRemaining o) (Status o) (ReservationID o) (SagaID o)
     (IdempotencyKey o) (PlacedAt o) (MatchedAt o) (CancelledAt o) (Version o).
Definition set_SizeRemaining (x : Decimal) (o : t) : t :=
  mk (ID o) (UserID o) (MarketID o) (SelectionID o) (Side o) (Price o) (Size o)
     (SizeMatched o) x (Status o) (ReservationID o) (SagaID o)
     (IdempotencyKey o) (PlacedAt o) (MatchedAt o) (CancelledAt o) (Version o).
Definition set_Status (x : string) (o : t) : t :=
  mk (ID o) (UserID o) (MarketID o) (SelectionID o) (Side o) (Price o) (Size o)
     (SizeMatched o) (SizeRemaining o) x (ReservationID o) (SagaID o)
     (IdempotencyKey o) (PlacedAt o) (MatchedAt o) (CancelledAt o) (Version o).
Definition set_PlacedAt (x : Time) (o : t) : t :=
  mk (ID o) (UserID o) (MarketID o) (SelectionID o) (Side o) (Price o) (Size o)
     (SizeMatched o) (SizeRemaining o) (Status o) (ReservationID o) (SagaID o)
     (IdempotencyKey o) x (MatchedAt o) (CancelledAt o) (Version o).
Definition set_MatchedAt (x : option Time) (o : t) : t :=
  mk (ID o) (UserID o) (MarketID o) (SelectionID o) (Side o) (Price o) (Size o)
     (SizeMatched o) (SizeRemaining o) (Status o) (ReservationID o) (SagaID o)
     (IdempotencyKey o) (PlacedAt o) x (CancelledAt o) (Version o).
Definition set_CancelledAt (x : option Time) (o : t) : t :=
  mk (ID o) (UserID o) (MarketID o) (SelectionID o) (Side o) (Price o) (Size o)
     (SizeMatched o) (SizeRemaining o) (Status o) (ReservationID o) (SagaID o)
     (IdempotencyKey o) (PlacedAt o) (MatchedAt o) x (Version o).
Definition set_Version (x : Z) (o : t) : t :=
  mk (ID o) (UserID o) (MarketID o) (SelectionID o) (Side o) (Price o) (Size o)
     (SizeMatched o) (SizeRemaining o) (Status o) (ReservationID o) (SagaID o)
     (IdempotencyKey o) (PlacedAt o) (MatchedAt o) (CancelledAt o) x.
End Order.

Abbreviation Order := Order.t.

Module Match.
Record t : Type := mk {
  ID : UUID;
  MarketID : string;
  SelectionID : string;
  BackOrderID : UUID;
  LayOrderID : UUID;
  BackUserID : UUID;
  LayUserID : UUID;
  Price : Decimal;
  Size : Decimal;
  BackLiability : Decimal;
  LayLiability : Decimal;
  MatchedAt : Time;
  SettledAt : option Time
}.
End Match.

Abbreviation Match := Match.t.

(** [models.PriceLevel] and [models.MarketBook], the view of the book that
    [Engine.GetMarketBook] builds. *)
Module PriceLevel.
Record t : Type := mk {
  Price : Decimal;
  TotalSize : Decimal;
  OrderCount : Z
}.
End PriceLevel.

Module MarketBook.
Record t : Type := mk {
  MarketID : string;
  SelectionID : string;
  BackOrders : list PriceLevel.t;
  LayOrders : list PriceLevel.t;
  UpdatedAt : Time
}.
End MarketBook.

(** ** pkg/matchingengine *)
Module matchingengine.

(** A [*models.Order] is an address; the store holds an [Order] at every
    address (the zero value where nothing was written, as after
    [new(models.Order)]).  The queues of the book and the caller of
    [PlaceOrder] hold the same addresses, so that a write through one is seen
    through the other.  [uuid.New] and [time.Now] read the two remaining
    fields; a new id is never [uuid.Nil]. *)
Abbreviation loc := nat.

Record Runtime : Type := mkRuntime {
  heap : gmap loc Order;
  clock : Time;
  entropy : UUID
}.

Definition load (rt : Runtime) (p : loc) : Order :=
  default Order.zero (heap rt !! p).

Definition store (rt : Runtime) (p : loc) (o : Order) : Runtime :=
  mkRuntime (<[p := o]> (heap rt)) (clock rt) (entropy rt).

(** [p.field = x], for a setter [f] of that field. *)
Definition assign (rt : Runtime) (p : loc) (f : Order -> Order) : Runtime :=
  store rt p (f (load rt p)).

Definition uuid_New (rt : Runtime) : UUID * Runtime :=
  let id := (entropy rt + 1)%N in
  (id, mkRuntime (heap rt) (clock rt) id).

Definition time_Now (rt : Runtime) : Time := clock rt.

(** [OrderQueue]: the orders at one price level, oldest first.  Every queue
    is reachable from one key of one map only, so the maps hold the queues
    themselves and a write through a [*OrderQueue] is a write to its key. *)
Record OrderQueue : Type := mkOrderQueue {
  price : Decimal;
  orders : list loc
}.

Record Engine : Type := mkEngine {
  marketID : string;
  selectionID : string;
  backOrders : gmap Decimal OrderQueue;  (* keyed by [price.String()] *)
  layOrders : gmap Decimal OrderQueue;
  backPrices : list Decimal;             (* sorted descending *)
  layPrices : list Decimal               (* sorted ascending *)
}.

Definition NewEngine (marketID selectionID : string) : Engine :=
  mkEngine marketID selectionID ∅ ∅ [] [].

(** The two halves of the book.  [placeBackOrder] and [placeLayOrder], and
    [addBackOrder] and [addLayOrder], are the same code up to the half they
    read and the comparison they make. *)
Inductive BookSide : Type := BackSide | LaySide.

#[global] Instance BookSide_eq_dec : EqDecision BookSide.
Proof. solve_decision. Defined.

Definition opposite (s : BookSide) : BookSide :=
  match s with BackSide => LaySide | LaySide => BackSide end.

Definition sideOrders (s : BookSide) (e : Engine) : gmap Decimal OrderQueue :=
  match s with BackSide => backOrders e | LaySide => layOrders e end.

Definition sidePrices (s : BookSide) (e : Engine) : list Decimal :=
  match s with BackSide => backPrices e | LaySide => layPrices e end.

Definition setSideOrders (s : BookSide) (m : gmap Decimal OrderQueue) (e : Engine) : Engine :=
  match s with
  | BackSide => mkEngine (marketID e) (selectionID e) m (layOrders e) (backPrices e) (layPrices e)
  | LaySide => mkEngine (marketID e) (selectionID e) (backOrders e) m (backPrices e) (layPrices e)
  end.

Definition setSidePrices (s : BookSide) (ps : list Decimal) (e : Engine) : Engine :=
  match s with
  | BackSide => mkEngine (marketID e) (selectionID e) (backOrders e) (layOrders e) ps (layPrices e)
  | LaySide => mkEngine (marketID e) (selectionID e) (backOrders e) (layOrders e) (backPrices e) ps
  end.

Fixpoint insertPriceDescending (prices : list Decimal) (newPrice : Decimal) : list Decimal :=
  match prices with
  | [] => [newPrice]
  | p :: rest =>
      if decimal.GreaterThan p newPrice then p :: insertPriceDescending rest newPrice
      else newPrice :: p :: rest
  end.

Fixpoint insertPriceAscending (prices : list Decimal) (newPrice : Decimal) : list Decimal :=
  match prices with
  | [] => [newPrice]
  | p :: rest =>
      if decimal.LessThan p newPrice then p :: insertPriceAscending rest newPrice
      else newPrice :: p :: rest
  end.

(** The [models.Match] of one pairing, built before the sizes are updated. *)
Definition newMatch (e : Engine) (id : UUID) (now : Time)
    (incoming existing : Order) (matchPrice matchSize : Decimal) : Match :=
  let layLiability :=
    decimal.Mul matchSize (decimal.Sub matchPrice (decimal.NewFromInt 1)) in
  if String.eqb (Order.Side incoming) OrderSideBack
  then Match.mk id (marketID e) (selectionID e)
         (Order.ID incoming) (Order.ID existing)
         (Order.UserID incoming) (Order.UserID existing)
         matchPrice matchSize matchSize layLiability now None
  else Match.mk id (marketID e) (selectionID e)
         (Order.ID existing) (Order.ID incoming)
         (Order.UserID existing) (Order.UserID incoming)
         matchPrice matchSize matchSize layLiability now None.

(** One pairing of [matchOrders], from the matched size to the update of the
    four sizes.  The match is built before the sizes change, and each size
    is read through its pointer when it is updated. *)
Definition pairOrders (e : Engine) (rt : Runtime) (incoming existing : loc)
    (matchPrice : Decimal) : Runtime * Match :=
  let matchSize :=
    decimal.Min (Order.SizeRemaining (load rt incoming))
                (Order.SizeRemaining (load rt existing)) in
  let '(id, rt) := uuid_New rt in
  let m := newMatch e id (time_Now rt) (load rt incoming) (load rt existing)
                    matchPrice matchSize in
  let rt := assign rt incoming (fun o =>
              Order.set_SizeMatched (decimal.Add (Order.SizeMatched o) matchSize) o) in
  let rt := assign rt incoming (fun o =>
              Order.set_SizeRemaining (decimal.Sub (Order.SizeRemaining o) matchSize) o) in
  let rt := assign rt existing (fun o =>
              Order.set_SizeMatched (decimal.Add (Order.SizeMatched o) matchSize) o) in
  let rt := assign rt existing (fun o =>
              Order.set_SizeRemaining (decimal.Sub (Order.SizeRemaining o) matchSize) o) in
  (rt, m).

(** One turn of the loop of [matchOrders]: the pairing, then the status of
    the resting order.  The flag tells whether the resting order was filled,
    that is, removed from the queue. *)
Definition iteration (e : Engine) (rt : Runtime) (incoming existing : loc)
    (matchPrice : Decimal) : Runtime * Match * bool :=
  let '(rt, m) := pairOrders e rt incoming existing matchPrice in
  if decimal.IsZero (Order.SizeRemaining (load rt existing))
  then
    let now := time_Now rt in
    let rt := assign rt existing (Order.set_MatchedAt (Some now)) in
    let rt := assign rt existing (Order.set_Status OrderStatusMatched) in
    (rt, m, true)
  else
    let rt := assign rt existing (Order.set_Status OrderStatusPartially) in
    (rt, m, false).

(** The loop of [matchOrders]: [kept] is [queue.orders[:i]] and [todo] is
    [queue.orders[i:]].  Removing index [i] drops the head of [todo];
    [i++] moves it to [kept]. *)
Fixpoint matchLoop (e : Engine) (rt : Runtime) (incoming : loc)
    (matchPrice : Decimal) (kept todo : list loc)
    : Runtime * list loc * list Match :=
  match todo with
  | [] => (rt, kept, [])
  | existing :: rest =>
      if decimal.IsZero (Order.SizeRemaining (load rt incoming))
      then (rt, kept ++ todo, [])
      else
        let '(rt, m, filled) := iteration e rt incoming existing matchPrice in
        let '(rt, os, ms) :=
          matchLoop e rt incoming matchPrice
                    (if filled then kept else kept ++ [existing]) rest in
        (rt, os, m :: ms)
  end.

Definition matchOrders (e : Engine) (rt : Runtime) (incoming : loc)
    (queue : OrderQueue) (matchPrice : Decimal)
    : Runtime * OrderQueue * list Match :=
  let '(rt, os, matches) := matchLoop e rt incoming matchPrice [] (orders queue) in
  (rt, mkOrderQueue (price queue) os, matches).

(** The test that ends the walk over the opposite half [opp]: a back order
    stops at the first lay price above its own, a lay order at the first
    back price below its own. *)
Definition cannotMatch (opp : BookSide) (orderPrice levelPrice : Decimal) : bool :=
  match opp with
  | LaySide => decimal.LessThan orderPrice levelPrice
  | BackSide => decimal.GreaterThan orderPrice levelPrice
  end.

(** The [for _, price := range] loop of [placeBackOrder] ([opp = LaySide])
    and [placeLayOrder] ([opp = BackSide]).  A price without a queue in the
    map gives a nil [*OrderQueue], which [matchOrders] dereferences: the
    result is [None] for that panic. *)
Fixpoint matchLevels (opp : BookSide) (rt : Runtime) (e : Engine) (order : loc)
    (prices : list Decimal) : option (Runtime * Engine * list Match) :=
  match prices with
  | [] => Some (rt, e, [])
  | levelPrice :: rest =>
      if decimal.IsZero (Order.SizeRemaining (load rt order)) then Some (rt, e, [])
      else if cannotMatch opp (Order.Price (load rt order)) levelPrice then Some (rt, e, [])
      else
        match sideOrders opp e !! decimal.String levelPrice with
        | None => None
        | Some queue =>
            let '(rt, queue, newMatches) := matchOrders e rt order queue levelPrice in
            let e := setSideOrders opp
                       (<[decimal.String levelPrice := queue]> (sideOrders opp e)) e in
            match matchLevels opp rt e order rest with
            | Some (rt, e, matches) => Some (rt, e, newMatches ++ matches)
            | None => None
            end
        end
  end.

Definition insertPrice (s : BookSide) : list Decimal -> Decimal -> list Decimal :=
  match s with
  | BackSide => insertPriceDescending
  | LaySide => insertPriceAscending
  end.

(** [addBackOrder] and [addLayOrder]. *)
Definition addOrder (s : BookSide) (rt : Runtime) (e : Engine) (order : loc)
    : Runtime * Engine :=
  let orderPrice := Order.Price (load rt order) in
  let priceKey := decimal.String orderPrice in
  let '(queue, e) :=
    match sideOrders s e !! priceKey with
    | Some queue => (queue, e)
    | None =>
        let queue := mkOrderQueue orderPrice [] in
        let e := setSideOrders s (<[priceKey := queue]> (sideOrders s e)) e in
        let e := setSidePrices s (insertPrice s (sidePrices s e) orderPrice) e in
        (queue, e)
    end in
  let queue := mkOrderQueue (price queue) (orders queue ++ [order]) in
  let e := setSideOrders s (<[priceKey := queue]> (sideOrders s e)) e in
  (assign rt order (Order.set_Status OrderStatusPending), e).

Definition addBackOrder := addOrder BackSide.
Definition addLayOrder := addOrder LaySide.

(** [placeBackOrder] ([own = BackSide]) and [placeLayOrder]
    ([own = LaySide]). *)
Definition placeOrder (own : BookSide) (rt : Runtime) (e : Engine) (order : loc)
    : option (Runtime * Engine * list Match) :=
  match matchLevels (opposite own) rt e order (sidePrices (opposite own) e) with
  | None => None
  | Some (rt, e, matches) =>
      if negb (decimal.IsZero (Order.SizeRemaining (load rt order)))
      then
        let '(rt, e) := addOrder own rt e order in
        let rt := assign rt order (Order.set_Status OrderStatusPartially) in
        Some (rt, e, matches)
      else
        let now := time_Now rt in
        let rt := assign rt order (Order.set_MatchedAt (Some now)) in
        let rt := assign rt order (Order.set_Status OrderStatusMatched) in
        Some (rt, e, matches)
  end.

Definition placeBackOrder := placeOrder BackSide.
Definition placeLayOrder := placeOrder LaySide.

(** [Engine.PlaceOrder]; the mutex serialises callers, which a sequential
    model leaves out. *)
Definition PlaceOrder (rt : Runtime) (e : Engine) (order : loc)
    : option (Runtime * Engine * list Match) :=
  if String.eqb (Order.Side (load rt order)) OrderSideBack
  then placeBackOrder rt e order
  else placeLayOrder rt e order.

(** The inner loop of [CancelOrder]: the first index of [os] whose order
    carries [orderID]. *)
Fixpoint findOrder (rt : Runtime) (orderID : UUID) (os : list loc) : option nat :=
  match os with
  | [] => None
  | p :: rest =>
      if N.eqb (Order.ID (load rt p)) orderID then Some O
      else option_map S (findOrder rt orderID rest)
  end.

(** One of the two [for _, queue := range] loops of [CancelOrder].  Go leaves
    the order in which a map is ranged over open: [keys] is that order. *)
Fixpoint cancelIn (s : BookSide) (rt : Runtime) (e : Engine) (orderID : UUID)
    (keys : list Decimal) : option (Runtime * Engine) :=
  match keys with
  | [] => None
  | k :: rest =>
      match sideOrders s e !! k with
      | None => cancelIn s rt e orderID rest
      | Some queue =>
          match findOrder rt orderID (orders queue) with
          | None => cancelIn s rt e orderID rest
          | Some i =>
              let order := nth i (orders queue) O in
              let queue := mkOrderQueue (price queue)
                             (take i (orders queue) ++ drop (S i) (orders queue)) in
              let e := setSideOrders s (<[k := queue]> (sideOrders s e)) e in
              let now := time_Now rt in
              let rt := assign rt order (Order.set_CancelledAt (Some now)) in
              let rt := assign rt order (Order.set_Status OrderStatusCancelled) in
              Some (rt, e)
          end
      end
  end.

(** [Engine.CancelOrder] for a given order of ranging over the two maps:
    [Some] is the nil error, [None] the "order not found" error, which
    leaves the book as it was. *)
Definition CancelOrderIn (backKeys layKeys : list Decimal) (rt : Runtime)
    (e : Engine) (orderID : UUID) : option (Runtime * Engine) :=
  match cancelIn BackSide rt e orderID backKeys with
  | Some r => Some r
  | None => cancelIn LaySide rt e orderID layKeys
  end.

Definition CancelOrder (rt : Runtime) (e : Engine) (orderID : UUID)
    : option (Runtime * Engine) :=
  CancelOrderIn (map fst (map_to_list (backOrders e)))
                (map fst (map_to_list (layOrders e))) rt e orderID.

(** The inner loop of [GetMarketBook]: [totalSize] after the orders [os],
    from [totalSize = acc]. *)
Fixpoint totalSize (rt : Runtime) (os : list loc) (acc : Decimal) : Decimal :=
  match os with
  | [] => acc
  | order :: rest =>
      totalSize rt rest (decimal.Add acc (Order.SizeRemaining (load rt order)))
  end.

(** One of the two outer loops of [GetMarketBook], over the prices of a
    half.  As in the walk of [PlaceOrder], a price without a queue gives a nil
    [*OrderQueue], and [queue.orders] panics: the result is [None]. *)
Fixpoint priceLevels (s : BookSide) (rt : Runtime) (e : Engine)
    (prices : list Decimal) : option (list PriceLevel.t) :=
  match prices with
  | [] => Some []
  | levelPrice :: rest =>
      match sideOrders s e !! decimal.String levelPrice with
      | None => None
      | Some queue =>
          let level :=
            PriceLevel.mk levelPrice (totalSize rt (orders queue) decimal.Zero)
                          (Z.of_nat (length (orders queue))) in
          match priceLevels s rt e rest with
          | Some levels => Some (level :: levels)
          | None => None
          end
      end
  end.

(** [Engine.GetMarketBook]. *)
Definition GetMarketBook (rt : Runtime) (e : Engine) : option MarketBook.t :=
  match priceLevels BackSide rt e (backPrices e) with
  | None => None
  | Some backLevels =>
      match priceLevels LaySide rt e (layPrices e) with
      | None => None
      | Some layLevels =>
          Some (MarketBook.mk (marketID e) (selectionID e) backLevels layLevels
                              (time_Now rt))
      end
  end.

End matchingengine.

(** ** internal/models: errors and outbox events *)

(** The calls the service makes on the database and on the repositories.
    [World.calls] records them in order, as the mocks of
    [order_service_test.go] do, and [World.faults] tells which of them the
    driver fails. *)
Inductive Op : Type :=
  | OpBegin | OpCommit | OpRollback
  | OpIdempotencyCheck | OpIdempotencyStoreInTransaction
  | OpOrderCreate | OpOrderGetByIDForUpdate | OpOrderUpdate
  | OpOrderCancel | OpOrderSettle | OpOrderUpdateMatched
  | OpOutboxCreate.

#[global] Instance Op_eq_dec : EqDecision Op.
Proof. solve_decision. Defined.

(** Go errors: the four sentinels of [models], the validator's error, an
    error of the pgx driver, the [pgconn.PgError] of code 23505 (a unique
    constraint is violated), [fmt.Errorf(msg)] and
    [fmt.Errorf(msg + ": %w", cause)]. *)
Inductive error : Type :=
  | ErrOrderNotFound
  | ErrOptimisticLock
  | ErrIdempotencyMismatch
  | ErrInvalidOrderStatus
  | ErrValidation
  | ErrDriver (op : Op)
  | ErrUniqueViolation
  | Errorf (msg : string)
  | Wrapf (msg : string) (cause : error).

Inductive result (A : Type) : Type :=
  | Ok (a : A)
  | Err (e : error).
Arguments Ok {A} a.
Arguments Err {A} e.

(** A value of an event payload ([map[string]interface{}]): the service puts
    strings, ids, decimal numerals and RFC 3339 times there. *)
Inductive PayloadValue : Type :=
  | PString (s : string)
  | PUUID (u : UUID)
  | PNumeral (d : Decimal)
  | PTime (t : Time).

Module OutboxEvent.
Record t : Type := mk {
  ID : UUID;
  AggregateID : UUID;
  AggregateType : string;
  EventType : string;
  EventPayload : list (string * PayloadValue);
  SagaID : option UUID;
  CreatedAt : Time;
  ProcessedAt : option Time;
  RetryCount : Z;
  MaxRetries : Z;
  LastError : option string
}.

(** [OutboxEvent.IsProcessed]. *)
Definition IsProcessed (e : t) : bool :=
  match ProcessedAt e with Some _ => true | None => false end.

(** [OutboxEvent.CanRetry]. *)
Definition CanRetry (e : t) : bool := RetryCount e <? MaxRetries e.
End OutboxEvent.

Abbreviation OutboxEvent := OutboxEvent.t.

Definition EventTypeOrderPlaced : string := "order.placed".
Definition EventTypeOrderMatched : string := "order.matched".
Definition EventTypeOrderPartial : string := "order.partially_matched".
Definition EventTypeOrderCancelled : string := "order.cancelled".
Definition EventTypeMatchCreated : string := "match.created".
Definition EventTypeOrderSettled : string := "order.settled".

(** ** internal/service: requests *)

Module PlaceOrderRequest.
Record t : Type := mk {
  UserID : UUID;
  EventID : string;
  BetType : string;
  Selection : string;
  Amount : Decimal;
  Odds : Decimal;
  ReservationID : option UUID;
  SagaID : option UUID;
  IdempotencyKey : string
}.
End PlaceOrderRequest.

Module CancelOrderRequest.
Record t : Type := mk {
  OrderID : UUID;
  SagaID : option UUID;
  IdempotencyKey : string
}.
End CancelOrderRequest.

Module SettleOrderRequest.
Record t : Type := mk {
  OrderID : UUID;
  Result : string;
  ActualPayout : Decimal;
  SagaID : option UUID;
  IdempotencyKey : string
}.
End SettleOrderRequest.

(** ** encoding/json

    A [json.RawMessage] holding a cached response is the JSON of an order or
    [null]; a decimal is written as its numeral.  The JSON of a request is
    what the request hash is computed from. *)
Definition numerals (o : Order) : Order :=
  Order.set_Price (decimal.String (Order.Price o))
    (Order.set_Size (decimal.String (Order.Size o))
      (Order.set_SizeMatched (decimal.String (Order.SizeMatched o))
        (Order.set_SizeRemaining (decimal.String (Order.SizeRemaining o)) o))).

Inductive RawMessage : Type :=
  | json_null
  | json_Order (o : Order).

(** [json.Marshal] of a [*models.Order], or of [nil]. *)
Definition json_Marshal (v : option Order) : RawMessage :=
  match v with
  | None => json_null
  | Some o => json_Order (numerals o)
  end.

(** [json.Unmarshal(data, &order)]: [null] leaves [order] as it is, and a
    nil [data] is an error. *)
Definition json_Unmarshal (data : option RawMessage) (order : Order) : result Order :=
  match data with
  | None => Err (Errorf "unexpected end of JSON input")
  | Some json_null => Ok order
  | Some (json_Order o) => Ok o
  end.

Inductive RequestJSON : Type :=
  | PlaceJSON (r : PlaceOrderRequest.t)
  | CancelJSON (r : CancelOrderRequest.t)
  | SettleJSON (r : SettleOrderRequest.t).

Definition json_MarshalPlace (r : PlaceOrderRequest.t) : RequestJSON :=
  PlaceJSON (PlaceOrderRequest.mk
    (PlaceOrderRequest.UserID r) (PlaceOrderRequest.EventID r)
    (PlaceOrderRequest.BetType r) (PlaceOrderRequest.Selection r)
    (decimal.String (PlaceOrderRequest.Amount r))
    (decimal.String (PlaceOrderRequest.Odds r))
    (PlaceOrderRequest.ReservationID r) (PlaceOrderRequest.SagaID r)
    (PlaceOrderRequest.IdempotencyKey r)).

Definition json_MarshalCancel (r : CancelOrderRequest.t) : RequestJSON :=
  CancelJSON r.

Definition json_MarshalSettle (r : SettleOrderRequest.t) : RequestJSON :=
  SettleJSON (SettleOrderRequest.mk
    (SettleOrderRequest.OrderID r) (SettleOrderRequest.Result r)
    (decimal.String (SettleOrderRequest.ActualPayout r))
    (SettleOrderRequest.SagaID r) (SettleOrderRequest.IdempotencyKey r)).

(** [uuid.UUID.String]: 32 hexadecimal digits in groups of 8-4-4-4-12. *)
Definition hexDigit (n : N) : ascii :=
  match n with
  | 0%N => "0" | 1%N => "1" | 2%N => "2" | 3%N => "3" | 4%N => "4" | 5%N => "5"
  | 6%N => "6" | 7%N => "7" | 8%N => "8" | 9%N => "9" | 10%N => "a"
  | 11%N => "b" | 12%N => "c" | 13%N => "d" | 14%N => "e" | _ => "f"
  end%char.

Fixpoint hexDigits (k : nat) (n : N) (acc : string) : string :=
  match k with
  | O => acc
  | S k' => hexDigits k' (N.div n 16) (String.String (hexDigit (N.modulo n 16)) acc)
  end.

Definition uuid_String (u : UUID) : string :=
  let h := hexDigits 32 u "" in
  (substring 0 8 h ++ "-" ++ substring 8 4 h ++ "-" ++ substring 12 4 h ++ "-"
   ++ substring 16 4 h ++ "-" ++ substring 20 12 h)%string.

(** ** The database

    The three tables, as the SQL of the repositories reads and writes them.
    A row of [orders] is an order whose decimals are numerals. *)
Module IdempotencyKey.
Record t : Type := mk {
  request_hash : string;
  response_data : RawMessage;
  created_at : Time;
  expires_at : Time
}.
End IdempotencyKey.

Record Database : Type := mkDatabase {
  orders_table : gmap UUID Order;
  outbox_events : list OutboxEvent;
  idempotency_keys : gmap string IdempotencyKey.t
}.

(** What the service runs against: the committed database, the working copy
    of the open transaction if there is one, the clock behind [time.Now] and
    SQL's [NOW()], the source of [uuid.New] (a new id is never [uuid.Nil]),
    the faults of the driver and the calls made so far.

    The last field is a fact of the schema.  [Create] handles the violation
    of a unique constraint on the idempotency key of an order, but the
    [orders] table its SQL is written for is declared by none of the
    migrations (000001 declares other columns): [uniqueKey] tells whether
    that table has the constraint. *)
Record World : Type := mkWorld {
  db : Database;
  tx : option Database;
  now : Time;
  rand : UUID;
  faults : Op -> bool;
  calls : list Op;
  uniqueKey : bool
}.

Definition call (op : Op) (w : World) : World :=
  mkWorld (db w) (tx w) (now w) (rand w) (faults w) (calls w ++ [op]) (uniqueKey w).

Definition set_tx (t : option Database) (w : World) : World :=
  mkWorld (db w) t (now w) (rand w) (faults w) (calls w) (uniqueKey w).

Definition set_db (d : Database) (w : World) : World :=
  mkWorld d (tx w) (now w) (rand w) (faults w) (calls w) (uniqueKey w).

Definition world_uuid_New (w : World) : UUID * World :=
  let id := (rand w + 1)%N in
  (id, mkWorld (db w) (tx w) (now w) id (faults w) (calls w) (uniqueKey w)).

(** [db.Begin], [tx.Commit] and [tx.Rollback]; rolling back a transaction
    that is over does nothing. *)
Definition db_Begin (w : World) : result unit * World :=
  let w := call OpBegin w in
  if faults w OpBegin then (Err (ErrDriver OpBegin), w)
  else (Ok tt, set_tx (Some (db w)) w).

Definition tx_Commit (w : World) : result unit * World :=
  let w := call OpCommit w in
  match tx w with
  | Some t =>
      if faults w OpCommit then (Err (ErrDriver OpCommit), w)
      else (Ok tt, set_tx None (set_db t w))
  | None => (Err (ErrDriver OpCommit), w)
  end.

Definition tx_Rollback (w : World) : World :=
  set_tx None (call OpRollback w).

(** [tx.Exec] of a statement that turns the working copy [t] into [f t]. *)
Definition tx_Exec (op : Op) (f : Database -> result Database) (w : World)
    : result unit * World :=
  match tx w with
  | Some t =>
      if faults w op then (Err (ErrDriver op), w)
      else match f t with
           | Ok t' => (Ok tt, set_tx (Some t') w)
           | Err e => (Err e, w)
           end
  | None => (Err (ErrDriver op), w)
  end.

(** ** internal/repository: idempotency keys *)

(** [PostgresIdempotencyRepository.Check]: the row of [key] that has not
    expired, read from the pool. *)
Definition idempotencyRepo_Check (w : World) (key requestHash : string)
    : option RawMessage * bool * option error * World :=
  let w := call OpIdempotencyCheck w in
  if faults w OpIdempotencyCheck
  then (None, false, Some (Wrapf "check idempotency key" (ErrDriver OpIdempotencyCheck)), w)
  else
    match idempotency_keys (db w) !! key with
    | Some row =>
        if now w <? IdempotencyKey.expires_at row
        then
          if negb (String.eqb (IdempotencyKey.request_hash row) requestHash)
          then (None, true, Some ErrIdempotencyMismatch, w)
          else (Some (IdempotencyKey.response_data row), true, None, w)
        else (None, false, None, w)
    | None => (None, false, None, w)
    end.

(** [INSERT ... ON CONFLICT (idempotency_key) DO UPDATE]: a row that is
    there keeps its [created_at]. *)
Definition upsertIdempotencyKey (key requestHash : string)
    (responseJSON : RawMessage) (at_ : Time) (ttl : Z) (t : Database) : Database :=
  let created :=
    match idempotency_keys t !! key with
    | Some row => IdempotencyKey.created_at row
    | None => at_
    end in
  mkDatabase (orders_table t) (outbox_events t)
    (<[key := IdempotencyKey.mk requestHash responseJSON created (at_ + ttl)]>
       (idempotency_keys t)).

(** [PostgresIdempotencyRepository.StoreInTransaction]. *)
Definition idempotencyRepo_StoreInTransaction (w : World) (key requestHash : string)
    (responseData : option Order) (ttl : Z) : option error * World :=
  let w := call OpIdempotencyStoreInTransaction w in
  let responseJSON := json_Marshal responseData in
  match tx_Exec OpIdempotencyStoreInTransaction
          (fun t => Ok (upsertIdempotencyKey key requestHash responseJSON (now w) ttl t)) w with
  | (Err e, w) => (Some (Wrapf "store idempotency key in transaction" e), w)
  | (Ok _, w) => (None, w)
  end.

(** ** internal/repository: orders *)

Definition set_orders_table (m : gmap UUID Order) (t : Database) : Database :=
  mkDatabase m (outbox_events t) (idempotency_keys t).

(** The fields [Create] fills in before its [INSERT]; the caller sees them
    through its pointer. *)
Definition initOrder (w : World) (order : Order) : Order * World :=
  let '(order, w) :=
    if N.eqb (Order.ID order) uuid_Nil
    then let '(id, w) := world_uuid_New w in (Order.set_ID id order, w)
    else (order, w) in
  let order :=
    if Order.PlacedAt order =? 0 then Order.set_PlacedAt (now w) order else order in
  let order := Order.set_Version 1 order in
  let order :=
    if decimal.IsZero (Order.SizeMatched order)
    then Order.set_SizeMatched decimal.Zero order else order in
  let order :=
    if decimal.IsZero (Order.SizeRemaining order)
    then Order.set_SizeRemaining (Order.Size order) order else order in
  let order :=
    if String.eqb (Order.Status order) ""
    then Order.set_Status OrderStatusPending order else order in
  (order, w).

(** The row the [INSERT] of [Create] writes: [matched_at] and [cancelled_at]
    are not among its columns. *)
Definition insertedRow (order : Order) : Order :=
  Order.set_MatchedAt None (Order.set_CancelledAt None (numerals order)).

(** The idempotency keys of the orders of the table. *)
Definition orderKeys (t : Database) : list string :=
  (fun kv => Order.IdempotencyKey (snd kv)) <$> map_to_list (orders_table t).

(** Whether an [INSERT] of an order with [key] violates the unique
    constraint on the idempotency key, where the table has it. *)
Definition keyTaken (unique : bool) (t : Database) (key : string) : bool :=
  unique && bool_decide (key ∈ orderKeys t).

(** [PostgresOrderRepository.Create]; an id that is taken violates the
    primary key. *)
Definition orderRepo_Create (w : World) (order : Order)
    : Order * option error * World :=
  let w := call OpOrderCreate w in
  let '(order, w) := initOrder w order in
  match tx_Exec OpOrderCreate
          (fun t => match orders_table t !! Order.ID order with
                    | Some _ => Err ErrUniqueViolation
                    | None =>
                        if keyTaken (uniqueKey w) t (Order.IdempotencyKey order)
                        then Err ErrUniqueViolation
                        else Ok (set_orders_table
                                   (<[Order.ID order := insertedRow order]> (orders_table t)) t)
                    end) w with
  | (Err ErrUniqueViolation, w) =>
      (order, Some (Wrapf "duplicate idempotency key" ErrUniqueViolation), w)
  | (Err e, w) => (order, Some (Wrapf "create order" e), w)
  | (Ok _, w) => (order, None, w)
  end.

(** [PostgresOrderRepository.GetByIDForUpdate]: [scanOrder] parses the four
    numerals of the row. *)
Definition orderRepo_GetByIDForUpdate (w : World) (id : UUID)
    : result Order * World :=
  let w := call OpOrderGetByIDForUpdate w in
  match tx w with
  | Some t =>
      if faults w OpOrderGetByIDForUpdate
      then (Err (Wrapf "scan order" (ErrDriver OpOrderGetByIDForUpdate)), w)
      else match orders_table t !! id with
           | Some row => (Ok row, w)
           | None => (Err ErrOrderNotFound, w)
           end
  | None => (Err (Wrapf "scan order" (ErrDriver OpOrderGetByIDForUpdate)), w)
  end.

(** The row [Update] writes over [row]. *)
Definition updatedRow (order row : Order) : Order :=
  Order.set_SizeMatched (decimal.String (Order.SizeMatched order))
    (Order.set_SizeRemaining (decimal.String (Order.SizeRemaining order))
      (Order.set_Status (Order.Status order)
        (Order.set_MatchedAt (Order.MatchedAt order)
          (Order.set_CancelledAt (Order.CancelledAt order)
            (Order.set_Version (Order.Version row + 1) row))))).

(** [PostgresOrderRepository.Update]: [WHERE id = $6 AND version = $7]; no
    row affected is the optimistic-lock failure.  On success the version of
    the caller's order is incremented. *)
Definition orderRepo_Update (w : World) (order : Order)
    : Order * option error * World :=
  let w := call OpOrderUpdate w in
  match tx w with
  | Some t =>
      if faults w OpOrderUpdate
      then (order, Some (Wrapf "update order" (ErrDriver OpOrderUpdate)), w)
      else
        match orders_table t !! Order.ID order with
        | Some row =>
            if Order.Version row =? Order.Version order
            then (Order.set_Version (Order.Version order + 1) order, None,
                  set_tx (Some (set_orders_table
                    (<[Order.ID order := updatedRow order row]> (orders_table t)) t)) w)
            else (order, Some ErrOptimisticLock, w)
        | None => (order, Some ErrOptimisticLock, w)
        end
  | None => (order, Some (Wrapf "update order" (ErrDriver OpOrderUpdate)), w)
  end.

(** [PostgresOrderRepository.Settle]: [WHERE id = $2 AND status = $3] with
    [MATCHED] for both the new and the required status.  The service does
    not call it. *)
Definition orderRepo_Settle (w : World) (id : UUID) (result_ : string)
    (actualPayout : Decimal) : option error * World :=
  let w := call OpOrderSettle w in
  match tx w with
  | Some t =>
      if faults w OpOrderSettle
      then (Some (Wrapf "settle order" (ErrDriver OpOrderSettle)), w)
      else
        match orders_table t !! id with
        | Some row =>
            if String.eqb (Order.Status row) OrderStatusMatched
            then (None,
                  set_tx (Some (set_orders_table
                    (<[id := Order.set_Status OrderStatusMatched
                               (Order.set_Version (Order.Version row + 1) row)]>
                       (orders_table t)) t)) w)
            else (Some ErrInvalidOrderStatus, w)
        | None => (Some ErrInvalidOrderStatus, w)
        end
  | None => (Some (Wrapf "settle order" (ErrDriver OpOrderSettle)), w)
  end.

(** [PostgresOrderRepository.UpdateMatched].  The service does not call it
    either. *)
Definition orderRepo_UpdateMatched (w : World) (id : UUID)
    (sizeMatched sizeRemaining : Decimal) (status : string) (version : Z)
    : option error * World :=
  let w := call OpOrderUpdateMatched w in
  match tx w with
  | Some t =>
      if faults w OpOrderUpdateMatched
      then (Some (Wrapf "update matched amounts" (ErrDriver OpOrderUpdateMatched)), w)
      else
        match orders_table t !! id with
        | Some row =>
            if Order.Version row =? version
            then
              let matchedAt :=
                if String.eqb status OrderStatusMatched || String.eqb status OrderStatusPartially
                then Some (now w) else Order.MatchedAt row in
              (None,
               set_tx (Some (set_orders_table
                 (<[id := Order.set_SizeMatched (decimal.String sizeMatched)
                            (Order.set_SizeRemaining (decimal.String sizeRemaining)
                              (Order.set_Status status
                                (Order.set_MatchedAt matchedAt
                                  (Order.set_Version (Order.Version row + 1) row))))]>
                    (orders_table t)) t)) w)
            else (Some ErrOptimisticLock, w)
        | None => (Some ErrOptimisticLock, w)
        end
  | None => (Some (Wrapf "update matched amounts" (ErrDriver OpOrderUpdateMatched)), w)
  end.

(** ** internal/repository: outbox *)

Definition set_outbox_events (l : list OutboxEvent) (t : Database) : Database :=
  mkDatabase (orders_table t) l (idempotency_keys t).

Definition eventIDs (t : Database) : list UUID :=
  map OutboxEvent.ID (outbox_events t).

(** [PostgresOutboxRepository.Create]: the id is drawn if it is nil,
    [created_at] is now; an id that is taken violates the primary key. *)
Definition outboxRepo_Create (w : World) (event : OutboxEvent)
    : option error * World :=
  let w := call OpOutboxCreate w in
  let '(id, w) :=
    if N.eqb (OutboxEvent.ID event) uuid_Nil then world_uuid_New w
    else (OutboxEvent.ID event, w) in
  let event :=
    OutboxEvent.mk id (OutboxEvent.AggregateID event) (OutboxEvent.AggregateType event)
      (OutboxEvent.EventType event) (OutboxEvent.EventPayload event)
      (OutboxEvent.SagaID event) (now w) (OutboxEvent.ProcessedAt event)
      (OutboxEvent.RetryCount event) (OutboxEvent.MaxRetries event)
      (OutboxEvent.LastError event) in
  match tx_Exec OpOutboxCreate
          (fun t => if bool_decide (id ∈ eventIDs t) then Err ErrUniqueViolation
                    else Ok (set_outbox_events (outbox_events t ++ [event]) t)) w with
  | (Err e, w) => (Some (Wrapf "create outbox event" e), w)
  | (Ok _, w) => (None, w)
  end.

(** ** internal/repository: the calls on the pool

    Reads and maintenance statements go through the pool, outside any
    transaction: they see and change the committed database.  [driverErr]
    is the error of the driver where it fails the statement. *)

(** [PostgresOrderRepository.GetByID]: [scanOrder] on the row of [id], where
    no row is [ErrOrderNotFound]. *)
Definition orderRepo_GetByID (driverErr : option error) (w : World) (id : UUID)
    : result Order :=
  match driverErr with
  | Some e => Err (Wrapf "scan order" e)
  | None =>
      match orders_table (db w) !! id with
      | Some row => Ok row
      | None => Err ErrOrderNotFound
      end
  end.

(** [PostgresIdempotencyRepository.Store]: the upsert of
    [StoreInTransaction], on the pool. *)
Definition idempotencyRepo_Store (driverErr : option error) (w : World)
    (key requestHash : string) (responseData : option Order) (ttl : Z)
    : option error * World :=
  let responseJSON := json_Marshal responseData in
  match driverErr with
  | Some e => (Some (Wrapf "store idempotency key" e), w)
  | None =>
      (None, set_db (upsertIdempotencyKey key requestHash responseJSON (now w) ttl (db w)) w)
  end.

(** The rows [DELETE ... WHERE expires_at < NOW()] deletes. *)
Definition expired (at_ : Time) (kv : string * IdempotencyKey.t) : Prop :=
  IdempotencyKey.expires_at (snd kv) < at_.

#[global] Instance expired_dec at_ kv : Decision (expired at_ kv).
Proof. unfold expired. apply _. Defined.

(** [PostgresIdempotencyRepository.CleanupExpired]; it returns the number
    of rows deleted. *)
Definition idempotencyRepo_CleanupExpired (driverErr : option error) (w : World)
    : Z * option error * World :=
  match driverErr with
  | Some e => (0, Some (Wrapf "cleanup expired idempotency keys" e), w)
  | None =>
      let gone := filter (expired (now w)) (idempotency_keys (db w)) in
      let kept := filter (fun kv => ¬ expired (now w) kv) (idempotency_keys (db w)) in
      (Z.of_nat (size gone), None,
       set_db (mkDatabase (orders_table (db w)) (outbox_events (db w)) kept) w)
  end.

(** ** Go's [int] and slices *)

(** The sum of two [int]s wraps around at 64 bits. *)
Definition wrapInt (z : Z) : Z := (z + 2 ^ 63) mod 2 ^ 64 - 2 ^ 63.

(** [s[lo:hi]], where [hi] is at most the length of [s], as it is where
    the service slices; [lo] below zero or above [hi] is a panic, [None]. *)
Definition slice {A : Type} (s : list A) (lo hi : Z) : option (list A) :=
  if (0 <=? lo) && (lo <=? hi) && (hi <=? Z.of_nat (length s))
  then Some (take (Z.to_nat (hi - lo)) (drop (Z.to_nat lo) s))
  else None.

(** ** internal/service *)
Module service.

(** [validator.Struct]: [required] rejects the zero value of an id or of a
    string, and [oneof] a string outside its list.  On a
    [decimal.Decimal], a struct, [required] checks nothing. *)
Definition nonzeroUUID (u : UUID) : bool := negb (N.eqb u uuid_Nil).
Definition nonempty (s : string) : bool := negb (String.eqb s "").

Definition validate_PlaceOrderRequest (req : PlaceOrderRequest.t) : bool :=
  nonzeroUUID (PlaceOrderRequest.UserID req)
  && nonempty (PlaceOrderRequest.EventID req)
  && nonempty (PlaceOrderRequest.BetType req)
  && nonempty (PlaceOrderRequest.Selection req)
  && nonempty (PlaceOrderRequest.IdempotencyKey req).

Definition validate_CancelOrderRequest (req : CancelOrderRequest.t) : bool :=
  nonzeroUUID (CancelOrderRequest.OrderID req)
  && nonempty (CancelOrderRequest.IdempotencyKey req).

(** [validate:"required,oneof=win loss"] on [Result]. *)
Definition validate_SettleOrderRequest (req : SettleOrderRequest.t) : bool :=
  nonzeroUUID (SettleOrderRequest.OrderID req)
  && (nonempty (SettleOrderRequest.Result req)
      && (String.eqb (SettleOrderRequest.Result req) "win"
          || String.eqb (SettleOrderRequest.Result req) "loss"))
  && nonempty (SettleOrderRequest.IdempotencyKey req).

Definition optionUUID_String (u : option UUID) : string :=
  match u with
  | Some u => uuid_String u
  | None => ""
  end.

Section Service.

(** [hex.EncodeToString(sha256.Sum256(json))]. *)
Variable sha256_hex : RequestJSON -> string.

(** [repository.ComputeRequestHash]; the requests of the service always
    marshal. *)
Definition ComputeRequestHash (requestJSON : RequestJSON) : string :=
  sha256_hex requestJSON.

(** [PlaceOrder] from [db.Begin] on, up to the deferred rollback. *)
Definition placeOrderInTx (w : World) (req : PlaceOrderRequest.t)
    (requestHash : string) : result Order * World :=
  let potentialPayout :=
    decimal.Mul (PlaceOrderRequest.Amount req) (PlaceOrderRequest.Odds req) in
  let now_ := now w in
  let '(id, w) := world_uuid_New w in
  let order :=
    Order.mk id (PlaceOrderRequest.UserID req) (PlaceOrderRequest.EventID req)
      (PlaceOrderRequest.Selection req) (PlaceOrderRequest.BetType req)
      (PlaceOrderRequest.Odds req) (PlaceOrderRequest.Amount req) decimal.Zero
      (PlaceOrderRequest.Amount req) OrderStatusPending
      (optionUUID_String (PlaceOrderRequest.ReservationID req))
      (optionUUID_String (PlaceOrderRequest.SagaID req))
      (PlaceOrderRequest.IdempotencyKey req) now_ None None 1 in
  match orderRepo_Create w order with
  | (_, Some err, w) => (Err (Wrapf "failed to create order" err), w)
  | (order, None, w) =>
      let eventPayload :=
        [ ("order_id", PUUID (Order.ID order));
          ("user_id", PUUID (Order.UserID order));
          ("event_id", PString (PlaceOrderRequest.EventID req));
          ("bet_type", PString (PlaceOrderRequest.BetType req));
          ("selection", PString (PlaceOrderRequest.Selection req));
          ("amount", PNumeral (decimal.String (PlaceOrderRequest.Amount req)));
          ("odds", PNumeral (decimal.String (PlaceOrderRequest.Odds req)));
          ("potential_payout", PNumeral (decimal.String potentialPayout));
          ("reservation_id", PString (Order.ReservationID order));
          ("placed_at", PTime (Order.PlacedAt order)) ]%string in
      let outboxEvent :=
        OutboxEvent.mk uuid_Nil (Order.ID order) "order" "order.placed" eventPayload
          (PlaceOrderRequest.SagaID req) 0 None 0 0 None in
      match outboxRepo_Create w outboxEvent with
      | (Some err, w) => (Err (Wrapf "failed to insert outbox event" err), w)
      | (None, w) =>
          match idempotencyRepo_StoreInTransaction w
                  (PlaceOrderRequest.IdempotencyKey req) requestHash
                  (Some order) (24 * Hour) with
          | (Some err, w) => (Err (Wrapf "failed to store idempotency key" err), w)
          | (None, w) =>
              match tx_Commit w with
              | (Err err, w) => (Err (Wrapf "failed to commit transaction" err), w)
              | (Ok _, w) => (Ok order, w)
              end
          end
      end
  end.

(** [OrderServiceImpl.PlaceOrder]; metrics and logging are left out. *)
Definition PlaceOrder (w : World) (req : PlaceOrderRequest.t)
    : result Order * World :=
  if negb (validate_PlaceOrderRequest req)
  then (Err (Wrapf "validation failed" ErrValidation), w)
  else
    let requestHash := ComputeRequestHash (json_MarshalPlace req) in
    match idempotencyRepo_Check w (PlaceOrderRequest.IdempotencyKey req) requestHash with
    | (_, _, Some err, w) =>
        match err with
        | ErrIdempotencyMismatch => (Err err, w)
        | _ => (Err (Wrapf "failed to check idempotency" err), w)
        end
    | (cachedResponse, true, None, w) =>
        match json_Unmarshal cachedResponse Order.zero with
        | Err err => (Err (Wrapf "failed to unmarshal cached response" err), w)
        | Ok order => (Ok order, w)
        end
    | (_, false, None, w) =>
        match db_Begin w with
        | (Err err, w) => (Err (Wrapf "failed to start transaction" err), w)
        | (Ok _, w) =>
            let '(r, w) := placeOrderInTx w req requestHash in
            (r, tx_Rollback w)
        end
    end.

(** [CancelOrder] from [db.Begin] on, up to the deferred rollback. *)
Definition cancelOrderInTx (w : World) (req : CancelOrderRequest.t)
    (requestHash : string) : option error * World :=
  match orderRepo_GetByIDForUpdate w (CancelOrderRequest.OrderID req) with
  | (Err err, w) =>
      match err with
      | ErrOrderNotFound => (Some err, w)
      | _ => (Some (Wrapf "failed to get order" err), w)
      end
  | (Ok order, w) =>
      if negb (String.eqb (Order.Status order) OrderStatusPending)
         && negb (String.eqb (Order.Status order) OrderStatusPartially)
      then (Some (Errorf ("order cannot be cancelled: status=" ++ Order.Status order)), w)
      else
        let now_ := now w in
        let order := Order.set_Status OrderStatusCancelled order in
        let order := Order.set_CancelledAt (Some now_) order in
        match orderRepo_Update w order with
        | (_, Some err, w) => (Some (Wrapf "failed to update order" err), w)
        | (order, None, w) =>
            let eventPayload :=
              [ ("order_id", PUUID (Order.ID order));
                ("user_id", PUUID (Order.UserID order));
                ("cancelled_at", PTime now_) ]%string in
            let outboxEvent :=
              OutboxEvent.mk uuid_Nil (Order.ID order) "order" "order.cancelled"
                eventPayload (CancelOrderRequest.SagaID req) 0 None 0 0 None in
            match outboxRepo_Create w outboxEvent with
            | (Some err, w) => (Some (Wrapf "failed to insert outbox event" err), w)
            | (None, w) =>
                match idempotencyRepo_StoreInTransaction w
                        (CancelOrderRequest.IdempotencyKey req) requestHash
                        None (24 * Hour) with
                | (Some err, w) => (Some (Wrapf "failed to store idempotency key" err), w)
                | (None, w) =>
                    match tx_Commit w with
                    | (Err err, w) => (Some (Wrapf "failed to commit transaction" err), w)
                    | (Ok _, w) => (None, w)
                    end
                end
            end
        end
  end.

(** [OrderServiceImpl.CancelOrder]. *)
Definition CancelOrder (w : World) (req : CancelOrderRequest.t)
    : option error * World :=
  if negb (validate_CancelOrderRequest req)
  then (Some (Wrapf "validation failed" ErrValidation), w)
  else
    let requestHash := ComputeRequestHash (json_MarshalCancel req) in
    match idempotencyRepo_Check w (CancelOrderRequest.IdempotencyKey req) requestHash with
    | (_, _, Some err, w) =>
        match err with
        | ErrIdempotencyMismatch => (Some err, w)
        | _ => (Some (Wrapf "failed to check idempotency" err), w)
        end
    | (_, true, None, w) => (None, w)
    | (_, false, None, w) =>
        match db_Begin w with
        | (Err err, w) => (Some (Wrapf "failed to start transaction" err), w)
        | (Ok _, w) =>
            let '(r, w) := cancelOrderInTx w req requestHash in
            (r, tx_Rollback w)
        end
    end.

(** [SettleOrder] from [db.Begin] on, up to the deferred rollback. *)
Definition settleOrderInTx (w : World) (req : SettleOrderRequest.t)
    (requestHash : string) : option error * World :=
  match orderRepo_GetByIDForUpdate w (SettleOrderRequest.OrderID req) with
  | (Err err, w) => (Some (Wrapf "failed to get order" err), w)
  | (Ok order, w) =>
      let now_ := now w in
      let newStatus :=
        if String.eqb (SettleOrderRequest.Result req) "win"
        then "settled_win" else "settled_loss" in
      let order := Order.set_Status newStatus order in
      match orderRepo_Update w order with
      | (_, Some err, w) => (Some (Wrapf "failed to update order" err), w)
      | (order, None, w) =>
          let eventPayload :=
            [ ("order_id", PUUID (Order.ID order));
              ("user_id", PUUID (Order.UserID order));
              ("result", PString (SettleOrderRequest.Result req));
              ("actual_payout",
               PNumeral (decimal.String (SettleOrderRequest.ActualPayout req)));
              ("settled_at", PTime now_) ]%string in
          let outboxEvent :=
            OutboxEvent.mk uuid_Nil (Order.ID order) "order" "order.settled"
              eventPayload (SettleOrderRequest.SagaID req) 0 None 0 0 None in
          match outboxRepo_Create w outboxEvent with
          | (Some err, w) => (Some (Wrapf "failed to insert outbox event" err), w)
          | (None, w) =>
              match idempotencyRepo_StoreInTransaction w
                      (SettleOrderRequest.IdempotencyKey req) requestHash
                      None (24 * Hour) with
              | (Some err, w) => (Some (Wrapf "failed to store idempotency key" err), w)
              | (None, w) =>
                  match tx_Commit w with
                  | (Err err, w) => (Some (Wrapf "failed to commit transaction" err), w)
                  | (Ok _, w) => (None, w)
                  end
              end
          end
      end
  end.

(** [OrderServiceImpl.SettleOrder]. *)
Definition SettleOrder (w : World) (req : SettleOrderRequest.t)
    : option error * World :=
  if negb (validate_SettleOrderRequest req)
  then (Some (Wrapf "validation failed" ErrValidation), w)
  else
    let requestHash := ComputeRequestHash (json_MarshalSettle req) in
    match idempotencyRepo_Check w (SettleOrderRequest.IdempotencyKey req) requestHash with
    | (_, _, Some err, w) =>
        match err with
        | ErrIdempotencyMismatch => (Some err, w)
        | _ => (Some (Wrapf "failed to check idempotency" err), w)
        end
    | (_, true, None, w) => (None, w)
    | (_, false, None, w) =>
        match db_Begin w with
        | (Err err, w) => (Some (Wrapf "failed to start transaction" err), w)
        | (Ok _, w) =>
            let '(r, w) := settleOrderInTx w req requestHash in
            (r, tx_Rollback w)
        end
    end.

(** [OrderServiceImpl.GetActiveOrders]. *)
Definition GetActiveOrders (w : World) (limit offset : Z)
    : list Order * option error * World :=
  ([], None, w).

End Service.

(** [OrderServiceImpl.GetOrderByID]. *)
Definition GetOrderByID (driverErr : option error) (w : World) (orderID : UUID)
    : result Order :=
  match orderRepo_GetByID driverErr w orderID with
  | Err err => Err (Wrapf "failed to get order" err)
  | Ok order => Ok order
  end.

Section Queries.

(** The two list queries of the [repository.OrderRepository] the service is
    built on.  SQL leaves the order of rows of equal [placed_at] open, so
    the service is taken over the interface, as its tests take it over a
    mock. *)
Variable orderRepo_GetByUserID : UUID -> Z -> Z -> result (list Order).
Variable orderRepo_GetPendingOrders : string -> result (list Order).

(** The limit both queries of the service settle on. *)
Definition pageLimit (limit : Z) : Z :=
  let limit := if limit <=? 0 then 50 else limit in
  if 100 <? limit then 100 else limit.

(** [OrderServiceImpl.GetUserOrders]. *)
Definition GetUserOrders (userID : UUID) (limit offset : Z) : result (list Order) :=
  let limit := if limit <=? 0 then 50 else limit in
  let limit := if 100 <? limit then 100 else limit in
  match orderRepo_GetByUserID userID limit offset with
  | Err err => Err (Wrapf "failed to get user orders" err)
  | Ok orders => Ok orders
  end.

(** [OrderServiceImpl.GetOrdersByEvent]: the pending orders of the event,
    paginated by hand.  [None] is the panic of a slice expression whose
    bounds are out of range. *)
Definition GetOrdersByEvent (eventID : string) (limit offset : Z)
    : option (result (list Order)) :=
  let limit := if limit <=? 0 then 50 else limit in
  let limit := if 100 <? limit then 100 else limit in
  match orderRepo_GetPendingOrders eventID with
  | Err err => Some (Err (Wrapf "failed to get event orders" err))
  | Ok orders =>
      let start := offset in
      if Z.of_nat (length orders) <=? start then Some (Ok [])
      else
        let end_ := wrapInt (offset + limit) in
        let end_ := if Z.of_nat (length orders) <? end_
                    then Z.of_nat (length orders) else end_ in
        match slice orders start end_ with
        | Some page => Some (Ok page)
        | None => None
        end
  end.

End Queries.

End service.

(** ** internal/handler/grpc *)
Module grpc.

(** The [codes.Code]s the handler answers with. *)
Inductive Code : Type :=
  | InvalidArgument | NotFound | AlreadyExists | Aborted | Internal.

(** [OrderBookHandler.mapError]: [switch err] compares the error itself
    with the sentinels, so an error that wraps one is none of them. *)
Definition mapError (err : error) : Code * string :=
  match err with
  | ErrOrderNotFound => (NotFound, "order not found")
  | ErrIdempotencyMismatch =>
      (AlreadyExists, "idempotency key already used with different request")
  | ErrOptimisticLock => (Aborted, "concurrent modification detected, please retry")
  | _ => (Internal, "internal server error")
  end.

End grpc.

(** * Statements

    The predicates the properties below are stated with. *)
Import matchingengine.

(** Both arguments of a comparison brought to the smaller exponent. *)
Definition aligned (d d2 : Decimal) : Z * Z :=
  let m := Z.min (decimal.exp d) (decimal.exp d2) in
  (decimal.value d * 10 ^ (decimal.exp d - m), decimal.value d2 * 10 ^ (decimal.exp d2 - m)).

(** Every price of the sorted sequence of a half has a queue under its key,
    and that queue carries the price. *)
Definition level_indexed (s : BookSide) (e : Engine) : Prop :=
  ∀ p, p ∈ sidePrices s e →
    ∃ q, sideOrders s e !! decimal.String p = Some q ∧ price q = p.

Definition book_indexed (e : Engine) : Prop := ∀ s, level_indexed s e.

Definition level_nonempty (s : BookSide) (e : Engine) : Prop :=
  ∀ p, p ∈ sidePrices s e →
    ∃ q, sideOrders s e !! decimal.String p = Some q ∧ orders q ≠ [].

Definition book_nonempty (e : Engine) : Prop := ∀ s, level_nonempty s e.

Definition same_levels (e e' : Engine) : Prop :=
  ∀ s, sidePrices s e' = sidePrices s e ∧
       ∀ k, price <$> (sideOrders s e' !! k) = price <$> (sideOrders s e !! k).

Definition keeps_levels (e e' : Engine) : Prop :=
  ∀ s, (∀ p, p ∈ sidePrices s e → p ∈ sidePrices s e') ∧
       (∀ k, is_Some (sideOrders s e !! k) → is_Some (sideOrders s e' !! k)).

(** *** The pairings of a placement

    The states in which [PlaceOrder] pairs the incoming order, in the order
    of the matches it returns: the store right before the pairing, the book
    when the walk entered the level, the price of the level and the resting
    order. *)
Record Pairing : Type := mkPairing {
  before : Runtime;
  book : Engine;
  levelPrice : Decimal;
  resting : loc
}.

Fixpoint loopPairings (e : Engine) (rt : Runtime) (incoming : loc)
    (matchPrice : Decimal) (todo : list loc) : list (Runtime * loc) :=
  match todo with
  | [] => []
  | existing :: rest =>
      if decimal.IsZero (Order.SizeRemaining (load rt incoming)) then []
      else
        (rt, existing)
        :: loopPairings e (fst (fst (iteration e rt incoming existing matchPrice)))
             incoming matchPrice rest
  end.

Fixpoint levelPairings (opp : BookSide) (rt : Runtime) (e : Engine) (order : loc)
    (prices : list Decimal) : list Pairing :=
  match prices with
  | [] => []
  | p :: rest =>
      if decimal.IsZero (Order.SizeRemaining (load rt order)) then []
      else if cannotMatch opp (Order.Price (load rt order)) p then []
      else
        match sideOrders opp e !! decimal.String p with
        | None => []
        | Some queue =>
            let here :=
              map (fun x => mkPairing (fst x) e p (snd x))
                  (loopPairings e rt order p (orders queue)) in
            let '(rt1, queue1, _) := matchOrders e rt order queue p in
            let e1 := setSideOrders opp
                        (<[decimal.String p := queue1]> (sideOrders opp e)) e in
            here ++ levelPairings opp rt1 e1 order rest
        end
  end.

(** The half of the book an order rests in, and the one it is matched
    against. *)
Definition ownSide (rt : Runtime) (order : loc) : BookSide :=
  if String.eqb (Order.Side (load rt order)) OrderSideBack then BackSide else LaySide.

Definition PlaceOrderPairings (rt : Runtime) (e : Engine) (order : loc) : list Pairing :=
  let opp := opposite (ownSide rt order) in
  levelPairings opp rt e order (sidePrices opp e).

(** What a match has to do with the pairing it comes from: the resting
    order rests in the level that was walked, the match carries the price
    of that level, its size is the lesser of the two remaining sizes, and the
    two liabilities follow from size and price. *)
Definition paired (opp : BookSide) (order : loc) (pr : Pairing) (m : Match) : Prop :=
  let incomingSize := Order.SizeRemaining (load (before pr) order) in
  let restingSize := Order.SizeRemaining (load (before pr) (resting pr)) in
  (∃ q, sideOrders opp (book pr) !! decimal.String (levelPrice pr) = Some q ∧
        resting pr ∈ orders q ∧ Match.Price m = price q) ∧
  Match.Size m = decimal.Min incomingSize restingSize ∧
  (decimal.toQ (Match.Size m) <= decimal.toQ incomingSize)%Q ∧
  (decimal.toQ (Match.Size m) <= decimal.toQ restingSize)%Q ∧
  Match.BackLiability m = Match.Size m ∧
  Match.LayLiability m =
    decimal.Mul (Match.Size m) (decimal.Sub (Match.Price m) (decimal.NewFromInt 1)) ∧
  (decimal.toQ (Match.LayLiability m) ==
   decimal.toQ (Match.Size m) * (decimal.toQ (Match.Price m) - 1))%Q.

(** The books there are: the one [NewEngine] makes, and those
    [PlaceOrder] and [CancelOrder] make of a book.  The fields of [Engine]
    are not exported, so nothing else writes to a book; the store is that of
    the callers, who may have written to it between two operations. *)
Inductive Reachable : Engine → Prop :=
  | Reachable_NewEngine m s : Reachable (NewEngine m s)
  | Reachable_PlaceOrder rt e order rt' e' ms :
      Reachable e → PlaceOrder rt e order = Some (rt', e', ms) → Reachable e'
  | Reachable_CancelOrder backKeys layKeys rt e orderID rt' e' :
      Reachable e → CancelOrderIn backKeys layKeys rt e orderID = Some (rt', e') →
      Reachable e'.

(** [a] is walked no later than [b] in the half [opp]: lay prices ascend,
    back prices descend. *)
Definition priority (opp : BookSide) (a b : Decimal) : Prop :=
  match opp with
  | LaySide => decimal.LessThanOrEqual a b = true
  | BackSide => decimal.LessThanOrEqual b a = true
  end.

Definition prices_sorted (s : BookSide) (e : Engine) : Prop :=
  StronglySorted (priority s) (sidePrices s e).

Definition book_sorted (e : Engine) : Prop := ∀ s, prices_sorted s e.

(** *** Further statements about the book *)

(** A numeral is in normal form: no exponent above zero, and no zero at the
    end of its fractional part. *)
Definition canonical (d : Decimal) : Prop :=
  decimal.exp d <= 0 ∧ (decimal.exp d < 0 → decimal.value d mod 10 ≠ 0).

(** [a] is walked strictly before [b] in the half [s]. *)
Definition strictly (s : BookSide) (a b : Decimal) : Prop :=
  match s with
  | LaySide => decimal.LessThan a b = true
  | BackSide => decimal.GreaterThan a b = true
  end.

Definition prices_strict (s : BookSide) (e : Engine) : Prop :=
  StronglySorted (strictly s) (sidePrices s e).

Definition book_strict (e : Engine) : Prop := ∀ s, prices_strict s e.

(** What of an order is matched and what remains, together. *)
Definition sizeTotal (o : Order) : Q :=
  (decimal.toQ (Order.SizeMatched o) + decimal.toQ (Order.SizeRemaining o))%Q.

(** [b] is [a] but for its status, its two timestamps and its two sizes,
    whose sum is that of [a]. *)
Definition stable (a b : Order) : Prop :=
  Order.ID a = Order.ID b ∧ Order.UserID a = Order.UserID b ∧
  Order.MarketID a = Order.MarketID b ∧ Order.SelectionID a = Order.SelectionID b ∧
  Order.Side a = Order.Side b ∧ Order.Price a = Order.Price b ∧
  Order.Size a = Order.Size b ∧ Order.ReservationID a = Order.ReservationID b ∧
  Order.SagaID a = Order.SagaID b ∧ Order.IdempotencyKey a = Order.IdempotencyKey b ∧
  Order.PlacedAt a = Order.PlacedAt b ∧ Order.Version a = Order.Version b ∧
  (sizeTotal a == sizeTotal b)%Q.

(** The store [rt'] is [rt] with some of its orders matched, rested or
    cancelled. *)
Definition evolves (rt rt' : Runtime) : Prop :=
  clock rt' = clock rt ∧ ∀ p, stable (load rt p) (load rt' p).

(** The order on the other side of a match, for an incoming order of side
    [side]. *)
Definition counterparty (side : string) (m : Match) : UUID :=
  if String.eqb side OrderSideBack then Match.LayOrderID m else Match.BackOrderID m.

(** The sizes of a list of matches, added up. *)
Definition matchedSize (ms : list Match) : Q :=
  fold_right (fun m acc => decimal.toQ (Match.Size m) + acc)%Q 0%Q ms.

(** The order at [p] rests in the half [s] of the book. *)
Definition rests_in (s : BookSide) (e : Engine) (p : loc) : Prop :=
  ∃ k q, sideOrders s e !! k = Some q ∧ p ∈ orders q.

(** What remains of the orders [os], added up. *)
Definition remaining (rt : Runtime) (os : list loc) : Q :=
  fold_right (fun p acc => decimal.toQ (Order.SizeRemaining (load rt p)) + acc)%Q 0%Q os.

(** Every queue of the book sits under the numeral of its price, and that
    price is listed. *)
Definition book_keyed (e : Engine) : Prop :=
  ∀ s k q, sideOrders s e !! k = Some q →
    decimal.String (price q) = k ∧ price q ∈ sidePrices s e.

(** The book is not crossed: the price of a back level where an order rests
    is below the price of every lay level where an order rests. *)
Definition uncrossed (e : Engine) : Prop :=
  ∀ kb qb kl ql,
    backOrders e !! kb = Some qb → orders qb ≠ [] →
    layOrders e !! kl = Some ql → orders ql ≠ [] →
    decimal.LessThan (price qb) (price ql) = true.

(** The books made by placing orders that do not rest on the other side of
    the book already, and by cancelling.  Between two operations the callers
    may have written to the store. *)
Inductive Orderly : Engine → Prop :=
  | Orderly_NewEngine m s : Orderly (NewEngine m s)
  | Orderly_PlaceOrder rt e order rt' e' ms :
      Orderly e → ¬ rests_in (opposite (ownSide rt order)) e order →
      PlaceOrder rt e order = Some (rt', e', ms) → Orderly e'
  | Orderly_CancelOrder backKeys layKeys rt e orderID rt' e' :
      Orderly e → CancelOrderIn backKeys layKeys rt e orderID = Some (rt', e') →
      Orderly e'.

(** Every queue of [e'] is what is left of a queue of [e]. *)
Definition shrinks (e e' : Engine) : Prop :=
  ∀ s k q', sideOrders s e' !! k = Some q' →
    ∃ q, sideOrders s e !! k = Some q ∧ price q' = price q ∧
         ∀ p, p ∈ orders q' → p ∈ orders q.

(** The price of a match is within the limit of the incoming order: at most
    the price of a back order, at least the price of a lay order. *)
Definition within_limit (rt : Runtime) (order : loc) (m : Match) : Prop :=
  match ownSide rt order with
  | BackSide =>
      (decimal.toQ (Match.Price m) <= decimal.toQ (Order.Price (load rt order)))%Q
  | LaySide =>
      (decimal.toQ (Order.Price (load rt order)) <= decimal.toQ (Match.Price m))%Q
  end.

(** [Engine.PlaceOrder] returns, and [P] holds of the store and of the book
    it leaves and of the matches it returns. *)
Definition PlaceOrder_gives (rt : Runtime) (e : Engine) (order : loc)
    (P : Runtime → Engine → list Match → Prop) : Prop :=
  ∃ rt' e' ms, PlaceOrder rt e order = Some (rt', e', ms) ∧ P rt' e' ms.

(** The matches of a placement make up what was filled of the order. *)
Definition filled_by (rt : Runtime) (order : loc) (rt' : Runtime) (ms : list Match) : Prop :=
  (decimal.toQ (Order.SizeRemaining (load rt' order)) ==
   decimal.toQ (Order.SizeRemaining (load rt order)) - matchedSize ms)%Q ∧
  (decimal.toQ (Order.SizeMatched (load rt' order)) ==
   decimal.toQ (Order.SizeMatched (load rt order)) + matchedSize ms)%Q.

(** [keys] are the keys of [m], in the order in which a [range] over the map
    happens to yield them. *)
Definition ranges_over (keys : list Decimal) (m : gmap Decimal OrderQueue) : Prop :=
  ∀ k, k ∈ keys ↔ is_Some (m !! k).

(** No order that rests in the book carries [orderID]. *)
Definition absent (rt : Runtime) (e : Engine) (orderID : UUID) : Prop :=
  ∀ s p, rests_in s e p → Order.ID (load rt p) ≠ orderID.

(** What [CancelOrder] has done when it succeeds: of one queue, the first
    order that carries the id is taken out and marked; nothing else is
    written. *)
Definition cancelled (rt : Runtime) (e : Engine) (orderID : UUID)
    (rt' : Runtime) (e' : Engine) : Prop :=
  ∃ s k q i p,
    sideOrders s e !! k = Some q ∧ orders q !! i = Some p ∧
    Order.ID (load rt p) = orderID ∧
    (∀ p', p' ∈ take i (orders q) → Order.ID (load rt p') ≠ orderID) ∧
    e' = setSideOrders s
           (<[k := mkOrderQueue (price q) (delete i (orders q))]> (sideOrders s e)) e ∧
    rt' = assign (assign rt p (Order.set_CancelledAt (Some (time_Now rt))))
                 p (Order.set_Status OrderStatusCancelled).

(** [levels] are the levels of the half [s], in the order of its prices:
    each with the number of orders of its queue and, as a number, the sum of
    what remains of them. *)
Definition levels_of (s : BookSide) (rt : Runtime) (e : Engine)
    (levels : list PriceLevel.t) : Prop :=
  map PriceLevel.Price levels = sidePrices s e ∧
  Forall (fun level =>
            ∃ q, sideOrders s e !! decimal.String (PriceLevel.Price level) = Some q ∧
                 PriceLevel.OrderCount level = Z.of_nat (length (orders q)) ∧
                 (decimal.toQ (PriceLevel.TotalSize level) == remaining rt (orders q))%Q)
         levels.

(** [Engine.GetMarketBook] returns the levels of both halves. *)
Definition book_viewed (rt : Runtime) (e : Engine) : Prop :=
  ∃ view, GetMarketBook rt e = Some view ∧
          levels_of BackSide rt e (MarketBook.BackOrders view) ∧
          levels_of LaySide rt e (MarketBook.LayOrders view).

(** *** The service *)

(** No call fails in the driver. *)
Definition no_faults (w : World) : Prop := ∀ op, faults w op = false.

(** The record of [key] that has not expired, if there is one. *)
Definition liveRecord (w : World) (key : string) : option IdempotencyKey.t :=
  match idempotency_keys (db w) !! key with
  | Some row => if now w <? IdempotencyKey.expires_at row then Some row else None
  | None => None
  end.

(** The status [SettleOrder] writes for a result. *)
Definition settledStatus (result_ : string) : string :=
  if String.eqb result_ "win" then "settled_win" else "settled_loss".

(** Two orders that agree on every field, as numbers where the field is a
    decimal. *)
Definition same_order (a b : Order) : Prop :=
  Order.ID a = Order.ID b ∧ Order.UserID a = Order.UserID b ∧
  Order.MarketID a = Order.MarketID b ∧ Order.SelectionID a = Order.SelectionID b ∧
  Order.Side a = Order.Side b ∧
  decimal.Equal (Order.Price a) (Order.Price b) = true ∧
  decimal.Equal (Order.Size a) (Order.Size b) = true ∧
  decimal.Equal (Order.SizeMatched a) (Order.SizeMatched b) = true ∧
  decimal.Equal (Order.SizeRemaining a) (Order.SizeRemaining b) = true ∧
  Order.Status a = Order.Status b ∧ Order.ReservationID a = Order.ReservationID b ∧
  Order.SagaID a = Order.SagaID b ∧ Order.IdempotencyKey a = Order.IdempotencyKey b ∧
  Order.PlacedAt a = Order.PlacedAt b ∧ Order.MatchedAt a = Order.MatchedAt b ∧
  Order.CancelledAt a = Order.CancelledAt b ∧ Order.Version a = Order.Version b.

(** The world at a later call: the clock reads [t] and the driver has the
    faults [f]. *)
Definition later (t : Time) (f : Op → bool) (w : World) : World :=
  mkWorld (db w) (tx w) t (rand w) f (calls w) (uniqueKey w).

(** The same world over a schema without the unique constraint. *)
Definition withoutUniqueKey (w : World) : World :=
  mkWorld (db w) (tx w) (now w) (rand w) (faults w) (calls w) false.

(** The order [PlaceOrder] builds for a request. *)
Definition placedOrder (w : World) (req : PlaceOrderRequest.t) : Order :=
  Order.mk (rand w + 1)%N (PlaceOrderRequest.UserID req) (PlaceOrderRequest.EventID req)
    (PlaceOrderRequest.Selection req) (PlaceOrderRequest.BetType req)
    (PlaceOrderRequest.Odds req) (PlaceOrderRequest.Amount req) decimal.Zero
    (PlaceOrderRequest.Amount req) OrderStatusPending
    (service.optionUUID_String (PlaceOrderRequest.ReservationID req))
    (service.optionUUID_String (PlaceOrderRequest.SagaID req))
    (PlaceOrderRequest.IdempotencyKey req) (now w) None None 1.

(** The calls of a [PlaceOrder] that places. *)
Definition placeCalls : list Op :=
  [OpIdempotencyCheck; OpBegin; OpOrderCreate; OpOutboxCreate;
   OpIdempotencyStoreInTransaction; OpCommit; OpRollback].

(** *** The outcomes the claims speak of *)

(** [Engine.PlaceOrder] returns, and every match it returns comes from the
    pairing at its place. *)
Definition matches_paired (rt : Runtime) (e : Engine) (order : loc) : Prop :=
  ∃ rt' e' ms,
    PlaceOrder rt e order = Some (rt', e', ms) ∧
    Forall2 (paired (opposite (ownSide rt order)) order) (PlaceOrderPairings rt e order) ms.

(** [Engine.PlaceOrder] returns at least one match. *)
Definition matched_at_least_once (rt : Runtime) (e : Engine) (order : loc) : Prop :=
  ∃ rt' e' ms, PlaceOrder rt e order = Some (rt', e', ms) ∧ ms ≠ [].

(** Whatever is placed on the book [e] or cancelled from it, the book
    stays indexed and loses neither a price nor a key. *)
Definition levels_kept (rt : Runtime) (e : Engine) : Prop :=
  (∀ order, ∃ rt' e' ms,
     PlaceOrder rt e order = Some (rt', e', ms) ∧ book_indexed e' ∧ keeps_levels e e') ∧
  (∀ backKeys layKeys orderID rt' e',
     CancelOrderIn backKeys layKeys rt e orderID = Some (rt', e') →
     book_indexed e' ∧ keeps_levels e e').

(** The three outcomes of [Check], by the live record of the key. *)
Definition check_outcome (w : World) (key requestHash : string) : Prop :=
  let '(response, exists_, err, w') := idempotencyRepo_Check w key requestHash in
  w' = call OpIdempotencyCheck w ∧
  match liveRecord w key with
  | None => response = None ∧ exists_ = false ∧ err = None
  | Some row =>
      if decide (IdempotencyKey.request_hash row = requestHash)
      then response = Some (IdempotencyKey.response_data row) ∧ exists_ = true ∧ err = None
      else response = None ∧ exists_ = true ∧ err = Some ErrIdempotencyMismatch
  end.

(** [PlaceOrder] places: it returns the order it built, PENDING and with
    nothing matched; the database gains the row of that order, one event,
    of type "order.placed", and the record of the key, and is otherwise as
    before; the calls are those of [placeCalls], [UpdateMatched] not among
    them. *)
Definition placed_without_matching (sha256_hex : RequestJSON → string)
    (w : World) (req : PlaceOrderRequest.t) : Prop :=
  ∃ event row w',
    service.PlaceOrder sha256_hex w req = (Ok (placedOrder w req), w') ∧
    Order.Status (placedOrder w req) = OrderStatusPending ∧
    Order.SizeMatched (placedOrder w req) = decimal.Zero ∧
    db w' = mkDatabase
              (<[Order.ID (placedOrder w req) := insertedRow (placedOrder w req)]>
                 (orders_table (db w)))
              (outbox_events (db w) ++ [event])
              (<[PlaceOrderRequest.IdempotencyKey req := row]> (idempotency_keys (db w))) ∧
    OutboxEvent.EventType event = EventTypeOrderPlaced ∧
    OutboxEvent.AggregateID event = Order.ID (placedOrder w req) ∧
    IdempotencyKey.response_data row = json_Order (numerals (placedOrder w req)) ∧
    IdempotencyKey.expires_at row = now w + 24 * Hour ∧
    calls w' = calls w ++ placeCalls ∧
    OpOrderUpdateMatched ∉ placeCalls.

(** [SettleOrder] succeeds and the row of the order carries the status of
    the result, and the next version. *)
Definition settled (sha256_hex : RequestJSON → string) (w : World)
    (req : SettleOrderRequest.t) (row : Order) : Prop :=
  ∃ w' row',
    service.SettleOrder sha256_hex w req = (None, w') ∧
    orders_table (db w') !! SettleOrderRequest.OrderID req = Some row' ∧
    Order.Status row' = settledStatus (SettleOrderRequest.Result req) ∧
    Order.Version row' = Order.Version row + 1.

(** [CancelOrder] fails with the message that names [status], which is not
    the sentinel [ErrInvalidOrderStatus]; the transaction is rolled back and
    the database is as before. *)
Definition cancel_refused (sha256_hex : RequestJSON → string) (w : World)
    (req : CancelOrderRequest.t) (status : string) : Prop :=
  ∃ err w',
    service.CancelOrder sha256_hex w req = (Some err, w') ∧
    err = Errorf ("order cannot be cancelled: status=" ++ status) ∧
    err ≠ ErrInvalidOrderStatus ∧
    db w' = db w ∧ tx w' = None ∧
    calls w' = calls w ++ [OpIdempotencyCheck; OpBegin; OpOrderGetByIDForUpdate; OpRollback].

(** The repeat of a [PlaceOrder] at time [t] is answered from the record:
    the order returned is [order] again, the only call is [Check], no
    transaction is opened and the database is as before. *)
Definition replayed (sha256_hex : RequestJSON → string) (w1 : World) (t : Time)
    (f : Op → bool) (req : PlaceOrderRequest.t) (order : Order) : Prop :=
  ∃ order2,
    service.PlaceOrder sha256_hex (later t f w1) req =
      (Ok order2, call OpIdempotencyCheck (later t f w1)) ∧
    same_order order order2.

(** *** Worked inputs *)

Definition exampleOrder (id : UUID) (side : string) (orderPrice size : Decimal) : Order :=
  Order.mk id (id + 100)%N "match-winner" "team-a" side orderPrice size
    decimal.Zero size OrderStatusPending "" "" "" 0 None None 1.

Definition twoOrders : Runtime :=
  mkRuntime (<[1%nat := exampleOrder 1 OrderSideLay (decimal.mkDecimal 20 (-1)) (decimal.mkDecimal 10 0)]>
            (<[2%nat := exampleOrder 2 OrderSideBack (decimal.mkDecimal 2 0) (decimal.mkDecimal 10 0)]> ∅))
            5 1000.

Definition emptyBook : Engine := NewEngine "match-winner" "team-a".

(** The book and the store once the lay order of [twoOrders] rests. *)
Definition layStore : Runtime :=
  assign twoOrders 1%nat (Order.set_Status OrderStatusPartially).

Definition layBook : Engine :=
  mkEngine "match-winner" "team-a" ∅
    {[ decimal.mkDecimal 2 0 := mkOrderQueue (decimal.mkDecimal 20 (-1)) [1%nat] ]}
    [] [decimal.mkDecimal 20 (-1)].

(** A stand-in for SHA-256 in the worked inputs. *)
Definition exampleHash (j : RequestJSON) : string :=
  match j with
  | PlaceJSON r =>
      "place/" ++ uuid_String (PlaceOrderRequest.UserID r) ++ "/"
      ++ PlaceOrderRequest.EventID r ++ "/" ++ PlaceOrderRequest.BetType r ++ "/"
      ++ PlaceOrderRequest.Selection r
  | CancelJSON r => "cancel/" ++ uuid_String (CancelOrderRequest.OrderID r)
  | SettleJSON r =>
      "settle/" ++ uuid_String (SettleOrderRequest.OrderID r) ++ "/"
      ++ SettleOrderRequest.Result r
  end%string.

Definition restingLay : Order :=
  exampleOrder 5 OrderSideLay (decimal.mkDecimal 2 0) (decimal.mkDecimal 10 0).

Definition matchedLay : Order := Order.set_Status OrderStatusMatched restingLay.

Definition worldWith (row : Order) : World :=
  mkWorld (mkDatabase {[ Order.ID row := row ]} [] ∅) None 1000 6 (fun _ => false) [] true.

Definition backRequest : PlaceOrderRequest.t :=
  PlaceOrderRequest.mk 42 "match-winner" "BACK" "team-a"
    (decimal.mkDecimal 10 0) (decimal.mkDecimal 2 0) None None "key-1".

Definition pushRequest : SettleOrderRequest.t :=
  SettleOrderRequest.mk 5 "push" (decimal.mkDecimal 0 0) None "key-2".

Definition winRequest : SettleOrderRequest.t :=
  SettleOrderRequest.mk 5 "win" (decimal.mkDecimal 20 0) None "key-3".

Definition cancelRequest : CancelOrderRequest.t :=
  CancelOrderRequest.mk 5 None "key-4".

Definition oneBack : Runtime :=
  mkRuntime {[ 1%nat := exampleOrder 1 OrderSideBack (decimal.mkDecimal 25 (-1)) (decimal.mkDecimal 10 0) ]}
            5 1000.

(** A world whose idempotency table holds one record, live until 5000. *)
Definition keyedWorld : World :=
  mkWorld (mkDatabase ∅ [] {[ "key-1"%string := IdempotencyKey.mk "h1" json_null 0 5000 ]})
          None 1000 6 (fun _ => false) [] true.

(** Placing the orders [os] one after the other. *)
Fixpoint placeAll (os : list loc) (rt : Runtime) (e : Engine) : Runtime * Engine :=
  match os with
  | [] => (rt, e)
  | order :: rest =>
      match PlaceOrder rt e order with
      | Some (rt', e', _) => placeAll rest rt' e'
      | None => (rt, e)
      end
  end.

(** Whether none of them rests on the other side of the book when it is
    placed. *)
Fixpoint freshAll (os : list loc) (rt : Runtime) (e : Engine) : bool :=
  match os with
  | [] => true
  | order :: rest =>
      bool_decide (map_Forall (fun _ q => order ∉ orders q)
                     (sideOrders (opposite (ownSide rt order)) e))
      && match PlaceOrder rt e order with
         | Some (rt', e', _) => freshAll rest rt' e'
         | None => true
         end
  end.

(** Three lay orders, two of them at the price 2 written in two ways, a
    back order below them, a back order that crosses them and a back order
    of size zero. *)
Definition sixOrders : Runtime :=
  mkRuntime
    (<[1%nat := exampleOrder 1 OrderSideLay (decimal.mkDecimal 20 (-1)) (decimal.mkDecimal 4 0)]>
    (<[2%nat := exampleOrder 2 OrderSideLay (decimal.mkDecimal 3 0) (decimal.mkDecimal 5 0)]>
    (<[3%nat := exampleOrder 3 OrderSideLay (decimal.mkDecimal 200 (-2)) (decimal.mkDecimal 6 0)]>
    (<[4%nat := exampleOrder 4 OrderSideBack (decimal.mkDecimal 35 (-1)) (decimal.mkDecimal 12 0)]>
    (<[5%nat := exampleOrder 5 OrderSideBack (decimal.mkDecimal 15 (-1)) (decimal.mkDecimal 7 0)]>
    (<[6%nat := exampleOrder 6 OrderSideBack (decimal.mkDecimal 3 0) decimal.Zero]> ∅))))))
    5 1000.

(** The store and the book once the three lay orders and the lower back
    order rest. *)
Definition restingBook : Runtime * Engine := placeAll [1; 2; 3; 5]%nat sixOrders emptyBook.

(** ** Statements of the further properties *)

(** An error made by [fmt.Errorf("...: %w", cause)]. *)
Definition wrapped (err : error) : Prop := ∃ msg cause, err = Wrapf msg cause.

(** The errors of [cancelOrderInTx]. *)
Definition cancel_error (err : error) : Prop :=
  wrapped err ∨ err = ErrOrderNotFound ∨
  ∃ status, err = Errorf ("order cannot be cancelled: status=" ++ status).

(** The row [CancelOrder] writes over [row] at time [t]. *)
Definition cancelledRow (t : Time) (row : Order) : Order :=
  updatedRow (Order.set_CancelledAt (Some t) (Order.set_Status OrderStatusCancelled row)) row.

(** The calls of a [CancelOrder] or a [SettleOrder] that writes. *)
Definition updateCalls : list Op :=
  [OpIdempotencyCheck; OpBegin; OpOrderGetByIDForUpdate; OpOrderUpdate; OpOutboxCreate;
   OpIdempotencyStoreInTransaction; OpCommit; OpRollback].

(** [CancelOrder] cancels: the row of the order is CANCELLED, cancelled now
    and at its next version; the database gains one event, of type
    "order.cancelled", and the record of the key, whose response is [null],
    and is otherwise as before. *)
Definition cancels (sha256_hex : RequestJSON → string) (w : World)
    (req : CancelOrderRequest.t) (row : Order) (w' : World) : Prop :=
  ∃ event record,
    service.CancelOrder sha256_hex w req = (None, w') ∧
    db w' = mkDatabase
              (<[CancelOrderRequest.OrderID req := cancelledRow (now w) row]>
                 (orders_table (db w)))
              (outbox_events (db w) ++ [event])
              (<[CancelOrderRequest.IdempotencyKey req := record]> (idempotency_keys (db w))) ∧
    Order.Status (cancelledRow (now w) row) = OrderStatusCancelled ∧
    Order.CancelledAt (cancelledRow (now w) row) = Some (now w) ∧
    Order.Version (cancelledRow (now w) row) = Order.Version row + 1 ∧
    OutboxEvent.EventType event = EventTypeOrderCancelled ∧
    OutboxEvent.AggregateID event = CancelOrderRequest.OrderID req ∧
    IdempotencyKey.response_data record = json_null ∧
    IdempotencyKey.expires_at record = now w + 24 * Hour ∧
    calls w' = calls w ++ updateCalls.

(** The order [b] is [a] read back from its row: they agree on every field
    but the time of placing, of which the database keeps what its column
    holds; decimals agree as numbers. *)
Definition read_back (a b : Order) : Prop :=
  Order.ID a = Order.ID b ∧ Order.UserID a = Order.UserID b ∧
  Order.MarketID a = Order.MarketID b ∧ Order.SelectionID a = Order.SelectionID b ∧
  Order.Side a = Order.Side b ∧
  decimal.Equal (Order.Price a) (Order.Price b) = true ∧
  decimal.Equal (Order.Size a) (Order.Size b) = true ∧
  decimal.Equal (Order.SizeMatched a) (Order.SizeMatched b) = true ∧
  decimal.Equal (Order.SizeRemaining a) (Order.SizeRemaining b) = true ∧
  Order.Status a = Order.Status b ∧ Order.ReservationID a = Order.ReservationID b ∧
  Order.SagaID a = Order.SagaID b ∧ Order.IdempotencyKey a = Order.IdempotencyKey b ∧
  Order.MatchedAt a = Order.MatchedAt b ∧ Order.CancelledAt a = Order.CancelledAt b ∧
  Order.Version a = Order.Version b.

(** The orders of the open transaction. *)
Definition txOrder (w : World) (id : UUID) : option Order :=
  tx w ≫= fun t => orders_table t !! id.

(** The answer of [Check], without the world. *)
Definition checkAnswer (w : World) (key requestHash : string)
    : option RawMessage * bool * option error :=
  fst (idempotencyRepo_Check w key requestHash).

(** The outbox of the open transaction. *)
Definition txOutbox (w : World) : option (list OutboxEvent) :=
  outbox_events <$> tx w.

(** The event is of [type], of an order, not processed, and out of
    retries. *)
Definition born (type : string) (ev : OutboxEvent) : Prop :=
  OutboxEvent.EventType ev = type ∧ OutboxEvent.AggregateType ev = "order"%string ∧
  OutboxEvent.IsProcessed ev = false ∧ OutboxEvent.CanRetry ev = false.

(** The outbox of [w'] is that of [w], or that of [w] and one event more,
    which is [born] of [type]. *)
Definition outbox_grows (type : string) (w w' : World) : Prop :=
  outbox_events (db w') = outbox_events (db w) ∨
  ∃ ev, outbox_events (db w') = outbox_events (db w) ++ [ev] ∧ born type ev.

(** ** Further worked inputs *)

(** A driver that fails the commit and nothing else. *)
Definition commitFails (op : Op) : bool := bool_decide (op = OpCommit).

Definition cancelAgain : CancelOrderRequest.t := CancelOrderRequest.mk 5 None "key-5".

(** A request that differs from [backRequest] in its amount only. *)
Definition otherRequest : PlaceOrderRequest.t :=
  PlaceOrderRequest.mk 43 "match-winner" "BACK" "team-a"
    (decimal.mkDecimal 11 0) (decimal.mkDecimal 2 0) None None "key-1".

Definition missingCancel : CancelOrderRequest.t := CancelOrderRequest.mk 8 None "key-7".

Definition missingSettle : SettleOrderRequest.t :=
  SettleOrderRequest.mk 8 "win" (decimal.mkDecimal 20 0) None "key-8".

(** A world with the transaction of [db.Begin] open. *)
Definition openWorld (row : Order) : World := snd (db_Begin (worldWith row)).

(** A world whose idempotency table holds a record that has expired, one
    that expires now and one that is live. *)
Definition agedWorld : World :=
  mkWorld (mkDatabase ∅ []
             (<["old"%string := IdempotencyKey.mk "h1" json_null 0 900]>
             (<["due"%string := IdempotencyKey.mk "h2" json_null 0 1000]>
             (<["new"%string := IdempotencyKey.mk "h3" json_null 0 5000]> ∅))))
          None 1000 6 (fun _ => false) [] true.

(** A repository that answers every event with the same three orders. *)
Definition threePending (eventID : string) : result (list Order) :=
  Ok [exampleOrder 1 OrderSideBack (decimal.mkDecimal 2 0) (decimal.mkDecimal 10 0);
      exampleOrder 2 OrderSideBack (decimal.mkDecimal 3 0) (decimal.mkDecimal 10 0);
      exampleOrder 3 OrderSideLay (decimal.mkDecimal 4 0) (decimal.mkDecimal 10 0)].

(** * Properties *)

(** ** Decimals *)
Section DecimalFacts.
Import decimal.

Lemma rescale_le d e :
  e <= exp d -> rescale d e = mkDecimal (value d * 10 ^ (exp d - e)) e.
Proof.
  intros He. unfold rescale.
  destruct (Z.eqb_spec (exp d) e) as [<- | Hne].
  - rewrite Z.sub_diag, Z.pow_0_r, Z.mul_1_r. by destruct d.
  - destruct (Z.ltb_spec (exp d) e); [lia | done].
Qed.

Lemma RescalePair_aligned d d2 :
  RescalePair d d2 =
  (mkDecimal (fst (aligned d d2)) (Z.min (exp d) (exp d2)),
   mkDecimal (snd (aligned d d2)) (Z.min (exp d) (exp d2))).
Proof.
  unfold RescalePair, aligned; simpl.
  destruct (Z.ltb_spec (exp d) (exp d2)).
  - rewrite Z.min_l by lia. rewrite rescale_le by lia.
    rewrite Z.sub_diag, Z.pow_0_r, Z.mul_1_r. by destruct d.
  - destruct (Z.ltb_spec (exp d2) (exp d)).
    + rewrite Z.min_r by lia. rewrite rescale_le by lia.
      rewrite Z.sub_diag, Z.pow_0_r, Z.mul_1_r. by destruct d2.
    + assert (exp d = exp d2) as Heq by lia.
      destruct d as [v e], d2 as [v2 e2]; simpl in *; subst e2.
      by rewrite Z.min_id, Z.sub_diag, Z.pow_0_r, !Z.mul_1_r.
Qed.

Lemma Cmp_aligned d d2 :
  Cmp d d2 = (fst (aligned d d2) ?= snd (aligned d d2)).
Proof.
  unfold Cmp. destruct (Z.eqb_spec (exp d) (exp d2)) as [Heq | Hne].
  - unfold aligned; simpl. rewrite Heq, Z.min_id, Z.sub_diag, Z.pow_0_r, !Z.mul_1_r. done.
  - rewrite RescalePair_aligned. done.
Qed.

Lemma ten_pow_Q (n : Z) : 0 <= n -> (inject_Z (10 ^ n) == (10 # 1) ^ n)%Q.
Proof. intros Hn. by rewrite Zpower_Qpower. Qed.

Lemma toQ_shift v e m :
  m <= e -> (toQ (mkDecimal v e) == inject_Z (v * 10 ^ (e - m)) * (10 # 1) ^ m)%Q.
Proof.
  intros Hm. unfold toQ; simpl.
  rewrite inject_Z_mult, ten_pow_Q by lia.
  rewrite <- Qmult_assoc, <- Qpower_plus by done.
  by replace (e - m + m) with e by lia.
Qed.

Lemma toQ_aligned d d2 :
  (toQ d == inject_Z (fst (aligned d d2)) * (10 # 1) ^ Z.min (exp d) (exp d2))%Q /\
  (toQ d2 == inject_Z (snd (aligned d d2)) * (10 # 1) ^ Z.min (exp d) (exp d2))%Q.
Proof.
  destruct d as [v e], d2 as [v2 e2]; unfold aligned; simpl.
  split; apply toQ_shift; lia.
Qed.

Lemma ten_pow_pos (m : Z) : (0 < (10 # 1) ^ m)%Q.
Proof. by apply Qpower_0_lt. Qed.

(** [Cmp] is the order of the rationals. *)
Lemma Cmp_toQ d d2 : Cmp d d2 = (toQ d ?= toQ d2)%Q.
Proof.
  rewrite Cmp_aligned.
  destruct (toQ_aligned d d2) as [H1 H2].
  rewrite H1, H2.
  set (x := fst (aligned d d2)). set (y := snd (aligned d d2)).
  set (c := ((10 # 1) ^ Z.min (exp d) (exp d2))%Q).
  assert (0 < c)%Q as Hc by apply ten_pow_pos.
  symmetry. destruct (Z.compare_spec x y) as [Heq | Hlt | Hgt].
  - apply Qeq_alt. by rewrite Heq.
  - apply Qlt_alt. apply Qmult_lt_r; [done |]. by rewrite <- Zlt_Qlt.
  - apply Qgt_alt. apply Qmult_lt_r; [done |]. by rewrite <- Zlt_Qlt.
Qed.

Lemma Mul_exact d d2 : (toQ (Mul d d2) == toQ d * toQ d2)%Q.
Proof.
  unfold toQ, Mul; simpl. rewrite inject_Z_mult, Qpower_plus by done. ring.
Qed.

Lemma Sub_exact d d2 : (toQ (Sub d d2) == toQ d - toQ d2)%Q.
Proof.
  unfold Sub. rewrite RescalePair_aligned.
  destruct (toQ_aligned d d2) as [-> ->].
  unfold toQ; simpl. rewrite <- Z.add_opp_r, inject_Z_plus, inject_Z_opp. ring.
Qed.

Lemma Add_exact d d2 : (toQ (Add d d2) == toQ d + toQ d2)%Q.
Proof.
  unfold Add. rewrite RescalePair_aligned.
  destruct (toQ_aligned d d2) as [-> ->].
  unfold toQ; simpl. rewrite inject_Z_plus. ring.
Qed.

Lemma NewFromInt_exact n : (toQ (NewFromInt n) == inject_Z n)%Q.
Proof. unfold toQ; simpl. ring. Qed.

Lemma IsZero_toQ d : IsZero d = true <-> (toQ d == 0)%Q.
Proof.
  unfold IsZero, toQ. rewrite Z.eqb_eq. split.
  - intros ->. ring.
  - intros H. apply Qmult_integral in H as [H | H].
    + apply (inject_Z_injective (value d) 0). exact H.
    + pose proof (ten_pow_pos (exp d)) as Hp. rewrite H in Hp. by apply Qlt_irrefl in Hp.
Qed.

(** [Min] is one of its arguments and exceeds neither. *)
Lemma Min_spec a b :
  (Min a b = a \/ Min a b = b) /\
  (toQ (Min a b) <= toQ a)%Q /\ (toQ (Min a b) <= toQ b)%Q.
Proof.
  unfold Min. rewrite Cmp_toQ.
  destruct (toQ b ?= toQ a)%Q eqn:Hc.
  - apply Qeq_alt in Hc. split; [by left |]. split; [apply Qle_refl |]. rewrite Hc. apply Qle_refl.
  - apply Qlt_alt in Hc. split; [by right |]. split; [by apply Qlt_le_weak | apply Qle_refl].
  - apply Qgt_alt in Hc. split; [by left |]. split; [apply Qle_refl | by apply Qlt_le_weak].
Qed.

Lemma trimTrailingZeros_spec n v e :
  let d := trimTrailingZeros n v e in
  e <= exp d /\ v = value d * 10 ^ (exp d - e).
Proof.
  revert v e. induction n as [| n IH]; intros v e; simpl.
  - split; [lia |]. rewrite Z.sub_diag. lia.
  - destruct (Z.eqb_spec (v mod 10) 0) as [H0 | Hn]; simpl.
    + destruct (IH (v / 10) (e + 1)) as [Hle Hv]. split; [lia |].
      replace (exp (trimTrailingZeros n (v / 10) (e + 1)) - e)
        with (Z.succ (exp (trimTrailingZeros n (v / 10) (e + 1)) - (e + 1))) by lia.
      rewrite Z.pow_succ_r by lia.
      rewrite (Z.div_mod v 10) at 1 by lia. rewrite H0, Z.add_0_r.
      rewrite Hv at 1. ring.
    + split; [lia |]. rewrite Z.sub_diag. lia.
Qed.

(** A decimal and its numeral are equal numbers. *)
Lemma String_Equal d : Equal (String d) d = true.
Proof.
  unfold Equal. rewrite Cmp_aligned. unfold aligned, String.
  destruct (Z.leb_spec 0 (exp d)) as [Hpos | Hneg].
  - rewrite rescale_le by done. simpl.
    rewrite Z.min_l by lia. rewrite !Z.sub_0_r, Z.pow_0_r, Z.mul_1_r.
    by rewrite Z.compare_refl.
  - pose proof (trimTrailingZeros_spec (Z.to_nat (- exp d)) (value d) (exp d)) as [Hle Hv].
    simpl in Hle, Hv. simpl.
    rewrite Z.min_r by lia. rewrite Z.sub_diag, Z.pow_0_r, Z.mul_1_r.
    by rewrite <- Hv, Z.compare_refl.
Qed.

Lemma Equal_toQ d d2 : Equal d d2 = true <-> (toQ d == toQ d2)%Q.
Proof.
  unfold Equal. rewrite Cmp_toQ, Qeq_alt. by destruct (toQ d ?= toQ d2)%Q.
Qed.
End DecimalFacts.

(** ** The book *)

Section EngineFacts.

Lemma sideOrders_set s s' m e :
  sideOrders s' (setSideOrders s m e) = if decide (s' = s) then m else sideOrders s' e.
Proof. by destruct s, s'. Qed.

Lemma sidePrices_setSideOrders s s' m e :
  sidePrices s' (setSideOrders s m e) = sidePrices s' e.
Proof. by destruct s, s'. Qed.

Lemma sidePrices_set s s' ps e :
  sidePrices s' (setSidePrices s ps e) = if decide (s' = s) then ps else sidePrices s' e.
Proof. by destruct s, s'. Qed.

Lemma sideOrders_setSidePrices s s' ps e :
  sideOrders s' (setSidePrices s ps e) = sideOrders s' e.
Proof. by destruct s, s'. Qed.

Lemma same_levels_refl e : same_levels e e.
Proof. by intros s. Qed.

Lemma same_levels_trans e1 e2 e3 :
  same_levels e1 e2 → same_levels e2 e3 → same_levels e1 e3.
Proof.
  intros H12 H23 s. destruct (H12 s) as [Hp Hk], (H23 s) as [Hp' Hk'].
  split; [congruence |]. intros k. by rewrite Hk', Hk.
Qed.

(** Writing a queue back under its key, with its price unchanged. *)
Lemma same_levels_write s k q q' e :
  sideOrders s e !! k = Some q → price q' = price q →
  same_levels e (setSideOrders s (<[k := q']> (sideOrders s e)) e).
Proof.
  intros Hq Hp s'. rewrite sidePrices_setSideOrders, sideOrders_set. split; [done |].
  intros k'. case_decide as Hs; [subst s' | done].
  destruct (decide (k = k')) as [<- | Hne].
  - by rewrite lookup_insert_eq, Hq; simpl; rewrite Hp.
  - by rewrite lookup_insert_ne.
Qed.

Lemma same_levels_indexed e e' : same_levels e e' → book_indexed e → book_indexed e'.
Proof.
  intros Hs Hi s p Hp. destruct (Hs s) as [Hps Hk]. rewrite Hps in Hp.
  destruct (Hi s p Hp) as (q & Hq & Hqp).
  specialize (Hk (decimal.String p)). rewrite Hq in Hk; simpl in Hk.
  destruct (sideOrders s e' !! decimal.String p) as [q' |]; [| done].
  exists q'. split; [done |]. simpl in Hk. congruence.
Qed.

Lemma same_levels_keeps e e' : same_levels e e' → keeps_levels e e'.
Proof.
  intros Hs s. destruct (Hs s) as [Hps Hk]. split.
  - intros p. by rewrite Hps.
  - intros k [q Hq]. specialize (Hk k). rewrite Hq in Hk.
    destruct (sideOrders s e' !! k); [eauto | done].
Qed.

Lemma keeps_levels_trans e1 e2 e3 :
  keeps_levels e1 e2 → keeps_levels e2 e3 → keeps_levels e1 e3.
Proof.
  intros H12 H23 s. destruct (H12 s), (H23 s). split; eauto.
Qed.

Lemma matchOrders_price e rt incoming queue matchPrice :
  price (snd (fst (matchOrders e rt incoming queue matchPrice))) = price queue.
Proof.
  unfold matchOrders.
  by destruct (matchLoop e rt incoming matchPrice [] (orders queue)) as [[? ?] ?].
Qed.

(** The walk over the price levels does not panic on a book whose walked
    prices have a queue, and leaves the prices and the keys of the book as
    they were. *)
Lemma matchLevels_same opp prices : ∀ rt e order,
  (∀ p, p ∈ prices → is_Some (sideOrders opp e !! decimal.String p)) →
  ∃ rt' e' ms, matchLevels opp rt e order prices = Some (rt', e', ms) ∧ same_levels e e'.
Proof.
  assert (∀ (rt : Runtime) (e : Engine), ∃ rt' e' (ms : list Match),
            Some (rt, e, []) = Some (rt', e', ms) ∧ same_levels e e') as Hstop
    by (intros rt e; eexists _, _, _; split; [done | apply same_levels_refl]).
  induction prices as [| p rest IH]; intros rt e order Hidx; simpl; [done |].
  - destruct (decimal.IsZero _); [done |].
    destruct (cannotMatch _ _ _); [done |].
    destruct (Hidx p) as [q Hq]; [by left |]. rewrite Hq.
    pose proof (matchOrders_price e rt order q p) as Hprice.
    destruct (matchOrders e rt order q p) as [[rt1 q1] ms1]; simpl in Hprice.
    pose proof (same_levels_write opp _ q q1 e Hq Hprice) as Hsame.
    set (e1 := setSideOrders opp _ e) in *.
    destruct (IH rt1 e1 order) as (rt2 & e2 & ms2 & Hrun & Hsame2).
    { intros p' Hp'. destruct (Hidx p') as [q' Hq']; [by right |].
      destruct (Hsame opp) as [_ Hk]. specialize (Hk (decimal.String p')).
      rewrite Hq' in Hk. destruct (sideOrders opp e1 !! decimal.String p'); [eauto | done]. }
    rewrite Hrun. eexists _, _, _. split; [done |]. eauto using same_levels_trans.
Qed.

Lemma elem_of_insertPrice s prices p p' :
  p' ∈ insertPrice s prices p ↔ p' = p ∨ p' ∈ prices.
Proof.
  destruct s; simpl; induction prices as [| x xs IH]; simpl;
    rewrite ?elem_of_cons, ?elem_of_nil; [tauto | | tauto |].
  - destruct (decimal.GreaterThan x p); rewrite !elem_of_cons, ?IH; tauto.
  - destruct (decimal.LessThan x p); rewrite !elem_of_cons, ?IH; tauto.
Qed.

Lemma addOrder_spec s rt e order :
  let '(rt', e') := addOrder s rt e order in
  book_indexed e → book_indexed e' ∧ keeps_levels e e'.
Proof.
  unfold addOrder.
  set (op := Order.Price (load rt order)). set (k := decimal.String op).
  destruct (sideOrders s e !! k) as [q |] eqn:Hq.
  - intros Hi.
    assert (same_levels e (setSideOrders s (<[k := mkOrderQueue (price q) (orders q ++ [order])]> (sideOrders s e)) e)) as Hs
      by by apply (same_levels_write s k q).
    eauto using same_levels_indexed, same_levels_keeps.
  - intros Hi.
    rewrite !sideOrders_setSidePrices, !sideOrders_set. rewrite decide_True by done. simpl.
    rewrite insert_insert_eq.
    split.
    + intros s' p Hp.
      rewrite sidePrices_setSideOrders, sidePrices_set in Hp.
      rewrite sideOrders_set, sideOrders_setSidePrices, sideOrders_set.
      case_decide as Hs; [subst s' |].
      * apply elem_of_insertPrice in Hp. rewrite sidePrices_setSideOrders in Hp.
        destruct (decide (decimal.String p = k)) as [Hk | Hk].
        -- rewrite Hk, lookup_insert_eq. destruct Hp as [-> | Hp]; [eauto |].
           destruct (Hi s p Hp) as (q & Hq' & _). congruence.
        -- rewrite lookup_insert_ne by done. destruct Hp as [-> | Hp]; [done |].
           by apply Hi.
      * rewrite sidePrices_setSideOrders in Hp. by apply Hi.
    + intros s'. rewrite sidePrices_setSideOrders, sidePrices_set, sideOrders_set,
        sideOrders_setSidePrices, sideOrders_set, !sidePrices_setSideOrders.
      case_decide as Hs; [subst s' | done]. split.
      * intros p Hp. apply elem_of_insertPrice. by right.
      * intros k' Hk'. destruct (decide (k = k')) as [<- | Hne].
        -- rewrite lookup_insert_eq. eauto.
        -- by rewrite lookup_insert_ne.
Qed.

Lemma placeOrder_indexed own rt e order :
  book_indexed e →
  ∃ rt' e' ms, placeOrder own rt e order = Some (rt', e', ms) ∧
               book_indexed e' ∧ keeps_levels e e'.
Proof.
  intros Hi. unfold placeOrder.
  destruct (matchLevels_same (opposite own) (sidePrices (opposite own) e) rt e order)
    as (rt1 & e1 & ms & Hrun & Hsame).
  { intros p Hp. destruct (Hi _ p Hp) as (q & Hq & _). eauto. }
  rewrite Hrun.
  destruct (negb _).
  - pose proof (addOrder_spec own rt1 e1 order) as Hadd.
    destruct (addOrder own rt1 e1 order) as [rt2 e2].
    destruct Hadd as [Hi2 Hk2]; [eauto using same_levels_indexed |].
    eexists _, _, _. split; [done |]. split; [done |].
    eauto using keeps_levels_trans, same_levels_keeps.
  - eexists _, _, _. split; [done |].
    eauto using same_levels_indexed, same_levels_keeps.
Qed.

Lemma cancelIn_same s rt e orderID keys rt' e' :
  cancelIn s rt e orderID keys = Some (rt', e') → same_levels e e'.
Proof.
  induction keys as [| k rest IH]; simpl; [done |].
  destruct (sideOrders s e !! k) as [q |] eqn:Hq; [| done].
  destruct (findOrder rt orderID (orders q)) as [i |]; [| done].
  intros [= <- <-]. by apply (same_levels_write s k q).
Qed.

Lemma CancelOrderIn_same backKeys layKeys rt e orderID rt' e' :
  CancelOrderIn backKeys layKeys rt e orderID = Some (rt', e') → same_levels e e'.
Proof.
  unfold CancelOrderIn.
  destruct (cancelIn BackSide rt e orderID backKeys) as [[rt1 e1] |] eqn:Hb.
  - intros [= <- <-]. eauto using cancelIn_same.
  - eauto using cancelIn_same.
Qed.


Lemma load_store rt p o : load (store rt p o) p = o.
Proof. unfold load, store; simpl. by rewrite lookup_insert_eq. Qed.

Lemma load_store_ne rt p p' o : p ≠ p' → load (store rt p o) p' = load rt p'.
Proof. intros Hne. unfold load, store; simpl. by rewrite lookup_insert_ne. Qed.

Lemma load_assign rt p f : load (assign rt p f) p = f (load rt p).
Proof. apply load_store. Qed.

Lemma load_assign_ne rt p p' f : p ≠ p' → load (assign rt p f) p' = load rt p'.
Proof. apply load_store_ne. Qed.

(** What [pairOrders] writes into the match. *)
Lemma pairOrders_match e rt incoming existing matchPrice :
  let m := snd (pairOrders e rt incoming existing matchPrice) in
  let matchSize := decimal.Min (Order.SizeRemaining (load rt incoming))
                               (Order.SizeRemaining (load rt existing)) in
  Match.Price m = matchPrice ∧ Match.Size m = matchSize ∧
  Match.BackLiability m = matchSize ∧
  Match.LayLiability m =
    decimal.Mul matchSize (decimal.Sub matchPrice (decimal.NewFromInt 1)).
Proof.
  unfold pairOrders, newMatch; simpl.
  by destruct (String.eqb _ _).
Qed.

Lemma iteration_match e rt incoming existing matchPrice :
  snd (fst (iteration e rt incoming existing matchPrice)) =
  snd (pairOrders e rt incoming existing matchPrice).
Proof.
  unfold iteration. destruct (pairOrders _ _ _ _ _) as [rt1 m]; simpl.
  by destruct (decimal.IsZero _).
Qed.

Lemma matchLoop_pairings e incoming matchPrice todo : ∀ rt kept,
  Forall2 (fun x m => m = snd (pairOrders e (fst x) incoming (snd x) matchPrice) ∧
                      snd x ∈ todo)
          (loopPairings e rt incoming matchPrice todo)
          (snd (matchLoop e rt incoming matchPrice kept todo)).
Proof.
  induction todo as [| existing rest IH]; intros rt kept; simpl; [constructor |].
  destruct (decimal.IsZero _); [constructor |].
  pose proof (iteration_match e rt incoming existing matchPrice) as Hm.
  destruct (iteration e rt incoming existing matchPrice) as [[rt1 m] filled]; simpl in *.
  specialize (IH rt1 (if filled then kept else kept ++ [existing])).
  destruct (matchLoop e rt1 incoming matchPrice _ rest) as [[rt2 os] ms]; simpl in *.
  constructor.
  - split; [done | by left].
  - eapply Forall2_impl; [exact IH |]. intros x m' [? ?]. split; [done | by right].
Qed.

Lemma pairing_paired opp order e p q (x : Runtime * loc) m :
  sideOrders opp e !! decimal.String p = Some q → price q = p →
  m = snd (pairOrders e (fst x) order (snd x) p) → snd x ∈ orders q →
  paired opp order (mkPairing (fst x) e p (snd x)) m.
Proof.
  intros Hq Hp -> Hin.
  destruct (pairOrders_match e (fst x) order (snd x) p) as (HP & HS & HB & HL).
  unfold paired; cbn [before book levelPrice resting]. rewrite HP, HS, HB, HL.
  destruct (Min_spec (Order.SizeRemaining (load (fst x) order))
              (Order.SizeRemaining (load (fst x) (snd x)))) as (_ & Hle1 & Hle2).
  repeat split; try done.
  - eauto.
  - rewrite Mul_exact, Sub_exact, NewFromInt_exact. reflexivity.
Qed.

Lemma matchLevels_paired opp order prices : ∀ rt e,
  (∀ p, p ∈ prices → ∃ q, sideOrders opp e !! decimal.String p = Some q ∧ price q = p) →
  ∃ rt' e' ms, matchLevels opp rt e order prices = Some (rt', e', ms) ∧
               Forall2 (paired opp order) (levelPairings opp rt e order prices) ms.
Proof.
  assert (∀ (rt : Runtime) (e : Engine), ∃ rt' e' (ms : list Match),
            Some (rt, e, []) = Some (rt', e', ms) ∧ Forall2 (paired opp order) [] ms) as Hstop
    by (intros rt e; eexists _, _, _; split; [done | constructor]).
  induction prices as [| p rest IH]; intros rt e Hidx; simpl; [done |].
  destruct (decimal.IsZero _); [done |].
  destruct (cannotMatch _ _ _); [done |].
  destruct (Hidx p) as (q & Hq & Hqp); [by left |]. rewrite Hq.
  pose proof (matchOrders_price e rt order q p) as Hprice.
  pose proof (matchLoop_pairings e order p (orders q) rt []) as Hhere.
  unfold matchOrders in *.
  destruct (matchLoop e rt order p [] (orders q)) as [[rt1 os1] ms1]; simpl in *.
  pose proof (same_levels_write opp _ q (mkOrderQueue (price q) os1) e Hq eq_refl) as Hsame.
  set (e1 := setSideOrders opp _ e) in *.
  destruct (IH rt1 e1) as (rt2 & e2 & ms2 & Hrun & Hrest).
  { intros p' Hp'. destruct (Hidx p') as (q' & Hq' & Hqp'); [by right |].
    destruct (Hsame opp) as [_ Hk]. specialize (Hk (decimal.String p')).
    rewrite Hq' in Hk. destruct (sideOrders opp e1 !! decimal.String p') as [q1 |]; [| done].
    exists q1. split; [done |]. simpl in Hk. congruence. }
  rewrite Hrun. eexists _, _, _. split; [done |].
  apply Forall2_app; [| done].
  apply Forall2_fmap_l. eapply Forall2_impl; [exact Hhere |].
  intros x m [Hm Hin]. by eapply pairing_paired.
Qed.

Lemma placeOrder_paired own rt e order :
  book_indexed e →
  ∃ rt' e' ms, placeOrder own rt e order = Some (rt', e', ms) ∧
    Forall2 (paired (opposite own) order)
            (levelPairings (opposite own) rt e order (sidePrices (opposite own) e)) ms.
Proof.
  intros Hi. unfold placeOrder.
  destruct (matchLevels_paired (opposite own) order (sidePrices (opposite own) e) rt e)
    as (rt1 & e1 & ms & Hrun & Hall); [by apply Hi |].
  rewrite Hrun. destruct (negb _).
  - destruct (addOrder own rt1 e1 order) as [rt2 e2]. by eexists _, _, _.
  - by eexists _, _, _.
Qed.


(** The order placed with a remainder rests at the tail of its level, and
    its status is PARTIALLY whether or not it was matched. *)
Lemma placeOrder_residual own rt e order rt' e' ms :
  placeOrder own rt e order = Some (rt', e', ms) →
  decimal.IsZero (Order.SizeRemaining (load rt' order)) = false →
  Order.Status (load rt' order) = OrderStatusPartially ∧
  ∃ q, sideOrders own e' !! decimal.String (Order.Price (load rt' order)) = Some q ∧
       last (orders q) = Some order.
Proof.
  unfold placeOrder.
  destruct (matchLevels _ _ _ _ _) as [[[rt1 e1] ms1] |]; [| done].
  destruct (decimal.IsZero (Order.SizeRemaining (load rt1 order))) eqn:Hz; simpl.
  - intros [= <- <- <-]. rewrite !load_assign. simpl. congruence.
  - unfold addOrder.
    destruct (sideOrders own e1 !! _) as [q |] eqn:Hq;
      intros [= <- <- <-] _; rewrite !load_assign; simpl; (split; [done |]).
    + rewrite sideOrders_set, decide_True, lookup_insert_eq by done.
      eexists. split; [done |]. simpl. by rewrite last_snoc.
    + rewrite sideOrders_set, decide_True, lookup_insert_eq by done.
      eexists. split; [done |]. simpl. done.
Qed.

Lemma LessThan_toQ a b : decimal.LessThan a b = true ↔ (decimal.toQ a < decimal.toQ b)%Q.
Proof.
  unfold decimal.LessThan. rewrite Cmp_toQ, Qlt_alt.
  by destruct (decimal.toQ a ?= decimal.toQ b)%Q.
Qed.

Lemma GreaterThan_toQ a b : decimal.GreaterThan a b = true ↔ (decimal.toQ b < decimal.toQ a)%Q.
Proof.
  unfold decimal.GreaterThan. rewrite Cmp_toQ. rewrite (Qgt_alt (decimal.toQ a) (decimal.toQ b)).
  by destruct (decimal.toQ a ?= decimal.toQ b)%Q.
Qed.

Lemma LessThanOrEqual_toQ a b :
  decimal.LessThanOrEqual a b = true ↔ (decimal.toQ a <= decimal.toQ b)%Q.
Proof.
  unfold decimal.LessThanOrEqual. rewrite Cmp_toQ, Qle_alt.
  by destruct (decimal.toQ a ?= decimal.toQ b)%Q.
Qed.

(** A level that may be matched makes every level walked before it one that
    may be matched. *)
Lemma cannotMatch_earlier opp orderPrice p0 p :
  priority opp p0 p →
  cannotMatch opp orderPrice p = false → cannotMatch opp orderPrice p0 = false.
Proof.
  destruct opp; simpl; rewrite LessThanOrEqual_toQ; intros Hle Hp;
    apply not_true_is_false; intros H0; apply not_true_iff_false in Hp; apply Hp.
  - apply GreaterThan_toQ in H0. apply GreaterThan_toQ. eapply Qle_lt_trans; eauto.
  - apply LessThan_toQ in H0. apply LessThan_toQ. eapply Qlt_le_trans; eauto.
Qed.

Lemma matchLoop_some e rt incoming matchPrice kept todo :
  decimal.IsZero (Order.SizeRemaining (load rt incoming)) = false → todo ≠ [] →
  snd (matchLoop e rt incoming matchPrice kept todo) ≠ [].
Proof.
  intros Hz Hne. destruct todo as [| existing rest]; [done |]. simpl. rewrite Hz.
  destruct (iteration _ _ _ _ _) as [[rt1 m] filled].
  by destruct (matchLoop _ _ _ _ _ _) as [[? ?] ?].
Qed.

Lemma setSideOrders_id s e : setSideOrders s (sideOrders s e) e = e.
Proof. by destruct s, e. Qed.

Lemma matchLevels_crossing opp order p q prices : ∀ rt e,
  (∀ p', p' ∈ prices → is_Some (sideOrders opp e !! decimal.String p')) →
  StronglySorted (priority opp) prices →
  p ∈ prices → sideOrders opp e !! decimal.String p = Some q → orders q ≠ [] →
  cannotMatch opp (Order.Price (load rt order)) p = false →
  decimal.IsZero (Order.SizeRemaining (load rt order)) = false →
  ∃ rt' e' ms, matchLevels opp rt e order prices = Some (rt', e', ms) ∧ ms ≠ [].
Proof.
  induction prices as [| p0 rest IH]; intros rt e Hidx Hsorted Hin Hq Hne Hcross Hz.
  { by apply elem_of_nil in Hin. }
  apply StronglySorted_inv in Hsorted as [Hsorted Hall].
  simpl. rewrite Hz.
  assert (cannotMatch opp (Order.Price (load rt order)) p0 = false) as ->.
  { apply elem_of_cons in Hin as [<- | Hin]; [done |].
    apply (cannotMatch_earlier opp _ p0 p); [| done].
    rewrite Forall_forall in Hall. by apply Hall. }
  destruct (Hidx p0) as [q0 Hq0]; [by left |]. rewrite Hq0.
  destruct (decide (orders q0 = [])) as [Hempty | Hsome].
  - unfold matchOrders. rewrite Hempty. simpl.
    assert (mkOrderQueue (price q0) [] = q0) as -> by (destruct q0; simpl in *; by subst).
    rewrite insert_id, setSideOrders_id by done.
    apply elem_of_cons in Hin as [-> | Hin]; [congruence |].
    destruct (IH rt e) as (rt' & e' & ms & Hrun & Hms); try done.
    { intros p' Hp'. apply Hidx. by right. }
    rewrite Hrun. by eexists _, _, _.
  - pose proof (matchLoop_some e rt order p0 [] (orders q0) Hz Hsome) as Hms.
    pose proof (matchOrders_price e rt order q0 p0) as Hprice.
    unfold matchOrders in *.
    destruct (matchLoop e rt order p0 [] (orders q0)) as [[rt1 os1] ms1]; simpl in *.
    pose proof (same_levels_write opp _ q0 (mkOrderQueue (price q0) os1) e Hq0 eq_refl) as Hsame.
    set (e1 := setSideOrders opp _ e) in *.
    destruct (matchLevels_same opp rest rt1 e1 order) as (rt2 & e2 & ms2 & Hrun & _).
    { intros p' Hp'. destruct (Hidx p') as [q' Hq']; [by right |].
      destruct (Hsame opp) as [_ Hk]. specialize (Hk (decimal.String p')).
      rewrite Hq' in Hk. destruct (sideOrders opp e1 !! decimal.String p'); [eauto | done]. }
    rewrite Hrun. eexists _, _, _. split; [done |]. by destruct ms1.
Qed.

(** An order of non-zero size that may be matched at a level where an order
    rests is matched at least once. *)
Lemma PlaceOrder_crossing rt e order p q existing :
  let opp := opposite (ownSide rt order) in
  book_indexed e → prices_sorted opp e →
  p ∈ sidePrices opp e → sideOrders opp e !! decimal.String p = Some q →
  existing ∈ orders q →
  cannotMatch opp (Order.Price (load rt order)) p = false →
  decimal.IsZero (Order.SizeRemaining (load rt order)) = false →
  ∃ rt' e' ms, PlaceOrder rt e order = Some (rt', e', ms) ∧ ms ≠ [].
Proof.
  intros opp Hi Hsorted Hin Hq Hex Hcross Hz.
  destruct (matchLevels_crossing opp order p q (sidePrices opp e) rt e)
    as (rt1 & e1 & ms & Hrun & Hms); try done.
  { intros p' Hp'. destruct (Hi opp p' Hp') as (q' & Hq' & _). eauto. }
  { intros Hnil. rewrite Hnil in Hex. by apply elem_of_nil in Hex. }
  unfold PlaceOrder, placeBackOrder, placeLayOrder, placeOrder.
  subst opp. unfold ownSide in *.
  destruct (String.eqb _ _); rewrite Hrun; destruct (negb _);
    try destruct (addOrder _ _ _ _) as [rt2 e2]; by eexists _, _, _.
Qed.

Lemma book_indexed_NewEngine m s : book_indexed (NewEngine m s).
Proof. intros side p Hp. destruct side; by apply elem_of_nil in Hp. Qed.



Lemma priority_trans s a b c : priority s a b → priority s b c → priority s a c.
Proof.
  destruct s; simpl; rewrite !LessThanOrEqual_toQ; intros; eapply Qle_trans; eauto.
Qed.

(** The two tests of the insertion loops, as priorities. *)
Lemma insertPrice_test s x p :
  (match s with
   | BackSide => decimal.GreaterThan x p
   | LaySide => decimal.LessThan x p
   end = true → priority s x p) ∧
  (match s with
   | BackSide => decimal.GreaterThan x p
   | LaySide => decimal.LessThan x p
   end = false → priority s p x).
Proof.
  destruct s; simpl; rewrite !LessThanOrEqual_toQ.
  - split.
    + rewrite GreaterThan_toQ. apply Qlt_le_weak.
    + intros H. apply Qnot_lt_le. rewrite <- GreaterThan_toQ. by rewrite H.
  - split.
    + rewrite LessThan_toQ. apply Qlt_le_weak.
    + intros H. apply Qnot_lt_le. rewrite <- LessThan_toQ. by rewrite H.
Qed.

Lemma insertPrice_sorted s prices p :
  StronglySorted (priority s) prices → StronglySorted (priority s) (insertPrice s prices p).
Proof.
  intros Hs. induction Hs as [| x xs Hs IH Hall].
  - destruct s; repeat constructor.
  - pose proof (insertPrice_test s x p) as [Hyes Hno].
    assert (insertPrice s (x :: xs) p =
            if match s with
               | BackSide => decimal.GreaterThan x p
               | LaySide => decimal.LessThan x p
               end
            then x :: insertPrice s xs p else p :: x :: xs) as -> by by destruct s.
    destruct (match s with BackSide => _ | LaySide => _ end).
    + constructor; [done |]. apply Forall_forall. intros y Hy.
      apply elem_of_insertPrice in Hy as [-> | Hy]; [by apply Hyes |].
      rewrite Forall_forall in Hall. by apply Hall.
    + constructor; [by constructor |]. constructor; [by apply Hno |].
      eapply Forall_impl; [exact Hall |]. intros y Hy. simpl in Hy.
      eapply priority_trans; [by apply Hno | done].
Qed.

Lemma same_levels_sorted e e' : same_levels e e' → book_sorted e → book_sorted e'.
Proof. intros Hs Hsorted s. unfold prices_sorted. destruct (Hs s) as [-> _]. apply Hsorted. Qed.

Lemma addOrder_sorted s rt e order :
  book_sorted e → book_sorted (snd (addOrder s rt e order)).
Proof.
  intros Hsorted s'. unfold addOrder, prices_sorted.
  destruct (sideOrders s e !! _) as [q |]; simpl.
  - rewrite sidePrices_setSideOrders. apply Hsorted.
  - rewrite sidePrices_setSideOrders, sidePrices_set.
    case_decide as Hs; [subst s' |].
    + rewrite sidePrices_setSideOrders. apply insertPrice_sorted, Hsorted.
    + rewrite sidePrices_setSideOrders. apply Hsorted.
Qed.

Lemma placeOrder_sorted own rt e order rt' e' ms :
  placeOrder own rt e order = Some (rt', e', ms) →
  book_indexed e → book_sorted e → book_sorted e'.
Proof.
  intros Hrun Hi Hsorted. unfold placeOrder in Hrun.
  destruct (matchLevels_same (opposite own) (sidePrices (opposite own) e) rt e order)
    as (rt1 & e1 & ms1 & Hwalk & Hsame).
  { intros p Hp. destruct (Hi _ p Hp) as (q & Hq & _). eauto. }
  rewrite Hwalk in Hrun. apply same_levels_sorted in Hsame; [| done].
  destruct (negb _).
  - pose proof (addOrder_sorted own rt1 e1 order Hsame) as Hadd.
    destruct (addOrder own rt1 e1 order) as [rt2 e2]. by injection Hrun as <- <- <-.
  - by injection Hrun as <- <- <-.
Qed.

Lemma PlaceOrder_sorted rt e order rt' e' ms :
  PlaceOrder rt e order = Some (rt', e', ms) →
  book_indexed e → book_sorted e → book_sorted e'.
Proof.
  unfold PlaceOrder. destruct (String.eqb _ _); apply placeOrder_sorted.
Qed.

Lemma book_sorted_NewEngine m s : book_sorted (NewEngine m s).
Proof. intros []; constructor. Qed.

Lemma PlaceOrder_indexed rt e order rt' e' ms :
  PlaceOrder rt e order = Some (rt', e', ms) → book_indexed e → book_indexed e'.
Proof.
  intros Hrun Hi.
  assert (∃ own, placeOrder own rt e order = Some (rt', e', ms)) as [own Hown]
    by (unfold PlaceOrder in Hrun; destruct (String.eqb _ _); eauto).
  destruct (placeOrder_indexed own rt e order Hi) as (rt1 & e1 & ms1 & Hrun' & Hi' & _).
  rewrite Hown in Hrun'. by injection Hrun' as <- <- <-.
Qed.

(** Every book there is has its levels indexed and its prices sorted. *)
Lemma Reachable_book e : Reachable e → book_indexed e ∧ book_sorted e.
Proof.
  induction 1 as [m s | rt e order rt' e' ms _ [Hi Hs] Hrun
                 | backKeys layKeys rt e orderID rt' e' _ [Hi Hs] Hrun].
  - split; [apply book_indexed_NewEngine | apply book_sorted_NewEngine].
  - split; [by eapply PlaceOrder_indexed | by eapply PlaceOrder_sorted].
  - apply CancelOrderIn_same in Hrun.
    split; [by eapply same_levels_indexed | by eapply same_levels_sorted].
Qed.

End EngineFacts.

(** ** The repositories and the service *)

Section ServiceFacts.
Variable sha256_hex : RequestJSON -> string.




Lemma Check_miss w key requestHash :
  faults w OpIdempotencyCheck = false → liveRecord w key = None →
  idempotencyRepo_Check w key requestHash = (None, false, None, call OpIdempotencyCheck w).
Proof.
  intros Hf Hlive. unfold idempotencyRepo_Check, liveRecord in *. simpl. rewrite Hf.
  destruct (idempotency_keys (db w) !! key) as [row |]; [| done].
  by destruct (now w <? IdempotencyKey.expires_at row).
Qed.



(** [Create] leaves an order as the service built it. *)
Lemma initOrder_id w o :
  Order.ID o ≠ uuid_Nil → Order.PlacedAt o = now w → Order.Version o = 1 →
  Order.SizeMatched o = decimal.Zero → Order.SizeRemaining o = Order.Size o →
  Order.Status o = OrderStatusPending →
  initOrder w o = (o, w).
Proof.
  destruct o as [id ? ? ? ? ? size sm sr st ? ? ? pl ? ? v]; simpl.
  intros Hid -> -> -> -> ->. unfold initOrder. simpl.
  apply N.eqb_neq in Hid. rewrite Hid. simpl.
  destruct (Z.eqb (now w) 0); simpl;
    destruct (decimal.IsZero size) eqn:Hz; cbn; rewrite ?Hz; reflexivity.
Qed.

Lemma PlaceOrder_persists w req :
  service.validate_PlaceOrderRequest req = true →
  liveRecord w (PlaceOrderRequest.IdempotencyKey req) = None →
  no_faults w →
  orders_table (db w) !! (rand w + 1)%N = None →
  keyTaken (uniqueKey w) (db w) (PlaceOrderRequest.IdempotencyKey req) = false →
  (rand w + 1 + 1)%N ∉ eventIDs (db w) →
  ∃ event row w',
    service.PlaceOrder sha256_hex w req = (Ok (placedOrder w req), w') ∧
    db w' = mkDatabase
              (<[(rand w + 1)%N := insertedRow (placedOrder w req)]> (orders_table (db w)))
              (outbox_events (db w) ++ [event])
              (<[PlaceOrderRequest.IdempotencyKey req := row]> (idempotency_keys (db w))) ∧
    OutboxEvent.EventType event = EventTypeOrderPlaced ∧
    OutboxEvent.AggregateID event = (rand w + 1)%N ∧
    IdempotencyKey.request_hash row =
      service.ComputeRequestHash sha256_hex (json_MarshalPlace req) ∧
    IdempotencyKey.response_data row = json_Order (numerals (placedOrder w req)) ∧
    IdempotencyKey.expires_at row = now w + 24 * Hour ∧
    tx w' = None ∧ now w' = now w ∧ faults w' = faults w ∧
    calls w' = calls w ++ [OpIdempotencyCheck; OpBegin; OpOrderCreate; OpOutboxCreate;
                           OpIdempotencyStoreInTransaction; OpCommit; OpRollback].
Proof.
  intros Hvalid Hlive Hnf Hfresh Hkey Hfresh'.
  unfold service.PlaceOrder. rewrite Hvalid. simpl.
  rewrite Check_miss by done.
  destruct w as [d t n r f c u]. unfold no_faults in Hnf. simpl in *.
  unfold db_Begin. simpl. rewrite Hnf.
  unfold service.placeOrderInTx, orderRepo_Create, tx_Exec. simpl.
  rewrite initOrder_id by (simpl; first [done | unfold uuid_Nil; lia]). simpl.
  rewrite Hnf, Hfresh, Hkey. simpl.
  unfold outboxRepo_Create, tx_Exec. simpl. rewrite Hnf.
  rewrite bool_decide_eq_false_2 by done. simpl.
  unfold idempotencyRepo_StoreInTransaction, tx_Exec. simpl. rewrite Hnf. simpl.
  unfold tx_Commit. simpl. rewrite Hnf. simpl.
  eexists _, _, _. split; [reflexivity |]. simpl.
  repeat split; try reflexivity.
  by rewrite <- !app_assoc.
Qed.


Lemma SettleOrder_applies w req row :
  service.validate_SettleOrderRequest req = true →
  liveRecord w (SettleOrderRequest.IdempotencyKey req) = None →
  no_faults w →
  orders_table (db w) !! SettleOrderRequest.OrderID req = Some row →
  Order.ID row = SettleOrderRequest.OrderID req →
  (rand w + 1)%N ∉ eventIDs (db w) →
  ∃ w' row',
    service.SettleOrder sha256_hex w req = (None, w') ∧
    orders_table (db w') !! SettleOrderRequest.OrderID req = Some row' ∧
    Order.Status row' = settledStatus (SettleOrderRequest.Result req) ∧
    Order.Version row' = Order.Version row + 1.
Proof.
  intros Hvalid Hlive Hnf Hrow Hid Hfresh.
  unfold service.SettleOrder. rewrite Hvalid. simpl.
  rewrite Check_miss by done.
  destruct w as [d t n r f c u]. unfold no_faults in Hnf. simpl in *.
  unfold db_Begin. simpl. rewrite Hnf.
  unfold service.settleOrderInTx, orderRepo_GetByIDForUpdate. simpl. rewrite Hnf, Hrow.
  unfold orderRepo_Update. simpl. rewrite Hnf, Hid, Hrow, Z.eqb_refl. simpl.
  unfold outboxRepo_Create, tx_Exec. simpl. rewrite Hnf.
  rewrite bool_decide_eq_false_2 by done. simpl.
  unfold idempotencyRepo_StoreInTransaction, tx_Exec. simpl. rewrite Hnf. simpl.
  unfold tx_Commit. simpl. rewrite Hnf. simpl.
  eexists _, _. split; [reflexivity |]. simpl.
  rewrite lookup_insert_eq. split; [reflexivity |]. done.
Qed.

Lemma SettleOrder_push w req :
  SettleOrderRequest.Result req = "push" →
  service.SettleOrder sha256_hex w req = (Some (Wrapf "validation failed" ErrValidation), w).
Proof.
  intros Hpush. unfold service.SettleOrder, service.validate_SettleOrderRequest.
  rewrite Hpush. simpl. by rewrite andb_false_r.
Qed.

Lemma CancelOrder_rejects w req row :
  service.validate_CancelOrderRequest req = true →
  liveRecord w (CancelOrderRequest.IdempotencyKey req) = None →
  no_faults w →
  orders_table (db w) !! CancelOrderRequest.OrderID req = Some row →
  Order.Status row ≠ OrderStatusPending → Order.Status row ≠ OrderStatusPartially →
  ∃ w',
    service.CancelOrder sha256_hex w req =
      (Some (Errorf ("order cannot be cancelled: status=" ++ Order.Status row)), w') ∧
    db w' = db w ∧ tx w' = None ∧
    calls w' = calls w ++ [OpIdempotencyCheck; OpBegin; OpOrderGetByIDForUpdate; OpRollback].
Proof.
  intros Hvalid Hlive Hnf Hrow Hpending Hpartially.
  unfold service.CancelOrder. rewrite Hvalid. simpl.
  rewrite Check_miss by done.
  destruct w as [d t n r f c u]. unfold no_faults in Hnf. simpl in *.
  unfold db_Begin. simpl. rewrite Hnf.
  unfold service.cancelOrderInTx, orderRepo_GetByIDForUpdate. simpl. rewrite Hnf, Hrow.
  apply String.eqb_neq in Hpending, Hpartially. rewrite Hpending, Hpartially. simpl.
  eexists. split; [reflexivity |]. simpl. by rewrite <- !app_assoc.
Qed.


Lemma Equal_refl d : decimal.Equal d d = true.
Proof.
  unfold decimal.Equal, decimal.Cmp. rewrite Z.eqb_refl. by rewrite Z.compare_refl.
Qed.

Lemma Equal_sym d d2 : decimal.Equal d d2 = true → decimal.Equal d2 d = true.
Proof. rewrite !Equal_toQ. intros H. by symmetry. Qed.

Lemma same_order_refl o : same_order o o.
Proof. unfold same_order. by rewrite !Equal_refl. Qed.

Lemma same_order_numerals o : same_order o (numerals o).
Proof.
  unfold same_order, numerals. simpl.
  repeat split; try done; apply Equal_sym, String_Equal.
Qed.

Lemma placeOrderInTx_recorded w req requestHash order w1 :
  service.placeOrderInTx w req requestHash = (Ok order, w1) →
  ∃ row,
    idempotency_keys (db w1) !! PlaceOrderRequest.IdempotencyKey req = Some row ∧
    IdempotencyKey.request_hash row = requestHash ∧
    IdempotencyKey.response_data row = json_Order (numerals order).
Proof.
  destruct w as [d t n r f c u].
  unfold service.placeOrderInTx, orderRepo_Create, tx_Exec. simpl.
  rewrite initOrder_id by (simpl; first [done | unfold uuid_Nil; lia]). simpl.
  destruct t as [t |]; [| done].
  destruct (f OpOrderCreate); [done |].
  destruct (orders_table t !! (r + 1)%N); [done |].
  destruct (keyTaken _ _ _); [done |]. simpl.
  unfold outboxRepo_Create, tx_Exec. simpl.
  destruct (f OpOutboxCreate); [done |].
  destruct (bool_decide _); [done |]. simpl.
  unfold idempotencyRepo_StoreInTransaction, tx_Exec. simpl.
  destruct (f OpIdempotencyStoreInTransaction); [done |]. simpl.
  unfold tx_Commit. simpl.
  destruct (f OpCommit); [done |]. simpl.
  intros [= <- <-]. simpl. rewrite lookup_insert_eq. eauto.
Qed.

(** After a successful [PlaceOrder] the table holds a record of the key,
    for the hash of the request, whose response is the order returned. *)
Lemma PlaceOrder_recorded w req order w1 :
  service.PlaceOrder sha256_hex w req = (Ok order, w1) →
  ∃ row order',
    idempotency_keys (db w1) !! PlaceOrderRequest.IdempotencyKey req = Some row ∧
    IdempotencyKey.request_hash row =
      service.ComputeRequestHash sha256_hex (json_MarshalPlace req) ∧
    json_Unmarshal (Some (IdempotencyKey.response_data row)) Order.zero = Ok order' ∧
    same_order order order' ∧
    service.validate_PlaceOrderRequest req = true.
Proof.
  assert (∀ w0, service.validate_PlaceOrderRequest req = true →
    (let (r, w2) :=
       match db_Begin w0 with
       | (Err err, w2) => (Err (Wrapf "failed to start transaction" err), w2)
       | (Ok _, w2) =>
           let '(r, w3) := service.placeOrderInTx w2 req
             (service.ComputeRequestHash sha256_hex (json_MarshalPlace req)) in
           (r, tx_Rollback w3)
       end in (r, w2)) = (Ok order, w1) →
    ∃ row order',
      idempotency_keys (db w1) !! PlaceOrderRequest.IdempotencyKey req = Some row ∧
      IdempotencyKey.request_hash row =
        service.ComputeRequestHash sha256_hex (json_MarshalPlace req) ∧
      json_Unmarshal (Some (IdempotencyKey.response_data row)) Order.zero = Ok order' ∧
      same_order order order' ∧
      service.validate_PlaceOrderRequest req = true) as Hplace.
  { intros w0 Hvalid. unfold db_Begin. destruct (faults _ OpBegin); [done |].
    destruct (service.placeOrderInTx _ _ _) as [r w3] eqn:Hrun.
    intros [= -> <-]. apply placeOrderInTx_recorded in Hrun as (row & Hrow & Hh & Hd).
    exists row, (numerals order). simpl. rewrite Hd. eauto using same_order_numerals. }
  unfold service.PlaceOrder.
  destruct (service.validate_PlaceOrderRequest req) eqn:Hvalid; [| done]. simpl.
  unfold idempotencyRepo_Check. simpl.
  destruct (faults w OpIdempotencyCheck); [done |].
  destruct (idempotency_keys (db w) !! PlaceOrderRequest.IdempotencyKey req) as [row |] eqn:Hrow.
  - destruct (now w <? IdempotencyKey.expires_at row).
    + destruct (String.eqb_spec (IdempotencyKey.request_hash row)
                  (service.ComputeRequestHash sha256_hex (json_MarshalPlace req))) as [Hh | Hh];
        simpl; [| done].
      destruct (IdempotencyKey.response_data row) as [| o] eqn:Hd; simpl;
        intros [= <- <-]; simpl; exists row; eexists; rewrite Hd; simpl;
        eauto 10 using same_order_refl.
    + intros Hrun. apply (Hplace (call OpIdempotencyCheck w)); [done |].
      by destruct (db_Begin _) as [[[] | ?] ?]; [destruct (service.placeOrderInTx _ _ _) |].
  - intros Hrun. apply (Hplace (call OpIdempotencyCheck w)); [done |].
    by destruct (db_Begin _) as [[[] | ?] ?]; [destruct (service.placeOrderInTx _ _ _) |].
Qed.



End ServiceFacts.

(** * The claims *)

Lemma Reachable_layBook : Reachable layBook.
Proof.
  apply (Reachable_PlaceOrder twoOrders emptyBook 1%nat layStore layBook []).
  - apply Reachable_NewEngine.
  - vm_compute; reflexivity.
Qed.

Lemma no_faults_worldWith row : no_faults (worldWith row).
Proof. by intros op. Qed.




(** C2, at the input where the code departs from it.  A back order at 2.5
    for 10 is placed on the empty book: there is no match, the order rests
    alone at the tail of the level of its price, its remaining size is not
    zero, and its status is PARTIALLY, where the claim says PENDING. *)
Theorem PlaceOrder_unmatched_remainder_is_PARTIALLY :
  ∃ rt' e' q,
    PlaceOrder oneBack emptyBook 1%nat = Some (rt', e', []) ∧
    decimal.IsZero (Order.SizeRemaining (load rt' 1%nat)) = false ∧
    backOrders e' !! decimal.String (Order.Price (load rt' 1%nat)) = Some q ∧
    last (orders q) = Some 1%nat ∧
    Order.Status (load rt' 1%nat) = OrderStatusPartially ∧
    OrderStatusPartially ≠ OrderStatusPending.
Proof.
  eexists _, _, _.
  split; [vm_compute; reflexivity |].
  repeat split; try (vm_compute; reflexivity). discriminate.
Qed.









(** C6, at the input where the code departs from it.  The order is in
    status PENDING and the result is win: [SettleOrder] succeeds and the
    status of the order is settled_win. *)
Theorem SettleOrder_settles_pending_order :
  ∃ w',
    Order.Status <$> orders_table (db (worldWith restingLay)) !! 5%N =
      Some OrderStatusPending ∧
    service.SettleOrder exampleHash (worldWith restingLay) winRequest = (None, w') ∧
    Order.Status <$> orders_table (db w') !! 5%N = Some "settled_win"%string.
Proof.
  eexists. split; [vm_compute; reflexivity |].
  split; [vm_compute; reflexivity |]. vm_compute; reflexivity.
Qed.

(** C7, as amended.  A [CancelOrder] whose request passes validation and
    finds no live record of its key, on a store that does not fail, for an
    order whose status is neither PENDING nor PARTIALLY, fails with the
    error "order cannot be cancelled: status=" followed by the status, which
    is not [ErrInvalidOrderStatus]; the order is not changed and no outbox
    event or idempotency record is created. *)
Theorem CancelOrder_refuses_by_message sha256_hex w req row :
  service.validate_CancelOrderRequest req = true →
  liveRecord w (CancelOrderRequest.IdempotencyKey req) = None →
  no_faults w →
  orders_table (db w) !! CancelOrderRequest.OrderID req = Some row →
  Order.Status row ≠ OrderStatusPending → Order.Status row ≠ OrderStatusPartially →
  cancel_refused sha256_hex w req (Order.Status row).
Proof.
  intros Hvalid Hlive Hnf Hrow Hpending Hpartially.
  destruct (CancelOrder_rejects sha256_hex w req row Hvalid Hlive Hnf Hrow Hpending Hpartially)
    as (w' & Hrun & Hdb & Htx & Hcalls).
  by eexists _, w'.
Qed.

(** C7 at a MATCHED order. *)
Lemma CancelOrder_refuses_by_message_witness :
  cancel_refused exampleHash (worldWith matchedLay) cancelRequest OrderStatusMatched.
Proof.
  apply (CancelOrder_refuses_by_message exampleHash (worldWith matchedLay) cancelRequest
           matchedLay).
  - reflexivity.
  - reflexivity.
  - apply no_faults_worldWith.
  - vm_compute; reflexivity.
  - discriminate.
  - discriminate.
Defined.

(** C7, as stated, fails.  The order is in status MATCHED: the error of
    [CancelOrder] is the message, not [ErrInvalidOrderStatus].  The database
    is as before. *)
Lemma CancelOrder_error_is_not_the_sentinel :
  ∃ err w',
    service.CancelOrder exampleHash (worldWith matchedLay) cancelRequest = (Some err, w') ∧
    err = Errorf "order cannot be cancelled: status=MATCHED" ∧
    err ≠ ErrInvalidOrderStatus ∧
    db w' = db (worldWith matchedLay).
Proof.
  eexists _, _. split; [vm_compute; reflexivity |].
  split; [reflexivity |]. split; [discriminate |]. vm_compute; reflexivity.
Qed.

(** C8.  When the query of [Check] does not fail in the driver, [Check]
    has three outcomes, decided by the record of the key that has not
    expired: when there is none, (nil, false, nil); when there is one and its
    hash is the request hash, (its response, true, nil); when there is one
    with another hash, (nil, true, ErrIdempotencyMismatch).  [Check] changes
    nothing. *)
Theorem Check_three_outcomes w key requestHash :
  faults w OpIdempotencyCheck = false → check_outcome w key requestHash.
Proof.
  intros Hf. unfold check_outcome, idempotencyRepo_Check, liveRecord. simpl. rewrite Hf.
  destruct (idempotency_keys (db w) !! key) as [row |]; [| done].
  destruct (now w <? IdempotencyKey.expires_at row); [| done].
  destruct (String.eqb_spec (IdempotencyKey.request_hash row) requestHash) as [Heq | Hne];
    simpl; case_decide; done.
Qed.

(** C8 at a table with one record: its hash, another hash, another key,
    and the same key once the record has expired. *)
Lemma Check_three_outcomes_witness :
  check_outcome keyedWorld "key-1" "h1" ∧
  check_outcome keyedWorld "key-1" "h2" ∧
  check_outcome keyedWorld "key-2" "h1" ∧
  check_outcome (later 5000 (fun _ => false) keyedWorld) "key-1" "h1".
Proof.
  exact (conj (Check_three_outcomes keyedWorld "key-1" "h1" eq_refl)
        (conj (Check_three_outcomes keyedWorld "key-1" "h2" eq_refl)
        (conj (Check_three_outcomes keyedWorld "key-2" "h1" eq_refl)
              (Check_three_outcomes (later 5000 (fun _ => false) keyedWorld)
                 "key-1" "h1" eq_refl)))).
Defined.

(** C9, as amended.  A [PlaceOrder] repeated with the same key and the same
    request after a successful first call, while the record of the key has
    not expired (24 hours after the call that stored it) and the query of
    [Check] does not fail, returns the same order, read back from the cached
    response, so with its decimals as numbers rather than as
    representations.  It makes the one call [Check]: it opens no transaction
    and creates no order row, outbox event or idempotency record. *)
Theorem PlaceOrder_replay sha256_hex w req order w1 t f row :
  service.PlaceOrder sha256_hex w req = (Ok order, w1) →
  f OpIdempotencyCheck = false →
  idempotency_keys (db w1) !! PlaceOrderRequest.IdempotencyKey req = Some row →
  t < IdempotencyKey.expires_at row →
  replayed sha256_hex w1 t f req order.
Proof.
  intros Hfirst Hf Hrow Hlive.
  apply PlaceOrder_recorded in Hfirst as (row' & order' & Hrow' & Hh & Hu & Hsame & Hvalid).
  assert (row' = row) as -> by congruence.
  unfold replayed, service.PlaceOrder. rewrite Hvalid. simpl.
  unfold idempotencyRepo_Check. simpl. rewrite Hf, Hrow.
  apply Z.ltb_lt in Hlive. rewrite Hlive.
  rewrite Hh, String.eqb_refl. cbn [negb]. rewrite Hu. eauto.
Qed.

(** C9 at a repeat one nanosecond before the record expires. *)
Lemma PlaceOrder_replay_witness :
  replayed exampleHash
    (snd (service.PlaceOrder exampleHash (worldWith restingLay) backRequest))
    (1000 + 24 * Hour - 1) (fun _ => false) backRequest
    (placedOrder (worldWith restingLay) backRequest).
Proof.
  apply (PlaceOrder_replay exampleHash (worldWith restingLay) backRequest
           (placedOrder (worldWith restingLay) backRequest)
           (snd (service.PlaceOrder exampleHash (worldWith restingLay) backRequest))
           (1000 + 24 * Hour - 1) (fun _ => false)
           (IdempotencyKey.mk
              (service.ComputeRequestHash exampleHash (json_MarshalPlace backRequest))
              (json_Order (numerals (placedOrder (worldWith restingLay) backRequest)))
              1000 (1000 + 24 * Hour))).
  - vm_compute; reflexivity.
  - reflexivity.
  - vm_compute; reflexivity.
  - vm_compute; reflexivity.
Defined.

(** C9, as stated, fails.  The same request is repeated 24 hours after the
    first call, when the record has expired.  [PlaceOrder] opens a
    transaction.  Where the idempotency key of an order is unique, the
    insertion of the order fails and so does the call; where it is not, a
    second order is placed, under another id, with its own row and event. *)
Lemma PlaceOrder_repeat_after_expiry :
  (∃ order1 w1 err w2,
     service.PlaceOrder exampleHash (worldWith restingLay) backRequest = (Ok order1, w1) ∧
     service.PlaceOrder exampleHash (later (now w1 + 24 * Hour) (fun _ => false) w1)
       backRequest = (Err err, w2) ∧
     err = Wrapf "failed to create order"
             (Wrapf "duplicate idempotency key" ErrUniqueViolation) ∧
     calls w2 = calls w1 ++ [OpIdempotencyCheck; OpBegin; OpOrderCreate; OpRollback]) ∧
  (∃ order1 w1 order2 w2,
     service.PlaceOrder exampleHash (withoutUniqueKey (worldWith restingLay)) backRequest
       = (Ok order1, w1) ∧
     service.PlaceOrder exampleHash (later (now w1 + 24 * Hour) (fun _ => false) w1)
       backRequest = (Ok order2, w2) ∧
     Order.ID order2 ≠ Order.ID order1 ∧
     size (orders_table (db w2)) = S (size (orders_table (db w1))) ∧
     length (outbox_events (db w2)) = S (length (outbox_events (db w1))) ∧
     calls w2 = calls w1 ++ placeCalls).
Proof.
  split.
  - eexists _, _, _, _.
    split; [vm_compute; reflexivity |].
    split; [vm_compute; reflexivity |].
    split; vm_compute; reflexivity.
  - eexists _, _, _, _.
    split; [vm_compute; reflexivity |].
    split; [vm_compute; reflexivity |].
    split; [vm_compute; discriminate |].
    repeat split; vm_compute; reflexivity.
Qed.

(** C10.  For every limit and offset, and whatever the orders in the
    database and the faults of the driver, [GetActiveOrders] returns the
    empty list and no error, and leaves the world as it was: no call is
    added to its calls. *)
Theorem GetActiveOrders_empty w limit offset :
  service.GetActiveOrders w limit offset = ([], None, w).
Proof. reflexivity. Qed.

(** * Further properties of the code *)

(** ** Numerals *)

Section NumeralFacts.
Import decimal.

Lemma trimTrailingZeros_canonical n v e :
  e + Z.of_nat n <= 0 →
  let d := trimTrailingZeros n v e in
  exp d <= 0 ∧ (exp d < e + Z.of_nat n → value d mod 10 ≠ 0).
Proof.
  revert v e. induction n as [| n IH]; intros v e Hle; simpl.
  - split; lia.
  - destruct (Z.eqb_spec (v mod 10) 0) as [H0 | Hn]; simpl.
    + destruct (IH (v / 10) (e + 1)) as [H1 H2]; [lia |]. split; [done |].
      intros Hlt. apply H2. lia.
    + split; [lia | done].
Qed.

Lemma String_canonical d : canonical (String d).
Proof.
  unfold canonical, String. destruct (Z.leb_spec 0 (exp d)) as [Hpos | Hneg].
  - rewrite rescale_le by done. simpl. split; lia.
  - destruct (trimTrailingZeros_canonical (Z.to_nat (- exp d)) (value d) (exp d)) as [H1 H2];
      [lia |].
    split; [done |]. intros Hlt. apply H2. lia.
Qed.

Lemma Equal_aligned d d2 :
  Equal d d2 = true ↔ fst (aligned d d2) = snd (aligned d d2).
Proof.
  unfold Equal. rewrite Cmp_aligned.
  destruct (Z.compare_spec (fst (aligned d d2)) (snd (aligned d d2))); split; (done || lia).
Qed.

Lemma canonical_shift v v' k :
  0 < k → v = v' * 10 ^ k → v mod 10 = 0.
Proof.
  intros Hk ->. replace k with (Z.succ (k - 1)) by lia.
  rewrite Z.pow_succ_r by lia.
  replace (v' * (10 * 10 ^ (k - 1))) with ((v' * 10 ^ (k - 1)) * 10) by ring.
  apply Z.mod_mul. lia.
Qed.

(** Two numerals in normal form that are equal numbers are the same. *)
Lemma canonical_inj d d2 :
  canonical d → canonical d2 → Equal d d2 = true → d = d2.
Proof.
  intros [He Hv] [He2 Hv2]. rewrite Equal_aligned.
  destruct d as [v e], d2 as [v2 e2]; unfold aligned; simpl in *.
  intros Heq.
  destruct (Z.lt_trichotomy e e2) as [Hlt | [-> | Hgt]].
  - rewrite Z.min_l, Z.sub_diag, Z.pow_0_r, Z.mul_1_r in Heq by lia.
    exfalso. apply Hv; [lia |]. by apply (canonical_shift v v2 (e2 - e)); [lia |].
  - rewrite Z.min_id, Z.sub_diag, Z.pow_0_r, !Z.mul_1_r in Heq. by subst.
  - rewrite Z.min_r, Z.sub_diag, Z.pow_0_r, Z.mul_1_r in Heq by lia.
    exfalso. apply Hv2; [lia |]. by apply (canonical_shift v2 v (e - e2)); [lia |].
Qed.

Lemma Equal_trans a b c : Equal a b = true → Equal b c = true → Equal a c = true.
Proof. rewrite !Equal_toQ. intros -> ->. reflexivity. Qed.

(** Equal numbers have the same numeral. *)
Lemma String_inj d d2 : Equal d d2 = true → String d = String d2.
Proof.
  intros Heq. apply canonical_inj; try apply String_canonical.
  eapply Equal_trans; [apply String_Equal |].
  eapply Equal_trans; [exact Heq |]. apply Equal_sym, String_Equal.
Qed.

End NumeralFacts.

(** ** The price sequences *)

Section StrictFacts.

Lemma strictly_trans s a b c : strictly s a b → strictly s b c → strictly s a c.
Proof.
  destruct s; simpl; rewrite ?GreaterThan_toQ, ?LessThan_toQ; intros; eapply Qlt_trans; eauto.
Qed.

(** The test of the insertion loop fails on a price that is not the new
    one: the new price comes strictly first. *)
Lemma insertPrice_before s x p :
  decimal.Equal x p = false →
  match s with
  | BackSide => decimal.GreaterThan x p
  | LaySide => decimal.LessThan x p
  end = false → strictly s p x.
Proof.
  intros Hne Hno.
  assert (¬ (decimal.toQ x == decimal.toQ p)%Q) as Hq.
  { rewrite <- Equal_toQ. by rewrite Hne. }
  destruct s; simpl.
  - rewrite GreaterThan_toQ.
    assert (¬ (decimal.toQ p < decimal.toQ x)%Q) as Hn
      by (rewrite <- GreaterThan_toQ; by rewrite Hno).
    apply Qnot_lt_le in Hn. apply Qle_lteq in Hn as [Hlt | Heq]; [done | by destruct Hq].
  - rewrite LessThan_toQ.
    assert (¬ (decimal.toQ x < decimal.toQ p)%Q) as Hn
      by (rewrite <- LessThan_toQ; by rewrite Hno).
    apply Qnot_lt_le in Hn. apply Qle_lteq in Hn as [Hlt | Heq]; [done |].
    destruct Hq. by symmetry.
Qed.

Lemma insertPrice_strict s prices p :
  (∀ x, x ∈ prices → decimal.Equal x p = false) →
  StronglySorted (strictly s) prices → StronglySorted (strictly s) (insertPrice s prices p).
Proof.
  intros Hnew Hs. induction Hs as [| x xs Hs IH Hall].
  - destruct s; repeat constructor.
  - assert (insertPrice s (x :: xs) p =
            if match s with
               | BackSide => decimal.GreaterThan x p
               | LaySide => decimal.LessThan x p
               end
            then x :: insertPrice s xs p else p :: x :: xs) as -> by by destruct s.
    destruct (match s with BackSide => _ | LaySide => _ end) eqn:Htest.
    + constructor.
      * apply IH. intros y Hy. apply Hnew. by right.
      * apply Forall_forall. intros y Hy.
        apply elem_of_insertPrice in Hy as [-> | Hy]; [by destruct s |].
        rewrite Forall_forall in Hall. by apply Hall.
    + assert (strictly s p x) as Hpx
        by (apply insertPrice_before; [apply Hnew; by left | done]).
      constructor; [by constructor |]. constructor; [done |].
      eapply Forall_impl; [exact Hall |]. intros y Hy. simpl in Hy.
      by eapply strictly_trans.
Qed.

Lemma same_levels_strict e e' : same_levels e e' → book_strict e → book_strict e'.
Proof. intros Hs Hsorted s. unfold prices_strict. destruct (Hs s) as [-> _]. apply Hsorted. Qed.

Lemma addOrder_strict s rt e order :
  book_indexed e → book_strict e → book_strict (snd (addOrder s rt e order)).
Proof.
  intros Hi Hsorted s'. unfold addOrder, prices_strict.
  destruct (sideOrders s e !! _) as [q |] eqn:Hq; simpl.
  - rewrite sidePrices_setSideOrders. apply Hsorted.
  - rewrite sidePrices_setSideOrders, sidePrices_set.
    case_decide as Hs; [subst s' |].
    + rewrite sidePrices_setSideOrders. apply insertPrice_strict; [| apply Hsorted].
      intros x Hx. apply not_true_is_false. intros Heq.
      destruct (Hi s x Hx) as (q & Hq' & _).
      apply String_inj in Heq. congruence.
    + rewrite sidePrices_setSideOrders. apply Hsorted.
Qed.

Lemma placeOrder_strict own rt e order rt' e' ms :
  placeOrder own rt e order = Some (rt', e', ms) →
  book_indexed e → book_strict e → book_strict e'.
Proof.
  intros Hrun Hi Hsorted. unfold placeOrder in Hrun.
  destruct (matchLevels_same (opposite own) (sidePrices (opposite own) e) rt e order)
    as (rt1 & e1 & ms1 & Hwalk & Hsame).
  { intros p Hp. destruct (Hi _ p Hp) as (q & Hq & _). eauto. }
  rewrite Hwalk in Hrun.
  pose proof (same_levels_indexed _ _ Hsame Hi) as Hi1.
  apply same_levels_strict in Hsame; [| done].
  destruct (negb _).
  - pose proof (addOrder_strict own rt1 e1 order Hi1 Hsame) as Hadd.
    destruct (addOrder own rt1 e1 order) as [rt2 e2]. by injection Hrun as <- <- <-.
  - by injection Hrun as <- <- <-.
Qed.


End StrictFacts.

(** ** What a placement writes to the store *)

Section FrameFacts.

Lemma stable_refl a : stable a a.
Proof. unfold stable. repeat split; reflexivity. Qed.

Lemma stable_trans a b c : stable a b → stable b c → stable a c.
Proof.
  unfold stable.
  intros (?&?&?&?&?&?&?&?&?&?&?&?&Hq) (?&?&?&?&?&?&?&?&?&?&?&?&Hq').
  repeat split; try congruence. by rewrite Hq.
Qed.

Lemma evolves_refl rt : evolves rt rt.
Proof. split; [done |]. intros p. apply stable_refl. Qed.

Lemma evolves_trans rt1 rt2 rt3 : evolves rt1 rt2 → evolves rt2 rt3 → evolves rt1 rt3.
Proof.
  intros [Hc H] [Hc' H']. split; [congruence |].
  intros p. eapply stable_trans; eauto.
Qed.

Lemma assign_evolves rt p f : (∀ o, stable o (f o)) → evolves rt (assign rt p f).
Proof.
  intros Hf. split; [done |]. intros p'.
  destruct (decide (p = p')) as [<- | Hne].
  - rewrite load_assign. apply Hf.
  - rewrite load_assign_ne by done. apply stable_refl.
Qed.

Lemma assign_assign rt p f g :
  assign (assign rt p f) p g = assign rt p (fun o => g (f o)).
Proof.
  unfold assign. rewrite load_store. unfold store; simpl. by rewrite insert_insert_eq.
Qed.

(** Moving [matchSize] from what remains of an order to what is matched. *)
Lemma transfer_stable matchSize o :
  stable o (Order.set_SizeRemaining (decimal.Sub (Order.SizeRemaining
              (Order.set_SizeMatched (decimal.Add (Order.SizeMatched o) matchSize) o)) matchSize)
            (Order.set_SizeMatched (decimal.Add (Order.SizeMatched o) matchSize) o)).
Proof.
  unfold stable, sizeTotal. simpl. repeat split; try reflexivity.
  rewrite Add_exact, Sub_exact. ring.
Qed.


Lemma pairOrders_evolves e rt incoming existing matchPrice :
  evolves rt (fst (pairOrders e rt incoming existing matchPrice)).
Proof.
  unfold pairOrders. simpl.
  set (matchSize := decimal.Min _ _).
  set (rt0 := mkRuntime (heap rt) (clock rt) (entropy rt + 1)%N).
  assert (evolves rt rt0) as H0 by (split; [done | intros p; apply stable_refl]).
  rewrite (assign_assign rt0 incoming).
  rewrite (assign_assign _ existing).
  eapply evolves_trans; [exact H0 |].
  eapply evolves_trans; apply assign_evolves; intros o; apply transfer_stable.
Qed.

Lemma set_MatchedAt_stable x o : stable o (Order.set_MatchedAt x o).
Proof. unfold stable, sizeTotal. simpl. repeat split; reflexivity. Qed.

Lemma set_CancelledAt_stable x o : stable o (Order.set_CancelledAt x o).
Proof. unfold stable, sizeTotal. simpl. repeat split; reflexivity. Qed.

Lemma set_Status_stable x o : stable o (Order.set_Status x o).
Proof. unfold stable, sizeTotal. simpl. repeat split; reflexivity. Qed.

Lemma iteration_evolves e rt incoming existing matchPrice :
  evolves rt (fst (fst (iteration e rt incoming existing matchPrice))).
Proof.
  unfold iteration.
  pose proof (pairOrders_evolves e rt incoming existing matchPrice) as Hp.
  destruct (pairOrders e rt incoming existing matchPrice) as [rt1 m]; simpl in *.
  destruct (decimal.IsZero _); simpl.
  - eapply evolves_trans; [exact Hp |].
    eapply evolves_trans; apply assign_evolves; intros o;
      [apply set_MatchedAt_stable | apply set_Status_stable].
  - eapply evolves_trans; [exact Hp |]. apply assign_evolves, set_Status_stable.
Qed.

Lemma matchLoop_evolves e incoming matchPrice todo : ∀ rt kept,
  evolves rt (fst (fst (matchLoop e rt incoming matchPrice kept todo))).
Proof.
  induction todo as [| existing rest IH]; intros rt kept; simpl; [apply evolves_refl |].
  destruct (decimal.IsZero _); [apply evolves_refl |].
  pose proof (iteration_evolves e rt incoming existing matchPrice) as Hi.
  destruct (iteration e rt incoming existing matchPrice) as [[rt1 m] filled]; simpl in *.
  specialize (IH rt1 (if filled then kept else kept ++ [existing])).
  destruct (matchLoop e rt1 incoming matchPrice _ rest) as [[rt2 os] ms]; simpl in *.
  by eapply evolves_trans.
Qed.

Lemma matchLevels_evolves opp order prices : ∀ rt e rt' e' ms,
  matchLevels opp rt e order prices = Some (rt', e', ms) → evolves rt rt'.
Proof.
  induction prices as [| p rest IH]; intros rt e rt' e' ms; simpl.
  { intros [= <- <- <-]. apply evolves_refl. }
  destruct (decimal.IsZero _); [intros [= <- <- <-]; apply evolves_refl |].
  destruct (cannotMatch _ _ _); [intros [= <- <- <-]; apply evolves_refl |].
  destruct (sideOrders opp e !! _) as [q |]; [| done].
  pose proof (matchLoop_evolves e order p (orders q) rt []) as Hl.
  unfold matchOrders.
  destruct (matchLoop e rt order p [] (orders q)) as [[rt1 os1] ms1]; simpl in *.
  destruct (matchLevels opp rt1 _ order rest) as [[[rt2 e2] ms2] |] eqn:Hrest; [| done].
  intros [= <- <- <-]. eapply evolves_trans; [exact Hl |]. eapply IH, Hrest.
Qed.

Lemma addOrder_evolves s rt e order : evolves rt (fst (addOrder s rt e order)).
Proof.
  unfold addOrder. destruct (sideOrders s e !! _); simpl; apply assign_evolves, set_Status_stable.
Qed.

Lemma placeOrder_evolves own rt e order rt' e' ms :
  placeOrder own rt e order = Some (rt', e', ms) → evolves rt rt'.
Proof.
  unfold placeOrder.
  destruct (matchLevels _ _ _ _ _) as [[[rt1 e1] ms1] |] eqn:Hwalk; [| done].
  apply matchLevels_evolves in Hwalk.
  destruct (negb _).
  - pose proof (addOrder_evolves own rt1 e1 order) as Hadd.
    destruct (addOrder own rt1 e1 order) as [rt2 e2]; simpl in *.
    intros [= <- <- <-]. eapply evolves_trans; [exact Hwalk |].
    eapply evolves_trans; [exact Hadd |]. apply assign_evolves, set_Status_stable.
  - intros [= <- <- <-]. eapply evolves_trans; [exact Hwalk |].
    eapply evolves_trans; apply assign_evolves; intros o;
      [apply set_MatchedAt_stable | apply set_Status_stable].
Qed.

Lemma PlaceOrder_evolves rt e order rt' e' ms :
  PlaceOrder rt e order = Some (rt', e', ms) → evolves rt rt'.
Proof. unfold PlaceOrder. destruct (String.eqb _ _); apply placeOrder_evolves. Qed.

Lemma PlaceOrder_returns rt e order :
  book_indexed e → ∃ rt' e' ms, PlaceOrder rt e order = Some (rt', e', ms).
Proof.
  intros Hi. unfold PlaceOrder.
  destruct (String.eqb _ _);
    [destruct (placeOrder_indexed BackSide rt e order Hi) as (rt' & e' & ms & Hrun & _)
    | destruct (placeOrder_indexed LaySide rt e order Hi) as (rt' & e' & ms & Hrun & _)];
    eauto.
Qed.

End FrameFacts.

(** ** The order of the matches *)

Section WalkFacts.

Lemma matchLoop_price e incoming matchPrice todo : ∀ rt kept,
  Forall (fun m => Match.Price m = matchPrice)
         (snd (matchLoop e rt incoming matchPrice kept todo)).
Proof.
  intros rt kept.
  pose proof (matchLoop_pairings e incoming matchPrice todo rt kept) as H.
  induction H as [| x m xs ms [-> _] _ IH]; constructor; [| done].
  by destruct (pairOrders_match e (fst x) incoming (snd x) matchPrice) as [-> _].
Qed.

(** Every match of the walk is made at a price the walk did not stop at. *)
Lemma matchLevels_limit opp order prices : ∀ rt e rt' e' ms,
  matchLevels opp rt e order prices = Some (rt', e', ms) →
  Forall (fun m => cannotMatch opp (Order.Price (load rt order)) (Match.Price m) = false) ms.
Proof.
  induction prices as [| p rest IH]; intros rt e rt' e' ms; simpl.
  { by intros [= <- <- <-]. }
  destruct (decimal.IsZero _); [by intros [= <- <- <-] |].
  destruct (cannotMatch _ _ _) eqn:Hcross; [by intros [= <- <- <-] |].
  destruct (sideOrders opp e !! _) as [q |]; [| done].
  pose proof (matchLoop_evolves e order p (orders q) rt []) as [_ Hl].
  pose proof (matchLoop_price e order p (orders q) rt []) as Hp.
  unfold matchOrders.
  destruct (matchLoop e rt order p [] (orders q)) as [[rt1 os1] ms1]; simpl in *.
  destruct (matchLevels opp rt1 _ order rest) as [[[rt2 e2] ms2] |] eqn:Hrest; [| done].
  intros [= <- <- <-]. apply Forall_app. split.
  - eapply Forall_impl; [exact Hp |]. by intros m ->.
  - apply IH in Hrest. destruct (Hl order) as (_&_&_&_&_&->&_). done.
Qed.

Lemma priority_refl s a : priority s a a.
Proof. destruct s; simpl; rewrite LessThanOrEqual_toQ; apply Qle_refl. Qed.

Lemma StronglySorted_app_2 {A} (R : A → A → Prop) l1 l2 :
  StronglySorted R l1 → StronglySorted R l2 →
  (∀ x y, x ∈ l1 → y ∈ l2 → R x y) → StronglySorted R (l1 ++ l2).
Proof.
  intros H1 H2 H. induction H1 as [| x xs Hxs IH Hall]; simpl; [done |].
  constructor.
  - apply IH. intros a b Ha Hb. apply H; [by right | done].
  - apply Forall_app. split; [done |].
    apply Forall_forall. intros y Hy. apply H; [by left | done].
Qed.

(** The matches of the walk come in the order of the prices walked. *)
Lemma matchLevels_priority opp order prices : ∀ rt e rt' e' ms,
  StronglySorted (priority opp) prices →
  matchLevels opp rt e order prices = Some (rt', e', ms) →
  Forall (fun x => x ∈ prices) (map Match.Price ms) ∧
  StronglySorted (priority opp) (map Match.Price ms).
Proof.
  induction prices as [| p rest IH]; intros rt e rt' e' ms Hsorted; simpl.
  { intros [= <- <- <-]. split; constructor. }
  destruct (decimal.IsZero _); [intros [= <- <- <-]; split; constructor |].
  destruct (cannotMatch _ _ _); [intros [= <- <- <-]; split; constructor |].
  destruct (sideOrders opp e !! _) as [q |]; [| done].
  pose proof (matchLoop_price e order p (orders q) rt []) as Hp.
  unfold matchOrders.
  destruct (matchLoop e rt order p [] (orders q)) as [[rt1 os1] ms1]; simpl in *.
  destruct (matchLevels opp rt1 _ order rest) as [[[rt2 e2] ms2] |] eqn:Hrest; [| done].
  intros [= <- <- <-].
  apply StronglySorted_inv in Hsorted as [Hsorted Hall].
  destruct (IH _ _ _ _ _ Hsorted Hrest) as [Hin Hs].
  assert (Forall (fun x => x = p) (map Match.Price ms1)) as Hp'
    by (apply Forall_fmap; exact Hp).
  rewrite map_app. split.
  - apply Forall_app. split.
    + eapply Forall_impl; [exact Hp' |]. intros x ->. by left.
    + eapply Forall_impl; [exact Hin |]. intros x Hx. by right.
  - apply StronglySorted_app_2; [| done |].
    + clear -Hp'. induction Hp' as [| x xs -> Hxs IH]; constructor; [done |].
      eapply Forall_impl; [exact Hxs |]. intros y ->. apply priority_refl.
    + intros x y Hx Hy. rewrite Forall_forall in Hp'. rewrite (Hp' x Hx).
      rewrite Forall_forall in Hall, Hin. apply Hall. by apply Hin.
Qed.

(** The loop of [matchOrders] takes the resting orders from the head of the
    queue, one after the other, and leaves the ones it did not reach where
    they were. *)
Lemma matchLoop_fifo e incoming matchPrice todo : ∀ rt kept,
  let '(rt', os, ms) := matchLoop e rt incoming matchPrice kept todo in
  map (counterparty (Order.Side (load rt incoming))) ms =
    map (fun p => Order.ID (load rt p)) (take (length ms) todo) ∧
  ∃ kept', os = kept' ++ drop (length ms) todo.
Proof.
  induction todo as [| existing rest IH]; intros rt kept; simpl.
  { split; [done |]. exists kept. by rewrite app_nil_r. }
  destruct (decimal.IsZero _).
  { simpl. split; [done |]. by exists kept. }
  pose proof (iteration_evolves e rt incoming existing matchPrice) as [_ Hev].
  pose proof (iteration_match e rt incoming existing matchPrice) as Hm.
  destruct (iteration e rt incoming existing matchPrice) as [[rt1 m] filled]; simpl in *.
  specialize (IH rt1 (if filled then kept else kept ++ [existing])).
  destruct (matchLoop e rt1 incoming matchPrice _ rest) as [[rt2 os] ms]; simpl in *.
  destruct IH as [Hids [kept' ->]]. split; [| by exists kept'].
  f_equal.
  - rewrite Hm. unfold counterparty, pairOrders, newMatch; simpl.
    unfold load at 1 2 4; simpl. fold (load rt incoming). fold (load rt existing).
    by destruct (String.eqb _ _).
  - destruct (Hev incoming) as (_&_&_&_&->&_). rewrite Hids.
    apply map_ext. intros p. by destruct (Hev p) as (->&_).
Qed.

End WalkFacts.

(** ** Fills, cancellations and the view of the book *)

Section FillFacts.

Lemma matchedSize_app ms ms' :
  (matchedSize (ms ++ ms') == matchedSize ms + matchedSize ms')%Q.
Proof. induction ms as [| m ms IH]; simpl; [ring |]. rewrite IH. ring. Qed.

Lemma iteration_incoming e rt incoming existing matchPrice :
  incoming ≠ existing →
  let '(rt1, m, _) := iteration e rt incoming existing matchPrice in
  Order.SizeRemaining (load rt1 incoming) =
    decimal.Sub (Order.SizeRemaining (load rt incoming)) (Match.Size m) ∧
  Order.SizeMatched (load rt1 incoming) =
    decimal.Add (Order.SizeMatched (load rt incoming)) (Match.Size m).
Proof.
  intros Hne.
  assert (existing ≠ incoming) as Hne' by done.
  unfold iteration.
  destruct (pairOrders_match e rt incoming existing matchPrice) as (_ & HS & _).
  unfold pairOrders in *. simpl in *.
  set (rt0 := mkRuntime (heap rt) (clock rt) (entropy rt + 1)%N) in *.
  change (load rt0) with (load rt) in *.
  destruct (decimal.IsZero _); simpl; rewrite HS;
    rewrite ?(load_assign_ne _ existing incoming) by done;
    rewrite !load_assign; simpl; done.
Qed.

Lemma matchLoop_filled e incoming matchPrice todo : ∀ rt kept,
  incoming ∉ todo →
  let '(rt', _, ms) := matchLoop e rt incoming matchPrice kept todo in
  (decimal.toQ (Order.SizeRemaining (load rt' incoming)) ==
   decimal.toQ (Order.SizeRemaining (load rt incoming)) - matchedSize ms)%Q ∧
  (decimal.toQ (Order.SizeMatched (load rt' incoming)) ==
   decimal.toQ (Order.SizeMatched (load rt incoming)) + matchedSize ms)%Q.
Proof.
  induction todo as [| existing rest IH]; intros rt kept Hnot; simpl.
  { split; ring. }
  destruct (decimal.IsZero _); [simpl; split; ring |].
  apply not_elem_of_cons in Hnot as [Hne Hnot].
  pose proof (iteration_incoming e rt incoming existing matchPrice Hne) as Hi.
  destruct (iteration e rt incoming existing matchPrice) as [[rt1 m] filled].
  destruct Hi as [Hr Hm].
  specialize (IH rt1 (if filled then kept else kept ++ [existing]) Hnot).
  destruct (matchLoop e rt1 incoming matchPrice _ rest) as [[rt2 os] ms].
  destruct IH as [IHr IHm]. simpl.
  rewrite IHr, IHm, Hr, Hm, Sub_exact, Add_exact. split; ring.
Qed.

Lemma matchLoop_subset e incoming matchPrice todo : ∀ rt kept x,
  x ∈ snd (fst (matchLoop e rt incoming matchPrice kept todo)) → x ∈ kept ∨ x ∈ todo.
Proof.
  induction todo as [| existing rest IH]; intros rt kept x; simpl; [by left |].
  destruct (decimal.IsZero _); simpl.
  { rewrite elem_of_app. tauto. }
  destruct (iteration e rt incoming existing matchPrice) as [[rt1 m] filled].
  specialize (IH rt1 (if filled then kept else kept ++ [existing]) x).
  destruct (matchLoop e rt1 incoming matchPrice _ rest) as [[rt2 os] ms]; simpl in *.
  intros Hx. destruct (IH Hx) as [Hk | Hr].
  - destruct filled; [by left |]. apply elem_of_app in Hk as [Hk | Hk]; [by left |].
    apply list_elem_of_singleton in Hk as ->. right. by left.
  - right. by right.
Qed.

Lemma matchLevels_filled opp order prices : ∀ rt e rt' e' ms,
  ¬ rests_in opp e order →
  matchLevels opp rt e order prices = Some (rt', e', ms) →
  (decimal.toQ (Order.SizeRemaining (load rt' order)) ==
   decimal.toQ (Order.SizeRemaining (load rt order)) - matchedSize ms)%Q ∧
  (decimal.toQ (Order.SizeMatched (load rt' order)) ==
   decimal.toQ (Order.SizeMatched (load rt order)) + matchedSize ms)%Q.
Proof.
  assert (∀ rt : Runtime,
    (decimal.toQ (Order.SizeRemaining (load rt order)) ==
     decimal.toQ (Order.SizeRemaining (load rt order)) - matchedSize [])%Q ∧
    (decimal.toQ (Order.SizeMatched (load rt order)) ==
     decimal.toQ (Order.SizeMatched (load rt order)) + matchedSize [])%Q) as Hstop
    by (intros rt; simpl; split; ring).
  induction prices as [| p rest IH]; intros rt e rt' e' ms Hnot; simpl.
  { by intros [= <- <- <-]. }
  destruct (decimal.IsZero _); [by intros [= <- <- <-] |].
  destruct (cannotMatch _ _ _); [by intros [= <- <- <-] |].
  destruct (sideOrders opp e !! _) as [q |] eqn:Hq; [| done].
  assert (order ∉ orders q) as Hout by (intros Hin; apply Hnot; by exists (decimal.String p), q).
  pose proof (matchLoop_filled e order p (orders q) rt [] Hout) as Hl.
  pose proof (matchLoop_subset e order p (orders q) rt []) as Hsub.
  unfold matchOrders.
  destruct (matchLoop e rt order p [] (orders q)) as [[rt1 os1] ms1]; simpl in *.
  destruct Hl as [Hr Hm].
  destruct (matchLevels opp rt1 _ order rest) as [[[rt2 e2] ms2] |] eqn:Hrest; [| done].
  intros [= <- <- <-].
  apply IH in Hrest as [Hr' Hm'].
  - rewrite Hr', Hm', Hr, Hm, matchedSize_app. split; ring.
  - intros (k & q' & Hq' & Hin). rewrite sideOrders_set, decide_True in Hq' by done.
    destruct (decide (decimal.String p = k)) as [<- | Hne].
    + rewrite lookup_insert_eq in Hq'. injection Hq' as <-. simpl in Hin.
      destruct (Hsub order Hin) as [Hk | Hk]; [by apply elem_of_nil in Hk | done].
    + rewrite lookup_insert_ne in Hq' by done. apply Hnot. by exists k, q'.
Qed.

Lemma placeOrder_filled own rt e order rt' e' ms :
  ¬ rests_in (opposite own) e order →
  placeOrder own rt e order = Some (rt', e', ms) →
  (decimal.toQ (Order.SizeRemaining (load rt' order)) ==
   decimal.toQ (Order.SizeRemaining (load rt order)) - matchedSize ms)%Q ∧
  (decimal.toQ (Order.SizeMatched (load rt' order)) ==
   decimal.toQ (Order.SizeMatched (load rt order)) + matchedSize ms)%Q.
Proof.
  intros Hnot. unfold placeOrder.
  destruct (matchLevels _ _ _ _ _) as [[[rt1 e1] ms1] |] eqn:Hwalk; [| done].
  apply matchLevels_filled in Hwalk; [| done].
  destruct (negb _).
  - unfold addOrder. destruct (sideOrders own e1 !! _);
      intros [= <- <- <-]; by rewrite !load_assign.
  - intros [= <- <- <-]. by rewrite !load_assign.
Qed.

(** An order with nothing remaining is not walked over the book. *)
Lemma matchLevels_zero opp rt e order prices :
  decimal.IsZero (Order.SizeRemaining (load rt order)) = true →
  matchLevels opp rt e order prices = Some (rt, e, []).
Proof. intros Hz. destruct prices; simpl; [done |]. by rewrite Hz. Qed.

Lemma findOrder_None rt orderID os :
  findOrder rt orderID os = None ↔ ∀ p, p ∈ os → Order.ID (load rt p) ≠ orderID.
Proof.
  induction os as [| p rest IH]; simpl.
  - split; [| done]. intros _ p Hp. by apply elem_of_nil in Hp.
  - destruct (N.eqb_spec (Order.ID (load rt p)) orderID) as [Heq | Hne].
    + split; [done |]. intros H. destruct (H p); [by left | done].
    + destruct (findOrder rt orderID rest) as [i |]; simpl.
      * split; [done |]. intros H.
        assert (Some i = None) as Hn; [| done].
        apply IH. intros p' Hp'. apply H. by right.
      * split; [| done]. intros _ p' Hp'.
        apply elem_of_cons in Hp' as [-> | Hp']; [done |]. by apply IH.
Qed.

Lemma findOrder_Some rt orderID os i :
  findOrder rt orderID os = Some i →
  ∃ p, os !! i = Some p ∧ Order.ID (load rt p) = orderID ∧
       ∀ p', p' ∈ take i os → Order.ID (load rt p') ≠ orderID.
Proof.
  revert i. induction os as [| p rest IH]; intros i; simpl; [done |].
  destruct (N.eqb_spec (Order.ID (load rt p)) orderID) as [Heq | Hne].
  - intros [= <-]. exists p. split; [done |]. split; [done |].
    intros p' Hp'. by apply elem_of_nil in Hp'.
  - destruct (findOrder rt orderID rest) as [j |]; simpl; [| done].
    intros [= <-]. destruct (IH j eq_refl) as (p0 & Hp0 & Hid & Hfirst).
    exists p0. split; [done |]. split; [done |].
    intros p' Hp'. simpl in Hp'. apply elem_of_cons in Hp' as [-> | Hp']; [done |].
    by apply Hfirst.
Qed.

Lemma cancelIn_None s rt e orderID keys :
  cancelIn s rt e orderID keys = None ↔
  ∀ k q p, k ∈ keys → sideOrders s e !! k = Some q → p ∈ orders q →
           Order.ID (load rt p) ≠ orderID.
Proof.
  induction keys as [| k rest IH]; simpl.
  - split; [| done]. intros _ k q p Hk. by apply elem_of_nil in Hk.
  - destruct (sideOrders s e !! k) as [q |] eqn:Hq.
    + destruct (findOrder rt orderID (orders q)) as [i |] eqn:Hfind.
      * split; [done |]. intros H.
        apply findOrder_Some in Hfind as (p & Hp & Hid & _).
        destruct (H k q p); [by left | done | by eapply list_elem_of_lookup_2 | done].
      * rewrite IH. split.
        -- intros H k' q' p Hk' Hq' Hp.
           apply elem_of_cons in Hk' as [-> | Hk']; [| by eapply H].
           assert (q' = q) as -> by congruence.
           by eapply findOrder_None.
        -- intros H k' q' p Hk'. apply H. by right.
    + rewrite IH. split.
      * intros H k' q' p Hk' Hq' Hp.
        apply elem_of_cons in Hk' as [-> | Hk']; [congruence | by eapply H].
      * intros H k' q' p Hk'. apply H. by right.
Qed.

Lemma elem_of_keys (m : gmap Decimal OrderQueue) k :
  k ∈ map fst (map_to_list m) ↔ is_Some (m !! k).
Proof.
  change (map fst (map_to_list m)) with (fst <$> map_to_list m).
  rewrite list_elem_of_fmap. split.
  - intros ([k' q] & -> & Hin). apply elem_of_map_to_list in Hin. eauto.
  - intros [q Hq]. exists (k, q). split; [done |]. by apply elem_of_map_to_list.
Qed.


(** What a [CancelOrder] that succeeds has done. *)
Lemma cancelIn_Some s rt e orderID keys rt' e' :
  cancelIn s rt e orderID keys = Some (rt', e') →
  ∃ k q i p,
    sideOrders s e !! k = Some q ∧ orders q !! i = Some p ∧
    Order.ID (load rt p) = orderID ∧
    (∀ p', p' ∈ take i (orders q) → Order.ID (load rt p') ≠ orderID) ∧
    e' = setSideOrders s
           (<[k := mkOrderQueue (price q) (delete i (orders q))]> (sideOrders s e)) e ∧
    rt' = assign (assign rt p (Order.set_CancelledAt (Some (time_Now rt))))
                 p (Order.set_Status OrderStatusCancelled).
Proof.
  induction keys as [| k rest IH]; simpl; [done |].
  destruct (sideOrders s e !! k) as [q |] eqn:Hq; [| done].
  destruct (findOrder rt orderID (orders q)) as [i |] eqn:Hfind; [| done].
  intros [= <- <-].
  apply findOrder_Some in Hfind as (p & Hp & Hid & Hfirst).
  exists k, q, i, p. rewrite delete_take_drop.
  rewrite (nth_lookup_Some _ _ _ _ Hp). done.
Qed.

Lemma totalSize_exact rt os : ∀ acc,
  (decimal.toQ (totalSize rt os acc) == decimal.toQ acc + remaining rt os)%Q.
Proof.
  induction os as [| p rest IH]; intros acc; simpl; [ring |].
  rewrite IH, Add_exact. ring.
Qed.

Lemma priceLevels_spec s rt e prices :
  (∀ p, p ∈ prices → is_Some (sideOrders s e !! decimal.String p)) →
  ∃ levels,
    priceLevels s rt e prices = Some levels ∧
    map PriceLevel.Price levels = prices ∧
    Forall (fun level =>
              ∃ q, sideOrders s e !! decimal.String (PriceLevel.Price level) = Some q ∧
                   PriceLevel.OrderCount level = Z.of_nat (length (orders q)) ∧
                   (decimal.toQ (PriceLevel.TotalSize level) == remaining rt (orders q))%Q)
           levels.
Proof.
  induction prices as [| p rest IH]; intros Hidx; simpl.
  - exists []. by repeat split.
  - destruct (Hidx p) as [q Hq]; [by left |]. rewrite Hq.
    destruct IH as (levels & -> & Hp & Hall); [intros p' Hp'; apply Hidx; by right |].
    eexists. split; [done |]. simpl. split; [by rewrite Hp |].
    constructor; [| done]. exists q. simpl. split; [done |]. split; [done |].
    rewrite totalSize_exact. unfold decimal.toQ at 1; simpl. ring.
Qed.

End FillFacts.

(** ** The book is not left crossed *)

Section CrossFacts.

Lemma Orderly_Reachable e : Orderly e → Reachable e.
Proof.
  induction 1 as [m s | rt e order rt' e' ms _ IH _ Hrun
                 | backKeys layKeys rt e orderID rt' e' _ IH Hrun].
  - apply Reachable_NewEngine.
  - by apply (Reachable_PlaceOrder rt e order rt' e' ms).
  - by apply (Reachable_CancelOrder backKeys layKeys rt e orderID rt' e').
Qed.

Lemma same_levels_keyed e e' : same_levels e e' → book_keyed e → book_keyed e'.
Proof.
  intros Hs Hk s k q' Hq'. destruct (Hs s) as [Hps Hks]. specialize (Hks k).
  rewrite Hq' in Hks. destruct (sideOrders s e !! k) as [q |] eqn:Hq; [| done].
  simpl in Hks. injection Hks as Hp. rewrite Hps, Hp. by apply Hk.
Qed.

(** The book after [addBackOrder] or [addLayOrder]. *)
Lemma addOrder_orders s s' rt e order :
  let orderPrice := Order.Price (load rt order) in
  let queue := default (mkOrderQueue orderPrice [])
                       (sideOrders s e !! decimal.String orderPrice) in
  sideOrders s' (snd (addOrder s rt e order)) =
  if decide (s' = s)
  then <[decimal.String orderPrice := mkOrderQueue (price queue) (orders queue ++ [order])]>
         (sideOrders s e)
  else sideOrders s' e.
Proof.
  unfold addOrder.
  destruct s, s', e as [m1 m2 bo lo bp lp]; simpl;
    (destruct (_ !! _) as [q |]; simpl; rewrite ?insert_insert_eq; reflexivity).
Qed.

Lemma addOrder_prices s s' rt e order :
  let orderPrice := Order.Price (load rt order) in
  sidePrices s' (snd (addOrder s rt e order)) =
  if decide (s' = s)
  then match sideOrders s e !! decimal.String orderPrice with
       | Some _ => sidePrices s e
       | None => insertPrice s (sidePrices s e) orderPrice
       end
  else sidePrices s' e.
Proof.
  unfold addOrder.
  destruct s, s', e as [m1 m2 bo lo bp lp]; simpl;
    (destruct (_ !! _) as [q |]; reflexivity).
Qed.

Lemma addOrder_keyed s rt e order :
  book_keyed e → book_keyed (snd (addOrder s rt e order)).
Proof.
  intros Hk s' k' q'. rewrite addOrder_orders, addOrder_prices.
  case_decide as Hs; [subst s' |]; [| apply Hk].
  set (k := decimal.String (Order.Price (load rt order))).
  destruct (decide (k = k')) as [<- | Hne].
  - rewrite lookup_insert_eq. intros [= <-]. simpl.
    destruct (sideOrders s e !! k) as [q |] eqn:Hq; simpl.
    + by apply Hk.
    + split; [done |]. apply elem_of_insertPrice. by left.
  - rewrite lookup_insert_ne by done. intros Hq'.
    destruct (Hk s k' q' Hq') as [? ?]. split; [done |].
    destruct (sideOrders s e !! k); [done |]. apply elem_of_insertPrice. by right.
Qed.

Lemma book_keyed_NewEngine m s : book_keyed (NewEngine m s).
Proof. intros [] k q; simpl; by rewrite lookup_empty. Qed.

Lemma placeOrder_keyed own rt e order rt' e' ms :
  placeOrder own rt e order = Some (rt', e', ms) →
  book_indexed e → book_keyed e → book_keyed e'.
Proof.
  intros Hrun Hi Hk. unfold placeOrder in Hrun.
  destruct (matchLevels_same (opposite own) (sidePrices (opposite own) e) rt e order)
    as (rt1 & e1 & ms1 & Hwalk & Hsame).
  { intros p Hp. destruct (Hi _ p Hp) as (q & Hq & _). eauto. }
  rewrite Hwalk in Hrun. apply same_levels_keyed in Hsame; [| done].
  destruct (negb _).
  - pose proof (addOrder_keyed own rt1 e1 order Hsame) as Hadd.
    destruct (addOrder own rt1 e1 order) as [rt2 e2]. by injection Hrun as <- <- <-.
  - by injection Hrun as <- <- <-.
Qed.

Lemma Reachable_keyed e : Reachable e → book_keyed e.
Proof.
  induction 1 as [m s | rt e order rt' e' ms Hr IH Hrun
                 | backKeys layKeys rt e orderID rt' e' Hr IH Hrun].
  - apply book_keyed_NewEngine.
  - destruct (Reachable_book e Hr) as [Hi _].
    unfold PlaceOrder in Hrun. destruct (String.eqb _ _); by eapply placeOrder_keyed.
  - apply CancelOrderIn_same in Hrun. by eapply same_levels_keyed.
Qed.

Lemma shrinks_refl e : shrinks e e.
Proof. intros s k q Hq. by exists q. Qed.

Lemma shrinks_trans e1 e2 e3 : shrinks e1 e2 → shrinks e2 e3 → shrinks e1 e3.
Proof.
  intros H12 H23 s k q3 Hq3.
  destruct (H23 s k q3 Hq3) as (q2 & Hq2 & Hp2 & Hsub2).
  destruct (H12 s k q2 Hq2) as (q1 & Hq1 & Hp1 & Hsub1).
  exists q1. split; [done |]. split; [congruence |]. eauto.
Qed.

Lemma shrinks_write s k q q' e :
  sideOrders s e !! k = Some q → price q' = price q →
  (∀ p, p ∈ orders q' → p ∈ orders q) →
  shrinks e (setSideOrders s (<[k := q']> (sideOrders s e)) e).
Proof.
  intros Hq Hp Hsub s' k' q0. rewrite sideOrders_set.
  case_decide as Hs; [subst s' |]; [| intros Hq0; by exists q0].
  destruct (decide (k = k')) as [<- | Hne].
  - rewrite lookup_insert_eq. intros [= <-]. by exists q.
  - rewrite lookup_insert_ne by done. intros Hq0. by exists q0.
Qed.

Lemma Sub_diag d : decimal.IsZero (decimal.Sub d d) = true.
Proof. apply IsZero_toQ. rewrite Sub_exact. ring. Qed.

(** After a pairing with another order, nothing remains of the incoming
    order or nothing remains of the resting one. *)
Lemma iteration_fills e rt incoming existing matchPrice :
  incoming ≠ existing →
  let '(rt1, _, filled) := iteration e rt incoming existing matchPrice in
  filled = false → decimal.IsZero (Order.SizeRemaining (load rt1 incoming)) = true.
Proof.
  intros Hne. assert (existing ≠ incoming) as Hne' by done.
  unfold iteration, pairOrders. simpl.
  set (rt0 := mkRuntime (heap rt) (clock rt) (entropy rt + 1)%N).
  change (load rt0) with (load rt).
  set (a := Order.SizeRemaining (load rt incoming)).
  set (b := Order.SizeRemaining (load rt existing)).
  rewrite !load_assign. simpl.
  rewrite !(load_assign_ne _ incoming existing) by done.
  change (load rt0 existing) with (load rt existing). fold b.
  destruct (decimal.IsZero (decimal.Sub b (decimal.Min a b))) eqn:Hz; [done |].
  intros _. rewrite !(load_assign_ne _ existing incoming) by done.
  rewrite !load_assign. simpl. change (load rt0 incoming) with (load rt incoming). fold a.
  destruct (Min_spec a b) as [[Hm | Hm] _]; rewrite Hm in *; [apply Sub_diag |].
  by rewrite Sub_diag in Hz.
Qed.

(** The loop over a level ends with nothing remaining of the incoming order
    or with the level empty. *)
Lemma matchLoop_exhausts e incoming matchPrice todo : ∀ rt kept,
  incoming ∉ todo →
  let '(rt', os, _) := matchLoop e rt incoming matchPrice kept todo in
  decimal.IsZero (Order.SizeRemaining (load rt' incoming)) = false → os = kept.
Proof.
  induction todo as [| existing rest IH]; intros rt kept Hnot; simpl; [done |].
  destruct (decimal.IsZero _) eqn:Hz; [by rewrite Hz |].
  apply not_elem_of_cons in Hnot as [Hne Hnot].
  pose proof (iteration_fills e rt incoming existing matchPrice Hne) as Hf.
  destruct (iteration e rt incoming existing matchPrice) as [[rt1 m] filled].
  specialize (IH rt1 (if filled then kept else kept ++ [existing]) Hnot).
  destruct filled.
  - by destruct (matchLoop e rt1 incoming matchPrice kept rest) as [[rt2 os] ms].
  - specialize (Hf eq_refl). destruct rest as [| x rest']; simpl in *; rewrite ?Hf; congruence.
Qed.

Lemma not_rests_in_write opp e order k q q' :
  ¬ rests_in opp e order → sideOrders opp e !! k = Some q →
  (∀ p, p ∈ orders q' → p ∈ orders q) →
  ¬ rests_in opp (setSideOrders opp (<[k := q']> (sideOrders opp e)) e) order.
Proof.
  intros Hnot Hq Hsub (k0 & q0 & Hq0 & Hin).
  rewrite sideOrders_set, decide_True in Hq0 by done.
  destruct (decide (k = k0)) as [<- | Hne].
  - rewrite lookup_insert_eq in Hq0. injection Hq0 as <-.
    apply Hnot. exists k, q. eauto.
  - rewrite lookup_insert_ne in Hq0 by done. apply Hnot. by exists k0, q0.
Qed.

Lemma sideOrders_set_ne s s' m e : s' ≠ s → sideOrders s' (setSideOrders s m e) = sideOrders s' e.
Proof. intros Hne. rewrite sideOrders_set. by rewrite decide_False. Qed.

(** The walk only takes orders out of the queues of the half it walks. *)
Lemma matchLevels_shrinks opp order prices : ∀ rt e rt' e' ms,
  matchLevels opp rt e order prices = Some (rt', e', ms) →
  shrinks e e' ∧ ∀ s, s ≠ opp → sideOrders s e' = sideOrders s e.
Proof.
  induction prices as [| p rest IH]; intros rt e rt' e' ms; simpl.
  { intros [= <- <- <-]. split; [apply shrinks_refl | done]. }
  destruct (decimal.IsZero _); [intros [= <- <- <-]; split; [apply shrinks_refl | done] |].
  destruct (cannotMatch _ _ _); [intros [= <- <- <-]; split; [apply shrinks_refl | done] |].
  destruct (sideOrders opp e !! _) as [q |] eqn:Hq; [| done].
  pose proof (matchLoop_subset e order p (orders q) rt []) as Hsub.
  unfold matchOrders.
  destruct (matchLoop e rt order p [] (orders q)) as [[rt1 os1] ms1]; simpl in *.
  destruct (matchLevels opp rt1 _ order rest) as [[[rt2 e2] ms2] |] eqn:Hrest; [| done].
  intros [= <- <- <-]. apply IH in Hrest as [Hs Hown].
  split.
  - eapply shrinks_trans; [| exact Hs].
    apply (shrinks_write opp _ q); [done | done |].
    intros x Hx. simpl in Hx. destruct (Hsub x Hx) as [Hk | Hk]; [| done].
    by apply elem_of_nil in Hk.
  - intros s Hne. rewrite Hown by done. by apply sideOrders_set_ne.
Qed.

(** If something remains of the incoming order after the walk, every level
    it could be matched at is empty. *)
Lemma matchLevels_exhausts opp order prices : ∀ rt e rt' e' ms,
  StronglySorted (priority opp) prices →
  ¬ rests_in opp e order →
  matchLevels opp rt e order prices = Some (rt', e', ms) →
  decimal.IsZero (Order.SizeRemaining (load rt' order)) = false →
  ∀ p q, p ∈ prices → cannotMatch opp (Order.Price (load rt order)) p = false →
         sideOrders opp e' !! decimal.String p = Some q → orders q = [].
Proof.
  induction prices as [| p0 rest IH]; intros rt e rt' e' ms Hsorted Hnot; simpl.
  { intros _ _ p q Hp. by apply elem_of_nil in Hp. }
  apply StronglySorted_inv in Hsorted as [Hsorted Hall].
  destruct (decimal.IsZero _) eqn:Hz; [intros [= <- <- <-]; congruence |].
  destruct (cannotMatch _ _ p0) eqn:Hcross.
  { intros [= <- <- <-] _ p q Hp Hc. exfalso.
    apply elem_of_cons in Hp as [-> | Hp]; [congruence |].
    rewrite Forall_forall in Hall.
    pose proof (cannotMatch_earlier opp _ p0 p (Hall p Hp) Hc). congruence. }
  destruct (sideOrders opp e !! _) as [q0 |] eqn:Hq0; [| done].
  assert (order ∉ orders q0) as Hout
    by (intros Hin; apply Hnot; by exists (decimal.String p0), q0).
  pose proof (matchLoop_exhausts e order p0 (orders q0) rt [] Hout) as Hex.
  pose proof (matchLoop_subset e order p0 (orders q0) rt []) as Hsub.
  pose proof (matchLoop_evolves e order p0 (orders q0) rt []) as [_ Hev].
  unfold matchOrders.
  destruct (matchLoop e rt order p0 [] (orders q0)) as [[rt1 os1] ms1]; simpl in *.
  set (e1 := setSideOrders opp _ e).
  destruct (matchLevels opp rt1 e1 order rest) as [[[rt2 e2] ms2] |] eqn:Hrest; [| done].
  intros [= <- <- <-] Hnz p q Hp Hc Hq.
  destruct (decimal.IsZero (Order.SizeRemaining (load rt1 order))) eqn:Hz1.
  { rewrite matchLevels_zero in Hrest by done. injection Hrest as <- <- <-. congruence. }
  specialize (Hex eq_refl). subst os1.
  assert (¬ rests_in opp e1 order) as Hnot1.
  { apply (not_rests_in_write opp e order _ q0); [done | done |].
    intros x Hx. by apply elem_of_nil in Hx. }
  apply elem_of_cons in Hp as [-> | Hp].
  - destruct (matchLevels_shrinks _ _ _ _ _ _ _ _ Hrest) as [Hs _].
    destruct (Hs opp _ q Hq) as (q1 & Hq1 & _ & Hsub1).
    unfold e1 in Hq1. rewrite sideOrders_set, decide_True, lookup_insert_eq in Hq1 by done.
    injection Hq1 as <-. simpl in Hsub1.
    destruct (orders q) as [| x xs]; [done |].
    specialize (Hsub1 x). exfalso. eapply not_elem_of_nil. apply Hsub1. by left.
  - eapply (IH rt1 e1); try done.
    by destruct (Hev order) as (_&_&_&_&_&<-&_).
Qed.

Lemma shrinks_uncrossed e e' : shrinks e e' → uncrossed e → uncrossed e'.
Proof.
  intros Hs Hu kb qb kl ql Hqb Hnb Hql Hnl.
  destruct (Hs BackSide kb qb Hqb) as (qb0 & Hqb0 & -> & Hsubb).
  destruct (Hs LaySide kl ql Hql) as (ql0 & Hql0 & -> & Hsubl).
  apply (Hu kb qb0 kl ql0); try done.
  - intros Hnil. destruct (orders qb) as [| x xs]; [done |].
    rewrite Hnil in Hsubb. eapply not_elem_of_nil. apply Hsubb. by left.
  - intros Hnil. destruct (orders ql) as [| x xs]; [done |].
    rewrite Hnil in Hsubl. eapply not_elem_of_nil. apply Hsubl. by left.
Qed.

Lemma String_eq_Equal d d2 :
  decimal.String d = decimal.String d2 → decimal.Equal d d2 = true.
Proof.
  intros Heq. eapply Equal_trans; [apply Equal_sym, String_Equal |].
  rewrite Heq. apply String_Equal.
Qed.

(** A level the order could not be matched at lies strictly beyond a level
    at the order's own price. *)
Lemma cannotMatch_beyond own orderPrice levelPrice other :
  decimal.Equal levelPrice orderPrice = true →
  cannotMatch (opposite own) orderPrice other = true →
  match own with
  | BackSide => decimal.LessThan levelPrice other = true
  | LaySide => decimal.LessThan other levelPrice = true
  end.
Proof.
  rewrite Equal_toQ. intros Heq.
  destruct own; simpl; rewrite ?GreaterThan_toQ, !LessThan_toQ, Heq; done.
Qed.

Lemma placeOrder_uncrossed own rt e order rt' e' ms :
  book_indexed e → book_keyed e → book_sorted e → uncrossed e →
  ¬ rests_in (opposite own) e order →
  placeOrder own rt e order = Some (rt', e', ms) → uncrossed e'.
Proof.
  intros Hi Hk Hsorted Hu Hnot. unfold placeOrder.
  destruct (matchLevels_same (opposite own) (sidePrices (opposite own) e) rt e order)
    as (rt1 & e1 & ms1 & Hwalk & Hsame).
  { intros p Hp. destruct (Hi _ p Hp) as (q & Hq & _). eauto. }
  rewrite Hwalk.
  destruct (matchLevels_shrinks _ _ _ _ _ _ _ _ Hwalk) as [Hs Hown].
  pose proof (shrinks_uncrossed _ _ Hs Hu) as Hu1.
  pose proof (same_levels_keyed _ _ Hsame Hk) as Hk1.
  pose proof (matchLevels_exhausts _ _ _ _ _ _ _ _ (Hsorted (opposite own)) Hnot Hwalk) as Hex.
  pose proof (matchLevels_evolves _ _ _ _ _ _ _ _ Hwalk) as [_ Hev].
  destruct (decimal.IsZero (Order.SizeRemaining (load rt1 order))) eqn:Hz; simpl.
  { by intros [= <- <- <-]. }
  specialize (Hex eq_refl).
  pose proof (addOrder_orders own BackSide rt1 e1 order) as Hback.
  pose proof (addOrder_orders own LaySide rt1 e1 order) as Hlay.
  destruct (addOrder own rt1 e1 order) as [rt2 e2]; simpl in *.
  intros Hrun. injection Hrun as _ He' _. subst e'.
  set (orderPrice := Order.Price (load rt1 order)) in *.
  set (k := decimal.String orderPrice) in *.
  set (q0 := default (mkOrderQueue orderPrice []) (sideOrders own e1 !! k)) in *.
  assert (decimal.Equal (price q0) orderPrice = true) as Hq0.
  { unfold q0. destruct (sideOrders own e1 !! k) as [q |] eqn:Hq; simpl.
    - apply String_eq_Equal. by destruct (Hk1 own k q Hq) as [-> _].
    - apply Equal_refl. }
  assert (∀ ko qo, sideOrders (opposite own) e1 !! ko = Some qo → orders qo ≠ [] →
            cannotMatch (opposite own) orderPrice (price qo) = true) as Hbeyond.
  { intros ko qo Hqo Hne. apply not_false_is_true. intros Hc.
    destruct (Hk1 _ ko qo Hqo) as [Hkey Hlisted].
    destruct (Hsame (opposite own)) as [Hps _]. rewrite Hps in Hlisted.
    apply Hne, (Hex (price qo) qo Hlisted).
    - unfold orderPrice in Hc. by destruct (Hev order) as (_&_&_&_&_&->&_).
    - by rewrite Hkey. }
  intros kb qb kl ql Hqb Hnb Hql Hnl.
  rewrite Hback in Hqb. rewrite Hlay in Hql.
  destruct own; simpl in *.
  - destruct (decide (k = kb)) as [<- | Hne].
    + rewrite lookup_insert_eq in Hqb. injection Hqb as <-. simpl.
      apply (cannotMatch_beyond BackSide orderPrice); [done |]. by eapply Hbeyond.
    + rewrite lookup_insert_ne in Hqb by done. by eapply Hu1.
  - destruct (decide (k = kl)) as [<- | Hne].
    + rewrite lookup_insert_eq in Hql. injection Hql as <-. simpl.
      apply (cannotMatch_beyond LaySide orderPrice); [done |]. by eapply Hbeyond.
    + rewrite lookup_insert_ne in Hql by done. by eapply Hu1.
Qed.

Lemma cancelIn_shrinks s rt e orderID keys rt' e' :
  cancelIn s rt e orderID keys = Some (rt', e') → shrinks e e'.
Proof.
  intros Hrun. apply cancelIn_Some in Hrun as (k & q & i & p & Hq & _ & _ & _ & -> & _).
  apply (shrinks_write s k q); [done | done |]. simpl.
  intros x Hx. eapply elem_of_sublist; [exact Hx | apply sublist_delete].
Qed.

Lemma CancelOrderIn_shrinks backKeys layKeys rt e orderID rt' e' :
  CancelOrderIn backKeys layKeys rt e orderID = Some (rt', e') → shrinks e e'.
Proof.
  unfold CancelOrderIn.
  destruct (cancelIn BackSide rt e orderID backKeys) as [[rt1 e1] |] eqn:Hb.
  - intros [= <- <-]. eauto using cancelIn_shrinks.
  - eauto using cancelIn_shrinks.
Qed.


End CrossFacts.

(** ** The matching engine *)

Lemma placeAll_Orderly os : ∀ rt e,
  Orderly e → freshAll os rt e = true → Orderly (snd (placeAll os rt e)).
Proof.
  induction os as [| order rest IH]; intros rt e Ho; simpl; [done |].
  intros Hfresh. apply andb_prop in Hfresh as [Hfree Hrest].
  destruct (PlaceOrder rt e order) as [[[rt' e'] ms] |] eqn:Hrun; [| done].
  apply IH; [| done]. apply (Orderly_PlaceOrder rt e order rt' e' ms); [done | | done].
  intros (k & q & Hq & Hin). apply bool_decide_eq_true in Hfree.
  by apply (Hfree k q Hq).
Qed.

Lemma not_rests_in_decide s e p :
  bool_decide (map_Forall (fun _ q => p ∉ orders q) (sideOrders s e)) = true →
  ¬ rests_in s e p.
Proof.
  intros Hfree (k & q & Hq & Hin). apply bool_decide_eq_true in Hfree.
  by apply (Hfree k q Hq).
Qed.

Lemma Orderly_restingBook : Orderly (snd restingBook).
Proof. apply placeAll_Orderly; [apply Orderly_NewEngine | vm_compute; reflexivity]. Qed.

Lemma Reachable_restingBook : Reachable (snd restingBook).
Proof. apply Orderly_Reachable, Orderly_restingBook. Qed.

Lemma ranges_over_keys m : ranges_over (map fst (map_to_list m)) m.
Proof. intros k. apply elem_of_keys. Qed.

(** X1.  On every book there is, the back prices descend strictly and the
    lay prices ascend strictly, as numbers: [addBackOrder] and [addLayOrder]
    insert a price only when no level has its numeral for a key, so no two
    levels of a half have the same price. *)
Theorem prices_strictly_sorted e : Reachable e → book_strict e.
Proof.
  induction 1 as [m s | rt e order rt' e' ms Hr IH Hrun
                 | backKeys layKeys rt e orderID rt' e' Hr IH Hrun].
  - intros []; constructor.
  - destruct (Reachable_book e Hr) as [Hi _].
    unfold PlaceOrder in Hrun. destruct (String.eqb _ _); by eapply placeOrder_strict.
  - apply CancelOrderIn_same in Hrun. by eapply same_levels_strict.
Qed.

(** X1 at the book of [restingBook], whose two orders at 2.0 and 2.00 share
    a level. *)
Lemma prices_strictly_sorted_witness :
  Reachable (snd restingBook) ∧ book_strict (snd restingBook).
Proof.
  split; [apply Reachable_restingBook |].
  apply (prices_strictly_sorted (snd restingBook)), Reachable_restingBook.
Defined.









(** X6.  Time priority: [matchOrders] pairs the incoming order with the
    orders of the queue from its head, one after the other and skipping
    none, and leaves the orders it did not reach in their order at the end
    of the queue. *)
Theorem matchOrders_first_in_first_out e rt incoming queue matchPrice :
  let '(_, queue', ms) := matchOrders e rt incoming queue matchPrice in
  map (counterparty (Order.Side (load rt incoming))) ms =
    map (fun p => Order.ID (load rt p)) (take (length ms) (orders queue)) ∧
  ∃ kept, orders queue' = kept ++ drop (length ms) (orders queue).
Proof.
  unfold matchOrders.
  pose proof (matchLoop_fifo e incoming matchPrice (orders queue) rt []) as H.
  by destruct (matchLoop e rt incoming matchPrice [] (orders queue)) as [[rt' os] ms].
Qed.

(** X7.  An order of which nothing remains is not walked over the book,
    whatever the book: [Engine.PlaceOrder] returns no match, leaves the book
    as it was, and marks the order MATCHED, matched now. *)
Theorem PlaceOrder_nothing_remaining rt e order :
  decimal.IsZero (Order.SizeRemaining (load rt order)) = true →
  PlaceOrder_gives rt e order (fun rt' e' ms =>
    e' = e ∧ ms = [] ∧
    Order.Status (load rt' order) = OrderStatusMatched ∧
    Order.MatchedAt (load rt' order) = Some (time_Now rt)).
Proof.
  intros Hz. unfold PlaceOrder_gives, PlaceOrder, placeBackOrder, placeLayOrder, placeOrder.
  destruct (String.eqb _ _); rewrite matchLevels_zero by done; rewrite Hz; simpl;
    eexists _, _, _; (split; [reflexivity |]); rewrite !load_assign; done.
Qed.

(** X7 at the back order of size zero of [sixOrders]. *)
Lemma PlaceOrder_nothing_remaining_witness :
  decimal.IsZero (Order.SizeRemaining (load (fst restingBook) 6%nat)) = true ∧
  PlaceOrder_gives (fst restingBook) (snd restingBook) 6%nat (fun rt' e' ms =>
    e' = snd restingBook ∧ ms = [] ∧
    Order.Status (load rt' 6%nat) = OrderStatusMatched ∧
    Order.MatchedAt (load rt' 6%nat) = Some (time_Now (fst restingBook))).
Proof.
  split; [vm_compute; reflexivity |].
  apply (PlaceOrder_nothing_remaining (fst restingBook) (snd restingBook) 6%nat).
  vm_compute; reflexivity.
Defined.

(** X8.  In whatever order the two maps are ranged over,
    [Engine.CancelOrder] fails, with "order not found", exactly when no
    order that rests in the book carries the id. *)
Theorem CancelOrder_fails_iff_absent backKeys layKeys rt e orderID :
  ranges_over backKeys (backOrders e) → ranges_over layKeys (layOrders e) →
  CancelOrderIn backKeys layKeys rt e orderID = None ↔ absent rt e orderID.
Proof.
  intros Hback Hlay. unfold CancelOrderIn, absent.
  destruct (cancelIn BackSide rt e orderID backKeys) as [r |] eqn:Hb.
  - split; [done |]. intros H.
    assert (cancelIn BackSide rt e orderID backKeys = None) as Hn; [| congruence].
    apply cancelIn_None. intros k q p _ Hq Hp. apply (H BackSide). by exists k, q.
  - rewrite cancelIn_None in Hb. rewrite cancelIn_None. split.
    + intros Hl [] p (k & q & Hq & Hp).
      * eapply Hb; [| exact Hq | exact Hp]. apply Hback. eauto.
      * eapply Hl; [| exact Hq | exact Hp]. apply Hlay. eauto.
    + intros H k q p _ Hq Hp. apply (H LaySide). by exists k, q.
Qed.

(** X8 at the book of [restingBook] and an id no order has. *)
Lemma CancelOrder_fails_iff_absent_witness :
  (ranges_over (map fst (map_to_list (backOrders (snd restingBook))))
               (backOrders (snd restingBook)) ∧
   ranges_over (map fst (map_to_list (layOrders (snd restingBook))))
               (layOrders (snd restingBook))) ∧
  (CancelOrder (fst restingBook) (snd restingBook) 9 = None ↔
   absent (fst restingBook) (snd restingBook) 9).
Proof.
  split; [split; apply ranges_over_keys |].
  apply (CancelOrder_fails_iff_absent
           (map fst (map_to_list (backOrders (snd restingBook))))
           (map fst (map_to_list (layOrders (snd restingBook))))
           (fst restingBook) (snd restingBook) 9); apply ranges_over_keys.
Defined.

(** X9.  An [Engine.CancelOrder] that succeeds has taken one order out of
    one queue, the first of that queue that carries the id, has set its
    cancellation time and its status CANCELLED, and has written nothing else
    to the book or to the store. *)
Theorem CancelOrder_removes_first backKeys layKeys rt e orderID rt' e' :
  CancelOrderIn backKeys layKeys rt e orderID = Some (rt', e') →
  cancelled rt e orderID rt' e'.
Proof.
  unfold CancelOrderIn.
  destruct (cancelIn BackSide rt e orderID backKeys) as [[rt1 e1] |] eqn:Hb.
  - intros [= <- <-]. apply cancelIn_Some in Hb as (k & q & i & p & H).
    by exists BackSide, k, q, i, p.
  - intros Hl. apply cancelIn_Some in Hl as (k & q & i & p & H).
    by exists LaySide, k, q, i, p.
Qed.

(** X9 at the second order of the level 2 of [restingBook]. *)
Lemma CancelOrder_removes_first_witness :
  ∃ rt' e', CancelOrder (fst restingBook) (snd restingBook) 3 = Some (rt', e') ∧
            cancelled (fst restingBook) (snd restingBook) 3 rt' e'.
Proof.
  destruct (CancelOrder (fst restingBook) (snd restingBook) 3) as [[rt' e'] |] eqn:Hrun.
  - exists rt', e'. split; [done |].
    exact (CancelOrder_removes_first _ _ _ _ _ _ _ Hrun).
  - vm_compute in Hrun. discriminate.
Defined.

(** X10.  On every book there is, [Engine.GetMarketBook] returns, with one
    level for each price of each half, in the order of the prices, emptied
    levels included; a level carries the number of orders of its queue and a
    total size that is, as a number, the sum of what remains of them. *)
Theorem GetMarketBook_levels rt e : Reachable e → book_viewed rt e.
Proof.
  intros Hr. destruct (Reachable_book e Hr) as [Hi _]. unfold book_viewed, GetMarketBook.
  destruct (priceLevels_spec BackSide rt e (backPrices e)) as (back & -> & Hback).
  { intros p Hp. destruct (Hi BackSide p Hp) as (q & Hq & _). eauto. }
  destruct (priceLevels_spec LaySide rt e (layPrices e)) as (lay & -> & Hlay).
  { intros p Hp. destruct (Hi LaySide p Hp) as (q & Hq & _). eauto. }
  eexists. split; [done |]. done.
Qed.

(** X10 at [restingBook]. *)
Lemma GetMarketBook_levels_witness :
  Reachable (snd restingBook) ∧ book_viewed (fst restingBook) (snd restingBook).
Proof.
  split; [apply Reachable_restingBook |].
  apply (GetMarketBook_levels (fst restingBook) (snd restingBook)), Reachable_restingBook.
Defined.

(** X11.  The book is never left crossed.  On every book made by placing
    orders that do not rest on the other side already and by cancelling,
    whatever the callers write to the store in between, the price of a back
    level where an order rests is below the price of every lay level where
    an order rests: an order that could be matched is matched before it, or
    what remains of it, rests. *)
Theorem book_stays_uncrossed e : Orderly e → uncrossed e.
Proof.
  induction 1 as [m s | rt e order rt' e' ms Ho IH Hnot Hrun
                 | backKeys layKeys rt e orderID rt' e' Ho IH Hrun].
  - intros kb qb kl ql Hqb. simpl in Hqb. by rewrite lookup_empty in Hqb.
  - pose proof (Orderly_Reachable e Ho) as Hr.
    destruct (Reachable_book e Hr) as [Hi Hs].
    pose proof (Reachable_keyed e Hr) as Hk.
    unfold PlaceOrder, ownSide in *.
    destruct (String.eqb _ _); by eapply placeOrder_uncrossed.
  - eapply shrinks_uncrossed; [| exact IH]. by eapply CancelOrderIn_shrinks.
Qed.

(** X11 at [restingBook], where a back order rests below the lay orders. *)
Lemma book_stays_uncrossed_witness :
  Orderly (snd restingBook) ∧ uncrossed (snd restingBook).
Proof.
  split; [apply Orderly_restingBook |].
  apply (book_stays_uncrossed (snd restingBook)), Orderly_restingBook.
Defined.

(** ** The service, the repositories and the handler *)

(** *** The service: what a failed call leaves *)

Section AtomicFacts.
Variable sha256_hex : RequestJSON -> string.

Lemma tx_Exec_db op f w : db (snd (tx_Exec op f w)) = db w.
Proof.
  unfold tx_Exec. destruct (tx w); [| done].
  destruct (faults w op); [done |]. by destruct (f d).
Qed.

Lemma initOrder_db w o : db (snd (initOrder w o)) = db w.
Proof. unfold initOrder. by destruct (N.eqb _ _). Qed.

Lemma orderRepo_Create_db w o : db (snd (orderRepo_Create w o)) = db w.
Proof.
  unfold orderRepo_Create.
  pose proof (initOrder_db (call OpOrderCreate w) o) as Hi.
  destruct (initOrder (call OpOrderCreate w) o) as [o1 w1]; simpl in Hi.
  pose proof (tx_Exec_db OpOrderCreate
    (fun t => match orders_table t !! Order.ID o1 with
              | Some _ => Err ErrUniqueViolation
              | None =>
                  if keyTaken (uniqueKey w1) t (Order.IdempotencyKey o1)
                  then Err ErrUniqueViolation
                  else Ok (set_orders_table
                             (<[Order.ID o1 := insertedRow o1]> (orders_table t)) t)
              end) w1) as He.
  destruct (tx_Exec _ _ w1) as [[[] | e] w2]; simpl in *; [congruence |].
  destruct e; simpl; congruence.
Qed.

Lemma outboxRepo_Create_db w ev : db (snd (outboxRepo_Create w ev)) = db w.
Proof.
  unfold outboxRepo_Create.
  destruct (N.eqb _ _); simpl;
    match goal with |- context [tx_Exec ?op ?f ?w0] =>
      pose proof (tx_Exec_db op f w0) as He; destruct (tx_Exec op f w0) as [[[] | e] w2]
    end; simpl in *; congruence.
Qed.

Lemma StoreInTransaction_db w key h data ttl :
  db (snd (idempotencyRepo_StoreInTransaction w key h data ttl)) = db w.
Proof.
  unfold idempotencyRepo_StoreInTransaction.
  match goal with |- context [tx_Exec ?op ?f ?w0] =>
    pose proof (tx_Exec_db op f w0) as He; destruct (tx_Exec op f w0) as [[[] | e] w2]
  end; simpl in *; congruence.
Qed.

Lemma GetByIDForUpdate_db w id : db (snd (orderRepo_GetByIDForUpdate w id)) = db w.
Proof.
  unfold orderRepo_GetByIDForUpdate. simpl. destruct (tx w); [| done].
  destruct (faults w _); [done |]. by destruct (_ !! _).
Qed.

Lemma orderRepo_Update_db w o : db (snd (orderRepo_Update w o)) = db w.
Proof.
  unfold orderRepo_Update. simpl. destruct (tx w); [| done].
  destruct (faults w _); [done |]. destruct (_ !! _); [| done]. by destruct (_ =? _).
Qed.

Lemma tx_Commit_Err w err w' : tx_Commit w = (Err err, w') → db w' = db w.
Proof.
  unfold tx_Commit. simpl. destruct (tx w); [| by intros [= _ <-]].
  destruct (faults w OpCommit); [by intros [= _ <-] | done].
Qed.

Lemma Check_db w key h : db (snd (idempotencyRepo_Check w key h)) = db w.
Proof.
  unfold idempotencyRepo_Check. simpl. destruct (faults w _); [done |].
  destruct (_ !! _); [| done]. destruct (_ <? _); [| done]. by destruct (negb _).
Qed.

Lemma db_Begin_db w : db (snd (db_Begin w)) = db w.
Proof. unfold db_Begin. simpl. by destruct (faults w OpBegin). Qed.

(** The shape of the errors of [Check]. *)
Lemma Check_error w key h err :
  snd (fst (idempotencyRepo_Check w key h)) = Some err →
  err = ErrIdempotencyMismatch ∨ wrapped err.
Proof.
  unfold idempotencyRepo_Check. simpl. destruct (faults w _).
  { simpl. intros [= <-]. right. by eexists _, _. }
  destruct (_ !! _); [| done]. destruct (_ <? _); [| done].
  destruct (negb _); [| done]. simpl. intros [= <-]. by left.
Qed.

Lemma placeOrderInTx_Err w req h err w' :
  service.placeOrderInTx w req h = (Err err, w') → wrapped err ∧ db w' = db w.
Proof.
  unfold service.placeOrderInTx.
  destruct (world_uuid_New w) as [id w0] eqn:Hid.
  assert (db w0 = db w) as H0 by (by injection Hid as _ <-).
  match goal with |- context [orderRepo_Create w0 ?o] =>
    pose proof (orderRepo_Create_db w0 o) as H1;
    destruct (orderRepo_Create w0 o) as [[o1 [e1 |]] w1] end; simpl in H1.
  { intros [= <- <-]. split; [by eexists _, _ | congruence]. }
  match goal with |- context [outboxRepo_Create w1 ?ev] =>
    pose proof (outboxRepo_Create_db w1 ev) as H2;
    destruct (outboxRepo_Create w1 ev) as [[e2 |] w2] end; simpl in H2.
  { intros [= <- <-]. split; [by eexists _, _ | congruence]. }
  match goal with |- context [idempotencyRepo_StoreInTransaction w2 ?k ?hh ?d ?t] =>
    pose proof (StoreInTransaction_db w2 k hh d t) as H3;
    destruct (idempotencyRepo_StoreInTransaction w2 k hh d t) as [[e3 |] w3] end; simpl in H3.
  { intros [= <- <-]. split; [by eexists _, _ | congruence]. }
  destruct (tx_Commit w3) as [[[] | e4] w4] eqn:Hc; [done |].
  apply tx_Commit_Err in Hc. intros [= <- <-]. split; [by eexists _, _ | congruence].
Qed.

Lemma cancelOrderInTx_Err w req h err w' :
  service.cancelOrderInTx w req h = (Some err, w') → cancel_error err ∧ db w' = db w.
Proof.
  unfold service.cancelOrderInTx, cancel_error.
  pose proof (GetByIDForUpdate_db w (CancelOrderRequest.OrderID req)) as H0.
  destruct (orderRepo_GetByIDForUpdate w _) as [[o | e0] w0]; simpl in H0.
  2: { destruct e0; intros [= <- <-]; (split; [| congruence]);
         first [by right; left | left; by eexists _, _]. }
  destruct (negb _ && negb _).
  { intros [= <- <-]. split; [right; right; by eexists | congruence]. }
  match goal with |- context [orderRepo_Update w0 ?o'] =>
    pose proof (orderRepo_Update_db w0 o') as H1;
    destruct (orderRepo_Update w0 o') as [[o1 [e1 |]] w1] end; simpl in H1.
  { intros [= <- <-]. split; [left; by eexists _, _ | congruence]. }
  match goal with |- context [outboxRepo_Create w1 ?ev] =>
    pose proof (outboxRepo_Create_db w1 ev) as H2;
    destruct (outboxRepo_Create w1 ev) as [[e2 |] w2] end; simpl in H2.
  { intros [= <- <-]. split; [left; by eexists _, _ | congruence]. }
  match goal with |- context [idempotencyRepo_StoreInTransaction w2 ?k ?hh ?d ?t] =>
    pose proof (StoreInTransaction_db w2 k hh d t) as H3;
    destruct (idempotencyRepo_StoreInTransaction w2 k hh d t) as [[e3 |] w3] end; simpl in H3.
  { intros [= <- <-]. split; [left; by eexists _, _ | congruence]. }
  destruct (tx_Commit w3) as [[[] | e4] w4] eqn:Hc; [done |].
  apply tx_Commit_Err in Hc. intros [= <- <-]. split; [left; by eexists _, _ | congruence].
Qed.

Lemma settleOrderInTx_Err w req h err w' :
  service.settleOrderInTx w req h = (Some err, w') → wrapped err ∧ db w' = db w.
Proof.
  unfold service.settleOrderInTx.
  pose proof (GetByIDForUpdate_db w (SettleOrderRequest.OrderID req)) as H0.
  destruct (orderRepo_GetByIDForUpdate w _) as [[o | e0] w0]; simpl in H0.
  2: { intros [= <- <-]. split; [by eexists _, _ | congruence]. }
  match goal with |- context [orderRepo_Update w0 ?o'] =>
    pose proof (orderRepo_Update_db w0 o') as H1;
    destruct (orderRepo_Update w0 o') as [[o1 [e1 |]] w1] end; simpl in H1.
  { intros [= <- <-]. split; [by eexists _, _ | congruence]. }
  match goal with |- context [outboxRepo_Create w1 ?ev] =>
    pose proof (outboxRepo_Create_db w1 ev) as H2;
    destruct (outboxRepo_Create w1 ev) as [[e2 |] w2] end; simpl in H2.
  { intros [= <- <-]. split; [by eexists _, _ | congruence]. }
  match goal with |- context [idempotencyRepo_StoreInTransaction w2 ?k ?hh ?d ?t] =>
    pose proof (StoreInTransaction_db w2 k hh d t) as H3;
    destruct (idempotencyRepo_StoreInTransaction w2 k hh d t) as [[e3 |] w3] end; simpl in H3.
  { intros [= <- <-]. split; [by eexists _, _ | congruence]. }
  destruct (tx_Commit w3) as [[[] | e4] w4] eqn:Hc; [done |].
  apply tx_Commit_Err in Hc. intros [= <- <-]. split; [by eexists _, _ | congruence].
Qed.

End AtomicFacts.

Section ErrorFacts.
Variable sha256_hex : RequestJSON -> string.

Lemma PlaceOrder_Err w req err w' :
  service.PlaceOrder sha256_hex w req = (Err err, w') →
  (err = ErrIdempotencyMismatch ∨ wrapped err) ∧ db w' = db w.
Proof.
  unfold service.PlaceOrder. destruct (negb _).
  { intros [= <- <-]. split; [right; by eexists _, _ | done]. }
  match goal with |- context [idempotencyRepo_Check w ?k ?h] =>
    pose proof (Check_db w k h) as H0; pose proof (Check_error w k h) as He;
    destruct (idempotencyRepo_Check w k h) as [[[data found] [e0 |]] w0] end;
    simpl in H0, He.
  { destruct (He e0 eq_refl) as [-> | Hw].
    - destruct found; simpl; intros [= <- <-]; (split; [by left | done]).
    - destruct found, e0; intros [= <- <-]; (split; [| done]);
        first [by left | right; by eexists _, _]. }
  destruct found.
  { destruct (json_Unmarshal data Order.zero); intros [= <- <-].
    split; [right; by eexists _, _ | done]. }
  pose proof (db_Begin_db w0) as H1.
  destruct (db_Begin w0) as [[[] | e1] w1]; simpl in H1.
  2: { intros [= <- <-]. split; [right; by eexists _, _ | congruence]. }
  destruct (service.placeOrderInTx w1 req _) as [r w2] eqn:Hrun.
  intros [= -> <-]. apply placeOrderInTx_Err in Hrun as [Hw Hdb].
  split; [by right | simpl; congruence].
Qed.

Lemma CancelOrder_Err w req err w' :
  service.CancelOrder sha256_hex w req = (Some err, w') →
  (err = ErrIdempotencyMismatch ∨ cancel_error err) ∧ db w' = db w.
Proof.
  unfold service.CancelOrder. destruct (negb _).
  { intros [= <- <-]. split; [right; left; by eexists _, _ | done]. }
  match goal with |- context [idempotencyRepo_Check w ?k ?h] =>
    pose proof (Check_db w k h) as H0; pose proof (Check_error w k h) as He;
    destruct (idempotencyRepo_Check w k h) as [[[data found] [e0 |]] w0] end;
    simpl in H0, He.
  { destruct (He e0 eq_refl) as [-> | Hw].
    - destruct found; simpl; intros [= <- <-]; (split; [by left | done]).
    - destruct found, e0; intros [= <- <-]; (split; [| done]);
        first [by left | right; left; by eexists _, _]. }
  destruct found; [done |].
  pose proof (db_Begin_db w0) as H1.
  destruct (db_Begin w0) as [[[] | e1] w1]; simpl in H1.
  2: { intros [= <- <-]. split; [right; left; by eexists _, _ | congruence]. }
  destruct (service.cancelOrderInTx w1 req _) as [r w2] eqn:Hrun.
  intros [= -> <-]. apply cancelOrderInTx_Err in Hrun as [Hw Hdb].
  split; [by right | simpl; congruence].
Qed.

Lemma SettleOrder_Err w req err w' :
  service.SettleOrder sha256_hex w req = (Some err, w') →
  (err = ErrIdempotencyMismatch ∨ wrapped err) ∧ db w' = db w.
Proof.
  unfold service.SettleOrder. destruct (negb _).
  { intros [= <- <-]. split; [right; by eexists _, _ | done]. }
  match goal with |- context [idempotencyRepo_Check w ?k ?h] =>
    pose proof (Check_db w k h) as H0; pose proof (Check_error w k h) as He;
    destruct (idempotencyRepo_Check w k h) as [[[data found] [e0 |]] w0] end;
    simpl in H0, He.
  { destruct (He e0 eq_refl) as [-> | Hw].
    - destruct found; simpl; intros [= <- <-]; (split; [by left | done]).
    - destruct found, e0; intros [= <- <-]; (split; [| done]);
        first [by left | right; by eexists _, _]. }
  destruct found; [done |].
  pose proof (db_Begin_db w0) as H1.
  destruct (db_Begin w0) as [[[] | e1] w1]; simpl in H1.
  2: { intros [= <- <-]. split; [right; by eexists _, _ | congruence]. }
  destruct (service.settleOrderInTx w1 req _) as [r w2] eqn:Hrun.
  intros [= -> <-]. apply settleOrderInTx_Err in Hrun as [Hw Hdb].
  split; [by right | simpl; congruence].
Qed.

Lemma mapError_wrapped err : wrapped err → fst (grpc.mapError err) = grpc.Internal.
Proof. by intros (msg & cause & ->). Qed.

End ErrorFacts.

(** X12.  A write that fails changes nothing.  Whenever [PlaceOrder],
    [CancelOrder] or [SettleOrder] returns an error, whatever the request,
    the state of the database and the statement the driver fails, the
    committed database is the one before the call: no order row, outbox
    event or idempotency record of the failed call is left behind. *)
Theorem failed_writes_change_nothing sha256_hex :
  (∀ w req err w',
     service.PlaceOrder sha256_hex w req = (Err err, w') → db w' = db w) ∧
  (∀ w req err w',
     service.CancelOrder sha256_hex w req = (Some err, w') → db w' = db w) ∧
  (∀ w req err w',
     service.SettleOrder sha256_hex w req = (Some err, w') → db w' = db w).
Proof.
  split; [| split]; intros w req err w' Hrun.
  - by apply PlaceOrder_Err in Hrun as [_ ?].
  - by apply CancelOrder_Err in Hrun as [_ ?].
  - by apply SettleOrder_Err in Hrun as [_ ?].
Qed.

(** X12 at a [PlaceOrder] whose commit the driver fails, after the order,
    the event and the record were written to the transaction. *)
Lemma failed_writes_change_nothing_witness :
  ∃ err w',
    service.PlaceOrder exampleHash (later 1000 commitFails (worldWith restingLay)) backRequest
      = (Err err, w') ∧
    calls w' = [OpIdempotencyCheck; OpBegin; OpOrderCreate; OpOutboxCreate;
                OpIdempotencyStoreInTransaction; OpCommit; OpRollback] ∧
    db w' = db (later 1000 commitFails (worldWith restingLay)).
Proof.
  destruct (service.PlaceOrder exampleHash (later 1000 commitFails (worldWith restingLay))
              backRequest) as [[order | err] w'] eqn:Hrun.
  - vm_compute in Hrun. discriminate.
  - exists err, w'. split; [done |]. split.
    + vm_compute in Hrun. by injection Hrun as _ <-.
    + exact (proj1 (failed_writes_change_nothing exampleHash) _ _ _ _ Hrun).
Defined.

(** X13.  The codes the gRPC handler can answer with.  [mapError] compares
    the error itself with the sentinels, and the service wraps every error
    but the idempotency mismatch and, in [CancelOrder], the missing order.
    So an error of [PlaceOrder] or [SettleOrder] is answered AlreadyExists
    or Internal, an error of [CancelOrder] NotFound, AlreadyExists or
    Internal, and an error of [GetOrderByID] always Internal: a failed
    optimistic lock is never answered Aborted. *)
Theorem handler_codes sha256_hex :
  (∀ w req err w',
     service.PlaceOrder sha256_hex w req = (Err err, w') →
     fst (grpc.mapError err) ∈ [grpc.AlreadyExists; grpc.Internal]) ∧
  (∀ w req err w',
     service.CancelOrder sha256_hex w req = (Some err, w') →
     fst (grpc.mapError err) ∈ [grpc.NotFound; grpc.AlreadyExists; grpc.Internal]) ∧
  (∀ w req err w',
     service.SettleOrder sha256_hex w req = (Some err, w') →
     fst (grpc.mapError err) ∈ [grpc.AlreadyExists; grpc.Internal]) ∧
  (∀ driverErr w orderID err,
     service.GetOrderByID driverErr w orderID = Err err →
     fst (grpc.mapError err) = grpc.Internal).
Proof.
  split; [| split; [| split]].
  - intros w req err w' Hrun. apply PlaceOrder_Err in Hrun as [[-> | Hw] _].
    + by left.
    + rewrite mapError_wrapped by done. right. by left.
  - intros w req err w' Hrun.
    apply CancelOrder_Err in Hrun as [[-> | [Hw | [-> | [st ->]]]] _]; simpl.
    + right. by left.
    + rewrite mapError_wrapped by done. do 2 right. by left.
    + by left.
    + do 2 right. by left.
  - intros w req err w' Hrun. apply SettleOrder_Err in Hrun as [[-> | Hw] _].
    + by left.
    + rewrite mapError_wrapped by done. right. by left.
  - intros driverErr w orderID err. unfold service.GetOrderByID.
    destruct (orderRepo_GetByID _ _ _); [done |]. by intros [= <-].
Qed.

(** *** The service: cancelling, replays and reads *)

Section LifecycleFacts.
Variable sha256_hex : RequestJSON -> string.

Lemma CancelOrder_applies w req row :
  service.validate_CancelOrderRequest req = true →
  liveRecord w (CancelOrderRequest.IdempotencyKey req) = None →
  no_faults w →
  orders_table (db w) !! CancelOrderRequest.OrderID req = Some row →
  Order.ID row = CancelOrderRequest.OrderID req →
  Order.Status row = OrderStatusPending ∨ Order.Status row = OrderStatusPartially →
  (rand w + 1)%N ∉ eventIDs (db w) →
  ∃ w', cancels sha256_hex w req row w' ∧
        tx w' = None ∧ now w' = now w ∧ faults w' = faults w ∧
        rand w' = (rand w + 1)%N ∧ uniqueKey w' = uniqueKey w.
Proof.
  intros Hvalid Hlive Hnf Hrow Hid Hstatus Hfresh.
  unfold cancels, service.CancelOrder. rewrite Hvalid. simpl.
  rewrite Check_miss by done.
  destruct w as [d t n r f c u]. unfold no_faults in Hnf. simpl in *.
  unfold db_Begin. simpl. rewrite Hnf.
  unfold service.cancelOrderInTx, orderRepo_GetByIDForUpdate. simpl. rewrite Hnf, Hrow.
  assert (negb (String.eqb (Order.Status row) OrderStatusPending)
          && negb (String.eqb (Order.Status row) OrderStatusPartially) = false) as ->.
  { destruct Hstatus as [-> | ->]; reflexivity. }
  unfold orderRepo_Update. simpl. rewrite Hnf, Hid, Hrow, Z.eqb_refl. simpl.
  unfold outboxRepo_Create, tx_Exec. simpl. rewrite Hnf.
  rewrite bool_decide_eq_false_2 by done. simpl.
  unfold idempotencyRepo_StoreInTransaction, tx_Exec. simpl. rewrite Hnf. simpl.
  unfold tx_Commit. simpl. rewrite Hnf. simpl.
  eexists. split.
  - eexists _, _. split; [reflexivity |]. simpl.
    repeat split; try done. by rewrite <- !app_assoc.
  - done.
Qed.

(** After a [CancelOrder] or a [SettleOrder] that returned nil the table
    holds a record of the key for the hash of the request. *)
Lemma CancelOrder_recorded w req w1 :
  service.CancelOrder sha256_hex w req = (None, w1) →
  ∃ record,
    idempotency_keys (db w1) !! CancelOrderRequest.IdempotencyKey req = Some record ∧
    IdempotencyKey.request_hash record =
      service.ComputeRequestHash sha256_hex (json_MarshalCancel req) ∧
    service.validate_CancelOrderRequest req = true.
Proof.
  unfold service.CancelOrder.
  destruct (service.validate_CancelOrderRequest req) eqn:Hvalid; [| done]. simpl.
  set (h := service.ComputeRequestHash sha256_hex (json_MarshalCancel req)).
  assert (∀ w0, (let (r, w2) :=
       match db_Begin w0 with
       | (Err err, w2) => (Some (Wrapf "failed to start transaction" err), w2)
       | (Ok _, w2) => let '(r, w3) := service.cancelOrderInTx w2 req h in (r, tx_Rollback w3)
       end in (r, w2)) = (None, w1) →
    ∃ record,
      idempotency_keys (db w1) !! CancelOrderRequest.IdempotencyKey req = Some record ∧
      IdempotencyKey.request_hash record = h ∧ true = true) as Htx.
  { intros w0. unfold db_Begin. destruct (faults _ OpBegin); [done |].
    destruct (service.cancelOrderInTx _ _ _) as [r w3] eqn:Hrun.
    intros [= -> <-]. revert Hrun.
    unfold service.cancelOrderInTx.
    destruct (orderRepo_GetByIDForUpdate _ _) as [[o | e0] w4]; [| by destruct e0].
    destruct (negb _ && negb _); [done |].
    destruct (orderRepo_Update w4 _) as [[o1 [e1 |]] w5]; [done |].
    destruct (outboxRepo_Create w5 _) as [[e2 |] w6]; [done |].
    unfold idempotencyRepo_StoreInTransaction, tx_Exec. simpl.
    destruct (tx w6) as [t6 |]; [| done].
    destruct (faults w6 _); [done |]. simpl.
    unfold tx_Commit. simpl. destruct (faults w6 OpCommit); [done |].
    intros [= <-]. simpl. rewrite lookup_insert_eq. eauto. }
  unfold idempotencyRepo_Check. simpl.
  destruct (faults w OpIdempotencyCheck); [done |].
  destruct (idempotency_keys (db w) !! CancelOrderRequest.IdempotencyKey req)
    as [record |] eqn:Hrec.
  - destruct (now w <? IdempotencyKey.expires_at record).
    + destruct (String.eqb_spec (IdempotencyKey.request_hash record) h) as [Hh | Hh];
        simpl; [| done].
      intros [= <-]. simpl. eauto.
    + intros Hrun. apply (Htx (call OpIdempotencyCheck w)).
      by destruct (db_Begin _) as [[[] | ?] ?]; [destruct (service.cancelOrderInTx _ _ _) |].
  - intros Hrun. apply (Htx (call OpIdempotencyCheck w)).
    by destruct (db_Begin _) as [[[] | ?] ?]; [destruct (service.cancelOrderInTx _ _ _) |].
Qed.

Lemma SettleOrder_recorded w req w1 :
  service.SettleOrder sha256_hex w req = (None, w1) →
  ∃ record,
    idempotency_keys (db w1) !! SettleOrderRequest.IdempotencyKey req = Some record ∧
    IdempotencyKey.request_hash record =
      service.ComputeRequestHash sha256_hex (json_MarshalSettle req) ∧
    service.validate_SettleOrderRequest req = true.
Proof.
  unfold service.SettleOrder.
  destruct (service.validate_SettleOrderRequest req) eqn:Hvalid; [| done]. simpl.
  set (h := service.ComputeRequestHash sha256_hex (json_MarshalSettle req)).
  assert (∀ w0, (let (r, w2) :=
       match db_Begin w0 with
       | (Err err, w2) => (Some (Wrapf "failed to start transaction" err), w2)
       | (Ok _, w2) => let '(r, w3) := service.settleOrderInTx w2 req h in (r, tx_Rollback w3)
       end in (r, w2)) = (None, w1) →
    ∃ record,
      idempotency_keys (db w1) !! SettleOrderRequest.IdempotencyKey req = Some record ∧
      IdempotencyKey.request_hash record = h ∧ true = true) as Htx.
  { intros w0. unfold db_Begin. destruct (faults _ OpBegin); [done |].
    destruct (service.settleOrderInTx _ _ _) as [r w3] eqn:Hrun.
    intros [= -> <-]. revert Hrun.
    unfold service.settleOrderInTx.
    destruct (orderRepo_GetByIDForUpdate _ _) as [[o | e0] w4]; [| done].
    destruct (orderRepo_Update w4 _) as [[o1 [e1 |]] w5]; [done |].
    destruct (outboxRepo_Create w5 _) as [[e2 |] w6]; [done |].
    unfold idempotencyRepo_StoreInTransaction, tx_Exec. simpl.
    destruct (tx w6) as [t6 |]; [| done].
    destruct (faults w6 _); [done |]. simpl.
    unfold tx_Commit. simpl. destruct (faults w6 OpCommit); [done |].
    intros [= <-]. simpl. rewrite lookup_insert_eq. eauto. }
  unfold idempotencyRepo_Check. simpl.
  destruct (faults w OpIdempotencyCheck); [done |].
  destruct (idempotency_keys (db w) !! SettleOrderRequest.IdempotencyKey req)
    as [record |] eqn:Hrec.
  - destruct (now w <? IdempotencyKey.expires_at record).
    + destruct (String.eqb_spec (IdempotencyKey.request_hash record) h) as [Hh | Hh];
        simpl; [| done].
      intros [= <-]. simpl. eauto.
    + intros Hrun. apply (Htx (call OpIdempotencyCheck w)).
      by destruct (db_Begin _) as [[[] | ?] ?]; [destruct (service.settleOrderInTx _ _ _) |].
  - intros Hrun. apply (Htx (call OpIdempotencyCheck w)).
    by destruct (db_Begin _) as [[[] | ?] ?]; [destruct (service.settleOrderInTx _ _ _) |].
Qed.

(** [Check] on a live record of the same hash. *)
Lemma Check_hit w key h record :
  faults w OpIdempotencyCheck = false →
  idempotency_keys (db w) !! key = Some record →
  now w < IdempotencyKey.expires_at record →
  IdempotencyKey.request_hash record = h →
  idempotencyRepo_Check w key h =
    (Some (IdempotencyKey.response_data record), true, None, call OpIdempotencyCheck w).
Proof.
  intros Hf Hrec Hlive <-. unfold idempotencyRepo_Check. simpl. rewrite Hf, Hrec.
  apply Z.ltb_lt in Hlive. rewrite Hlive. by rewrite String.eqb_refl.
Qed.

(** [Check] on a live record of another hash. *)
Lemma Check_mismatch w key h record :
  faults w OpIdempotencyCheck = false →
  idempotency_keys (db w) !! key = Some record →
  now w < IdempotencyKey.expires_at record →
  IdempotencyKey.request_hash record ≠ h →
  idempotencyRepo_Check w key h =
    (None, true, Some ErrIdempotencyMismatch, call OpIdempotencyCheck w).
Proof.
  intros Hf Hrec Hlive Hne. unfold idempotencyRepo_Check. simpl. rewrite Hf, Hrec.
  apply Z.ltb_lt in Hlive. rewrite Hlive.
  apply String.eqb_neq in Hne. by rewrite Hne.
Qed.

End LifecycleFacts.

(** X14.  [CancelOrder] cancels.  For a valid request with a key that has
    no live record, on a PENDING or PARTIALLY order and a driver that does
    not fail, [CancelOrder] returns nil; the row of the order is CANCELLED,
    cancelled at the time of the call and at its next version, the columns
    [Update] does not write unchanged; the database gains one
    "order.cancelled" event of the order and the record of the key, with
    the response [null], expiring in 24 hours. *)
Theorem CancelOrder_cancels sha256_hex w req row :
  service.validate_CancelOrderRequest req = true →
  liveRecord w (CancelOrderRequest.IdempotencyKey req) = None →
  no_faults w →
  orders_table (db w) !! CancelOrderRequest.OrderID req = Some row →
  Order.ID row = CancelOrderRequest.OrderID req →
  Order.Status row = OrderStatusPending ∨ Order.Status row = OrderStatusPartially →
  (rand w + 1)%N ∉ eventIDs (db w) →
  ∃ w', cancels sha256_hex w req row w'.
Proof.
  intros Hvalid Hlive Hnf Hrow Hid Hstatus Hfresh.
  destruct (CancelOrder_applies sha256_hex w req row) as (w' & Hc & _); eauto.
Qed.

(** X14 at the resting lay order. *)
Lemma CancelOrder_cancels_witness :
  ∃ w', cancels exampleHash (worldWith restingLay) cancelRequest restingLay w'.
Proof.
  apply (CancelOrder_cancels exampleHash (worldWith restingLay) cancelRequest restingLay).
  - reflexivity.
  - reflexivity.
  - apply no_faults_worldWith.
  - vm_compute; reflexivity.
  - reflexivity.
  - by left.
  - cbn. apply not_elem_of_nil.
Defined.

(** X15.  An order is cancelled once.  After a [CancelOrder] that
    cancelled, a [CancelOrder] of the same order under another key fails
    with "order cannot be cancelled: status=CANCELLED" and changes
    nothing. *)
Theorem CancelOrder_again_refused sha256_hex w req req2 row :
  service.validate_CancelOrderRequest req = true →
  liveRecord w (CancelOrderRequest.IdempotencyKey req) = None →
  no_faults w →
  orders_table (db w) !! CancelOrderRequest.OrderID req = Some row →
  Order.ID row = CancelOrderRequest.OrderID req →
  Order.Status row = OrderStatusPending ∨ Order.Status row = OrderStatusPartially →
  (rand w + 1)%N ∉ eventIDs (db w) →
  service.validate_CancelOrderRequest req2 = true →
  CancelOrderRequest.OrderID req2 = CancelOrderRequest.OrderID req →
  CancelOrderRequest.IdempotencyKey req2 ≠ CancelOrderRequest.IdempotencyKey req →
  liveRecord w (CancelOrderRequest.IdempotencyKey req2) = None →
  ∃ w1 w2,
    service.CancelOrder sha256_hex w req = (None, w1) ∧
    service.CancelOrder sha256_hex w1 req2 =
      (Some (Errorf "order cannot be cancelled: status=CANCELLED"), w2) ∧
    db w2 = db w1.
Proof.
  intros Hvalid Hlive Hnf Hrow Hid Hstatus Hfresh Hvalid2 Hsame Hkey Hlive2.
  destruct (CancelOrder_applies sha256_hex w req row)
    as (w1 & (event & record & Hrun & Hdb & Hst & _) & Htx & Hnow & Hf & _); try done.
  assert (liveRecord w1 (CancelOrderRequest.IdempotencyKey req2) = None) as Hlive1.
  { unfold liveRecord in *. rewrite Hdb, Hnow. simpl. by rewrite lookup_insert_ne. }
  assert (no_faults w1) as Hnf1 by (intros op; by rewrite Hf).
  assert (orders_table (db w1) !! CancelOrderRequest.OrderID req2 =
          Some (cancelledRow (now w) row)) as Hrow1.
  { rewrite Hdb, Hsame. simpl. by rewrite lookup_insert_eq. }
  destruct (CancelOrder_rejects sha256_hex w1 req2 (cancelledRow (now w) row)
              Hvalid2 Hlive1 Hnf1 Hrow1) as (w2 & Hrun2 & Hdb2 & _).
  { by rewrite Hst. }
  { by rewrite Hst. }
  exists w1, w2. rewrite Hst in Hrun2. done.
Qed.

(** X15 at the resting lay order. *)
Lemma CancelOrder_again_refused_witness :
  ∃ w1 w2,
    service.CancelOrder exampleHash (worldWith restingLay) cancelRequest = (None, w1) ∧
    service.CancelOrder exampleHash w1 cancelAgain =
      (Some (Errorf "order cannot be cancelled: status=CANCELLED"), w2) ∧
    db w2 = db w1.
Proof.
  apply (CancelOrder_again_refused exampleHash (worldWith restingLay) cancelRequest
           cancelAgain restingLay).
  - reflexivity.
  - reflexivity.
  - apply no_faults_worldWith.
  - vm_compute; reflexivity.
  - reflexivity.
  - by left.
  - cbn. apply not_elem_of_nil.
  - reflexivity.
  - reflexivity.
  - discriminate.
  - reflexivity.
Defined.

(** X16.  Replays of [CancelOrder] and [SettleOrder].  Once one of them
    returned nil for a request, the same request, as long as the record of
    its key has not expired and [Check] does not fail, returns nil after
    the call of [Check] alone: no transaction is begun and nothing is
    written. *)
Theorem replays_answer_nil sha256_hex :
  (∀ w req w1 t f record,
     service.CancelOrder sha256_hex w req = (None, w1) →
     f OpIdempotencyCheck = false →
     idempotency_keys (db w1) !! CancelOrderRequest.IdempotencyKey req = Some record →
     t < IdempotencyKey.expires_at record →
     service.CancelOrder sha256_hex (later t f w1) req =
       (None, call OpIdempotencyCheck (later t f w1))) ∧
  (∀ w req w1 t f record,
     service.SettleOrder sha256_hex w req = (None, w1) →
     f OpIdempotencyCheck = false →
     idempotency_keys (db w1) !! SettleOrderRequest.IdempotencyKey req = Some record →
     t < IdempotencyKey.expires_at record →
     service.SettleOrder sha256_hex (later t f w1) req =
       (None, call OpIdempotencyCheck (later t f w1))).
Proof.
  split; intros w req w1 t f record Hfirst Hf Hrec Hlive.
  - apply CancelOrder_recorded in Hfirst as (record' & Hrec' & Hh & Hvalid).
    assert (record' = record) as -> by congruence.
    unfold service.CancelOrder. rewrite Hvalid. simpl.
    by rewrite (Check_hit (later t f w1) _ _ record).
  - apply SettleOrder_recorded in Hfirst as (record' & Hrec' & Hh & Hvalid).
    assert (record' = record) as -> by congruence.
    unfold service.SettleOrder. rewrite Hvalid. simpl.
    by rewrite (Check_hit (later t f w1) _ _ record).
Qed.

(** X16 at a cancellation that is repeated in the last second of its
    record. *)
Lemma replays_answer_nil_witness :
  ∃ w1,
    service.CancelOrder exampleHash (worldWith restingLay) cancelRequest = (None, w1) ∧
    service.CancelOrder exampleHash (later (1000 + 24 * Hour - 1) (fun _ => false) w1)
      cancelRequest =
      (None, call OpIdempotencyCheck (later (1000 + 24 * Hour - 1) (fun _ => false) w1)).
Proof.
  destruct (service.CancelOrder exampleHash (worldWith restingLay) cancelRequest)
    as [[err |] w1] eqn:Hrun; [vm_compute in Hrun; discriminate |].
  exists w1. split; [done |].
  pose proof (CancelOrder_recorded exampleHash _ _ _ Hrun) as (record & Hrec & _ & _).
  apply (proj1 (replays_answer_nil exampleHash) _ _ _ _ _ record Hrun eq_refl Hrec).
  vm_compute in Hrun. injection Hrun as <-. vm_compute in Hrec. injection Hrec as <-.
  vm_compute. reflexivity.
Defined.

(** X17.  A key is bound to its request.  After [PlaceOrder] returned an
    order for a request, a valid request with the same key and another hash,
    as long as the record has not expired, fails with
    [ErrIdempotencyMismatch] after the call of [Check] alone, which the
    handler answers AlreadyExists. *)
Theorem PlaceOrder_key_reuse_rejected sha256_hex w req order w1 req2 t f record :
  service.PlaceOrder sha256_hex w req = (Ok order, w1) →
  service.validate_PlaceOrderRequest req2 = true →
  PlaceOrderRequest.IdempotencyKey req2 = PlaceOrderRequest.IdempotencyKey req →
  service.ComputeRequestHash sha256_hex (json_MarshalPlace req2) ≠
    service.ComputeRequestHash sha256_hex (json_MarshalPlace req) →
  f OpIdempotencyCheck = false →
  idempotency_keys (db w1) !! PlaceOrderRequest.IdempotencyKey req = Some record →
  t < IdempotencyKey.expires_at record →
  service.PlaceOrder sha256_hex (later t f w1) req2 =
    (Err ErrIdempotencyMismatch, call OpIdempotencyCheck (later t f w1)) ∧
  fst (grpc.mapError ErrIdempotencyMismatch) = grpc.AlreadyExists.
Proof.
  intros Hfirst Hvalid2 Hkey Hhash Hf Hrec Hlive. split; [| done].
  apply PlaceOrder_recorded in Hfirst as (record' & order' & Hrec' & Hh & _).
  assert (record' = record) as -> by congruence.
  unfold service.PlaceOrder. rewrite Hvalid2. simpl. rewrite Hkey.
  rewrite (Check_mismatch (later t f w1) _ _ record); try done.
  by rewrite Hh.
Qed.

(** X17 at a request that differs in its amount. *)
Lemma PlaceOrder_key_reuse_rejected_witness :
  ∃ order w1,
    service.PlaceOrder exampleHash (worldWith restingLay) backRequest = (Ok order, w1) ∧
    service.PlaceOrder exampleHash (later 2000 (fun _ => false) w1) otherRequest =
      (Err ErrIdempotencyMismatch,
       call OpIdempotencyCheck (later 2000 (fun _ => false) w1)) ∧
    fst (grpc.mapError ErrIdempotencyMismatch) = grpc.AlreadyExists.
Proof.
  destruct (service.PlaceOrder exampleHash (worldWith restingLay) backRequest)
    as [[order | err] w1] eqn:Hrun; [| vm_compute in Hrun; discriminate].
  exists order, w1. split; [done |].
  pose proof (PlaceOrder_recorded exampleHash _ _ _ _ Hrun) as (record & o & Hrec & _).
  apply (PlaceOrder_key_reuse_rejected exampleHash _ _ _ _ otherRequest 2000
           (fun _ => false) record Hrun); try done.
  vm_compute in Hrun. injection Hrun as _ <-. vm_compute in Hrec. injection Hrec as <-.
  vm_compute. reflexivity.
Defined.



(** X19.  An order that is not there.  [CancelOrder] returns the sentinel
    [ErrOrderNotFound], which the handler answers NotFound; [SettleOrder]
    and [GetOrderByID] wrap it ("failed to get order"), which the handler
    answers Internal. *)
Theorem missing_order_answers sha256_hex w creq sreq :
  no_faults w →
  orders_table (db w) !! CancelOrderRequest.OrderID creq = None →
  SettleOrderRequest.OrderID sreq = CancelOrderRequest.OrderID creq →
  service.validate_CancelOrderRequest creq = true →
  service.validate_SettleOrderRequest sreq = true →
  liveRecord w (CancelOrderRequest.IdempotencyKey creq) = None →
  liveRecord w (SettleOrderRequest.IdempotencyKey sreq) = None →
  (∃ w', service.CancelOrder sha256_hex w creq = (Some ErrOrderNotFound, w') ∧
         fst (grpc.mapError ErrOrderNotFound) = grpc.NotFound) ∧
  (∃ w', service.SettleOrder sha256_hex w sreq =
           (Some (Wrapf "failed to get order" ErrOrderNotFound), w') ∧
         fst (grpc.mapError (Wrapf "failed to get order" ErrOrderNotFound)) = grpc.Internal) ∧
  service.GetOrderByID None w (CancelOrderRequest.OrderID creq) =
    Err (Wrapf "failed to get order" ErrOrderNotFound).
Proof.
  intros Hnf Hrow Hid Hvc Hvs Hlc Hls. split; [| split].
  - unfold service.CancelOrder. rewrite Hvc. simpl. rewrite Check_miss by done.
    destruct w as [d t n r f c u]. unfold no_faults in Hnf. simpl in *.
    unfold db_Begin. simpl. rewrite Hnf.
    unfold service.cancelOrderInTx, orderRepo_GetByIDForUpdate. simpl. rewrite Hnf, Hrow.
    by eexists.
  - unfold service.SettleOrder. rewrite Hvs. simpl. rewrite Check_miss by done.
    destruct w as [d t n r f c u]. unfold no_faults in Hnf. simpl in *.
    unfold db_Begin. simpl. rewrite Hnf.
    unfold service.settleOrderInTx, orderRepo_GetByIDForUpdate. simpl.
    rewrite Hnf, Hid, Hrow. by eexists.
  - unfold service.GetOrderByID, orderRepo_GetByID. by rewrite Hrow.
Qed.

(** X19 at an id no order has. *)
Lemma missing_order_answers_witness :
  (∃ w', service.CancelOrder exampleHash (worldWith restingLay) missingCancel =
           (Some ErrOrderNotFound, w') ∧
         fst (grpc.mapError ErrOrderNotFound) = grpc.NotFound) ∧
  (∃ w', service.SettleOrder exampleHash (worldWith restingLay) missingSettle =
           (Some (Wrapf "failed to get order" ErrOrderNotFound), w') ∧
         fst (grpc.mapError (Wrapf "failed to get order" ErrOrderNotFound)) = grpc.Internal) ∧
  service.GetOrderByID None (worldWith restingLay) 8 =
    Err (Wrapf "failed to get order" ErrOrderNotFound).
Proof.
  apply (missing_order_answers exampleHash (worldWith restingLay) missingCancel missingSettle).
  - apply no_faults_worldWith.
  - vm_compute; reflexivity.
  - reflexivity.
  - reflexivity.
  - reflexivity.
  - reflexivity.
  - reflexivity.
Defined.

(** *** The outbox *)

Section OutboxFacts.
Variable sha256_hex : RequestJSON -> string.

Lemma tx_Exec_outbox op f w :
  (∀ t t', f t = Ok t' → outbox_events t' = outbox_events t) →
  txOutbox (snd (tx_Exec op f w)) = txOutbox w.
Proof.
  intros Hf. unfold tx_Exec, txOutbox.
  destruct (tx w) as [t |] eqn:Ht; simpl; rewrite ?Ht; [| done].
  destruct (faults w op); simpl; rewrite ?Ht; [done |].
  destruct (f t) as [t' |] eqn:Hft; simpl; rewrite ?Ht; [| done].
  simpl. by rewrite (Hf _ _ Hft).
Qed.

Lemma initOrder_outbox w o : txOutbox (snd (initOrder w o)) = txOutbox w.
Proof. unfold initOrder. by destruct (N.eqb _ _). Qed.

Lemma orderRepo_Create_outbox w o : txOutbox (snd (orderRepo_Create w o)) = txOutbox w.
Proof.
  unfold orderRepo_Create.
  pose proof (initOrder_outbox (call OpOrderCreate w) o) as Hi.
  destruct (initOrder (call OpOrderCreate w) o) as [o1 w1]; simpl in Hi.
  match goal with |- context [tx_Exec ?op ?f w1] =>
    assert (txOutbox (snd (tx_Exec op f w1)) = txOutbox w1) as He;
      [| destruct (tx_Exec op f w1) as [[[] | e] w2] ]
  end.
  { apply tx_Exec_outbox. intros t t'. destruct (_ !! _); [done |].
    destruct (keyTaken _ _ _); [done |]. by intros [= <-]. }
  - simpl in *. by rewrite He, Hi.
  - simpl in *. destruct e; simpl; by rewrite He, Hi.
Qed.

Lemma StoreInTransaction_outbox w key h data ttl :
  txOutbox (snd (idempotencyRepo_StoreInTransaction w key h data ttl)) = txOutbox w.
Proof.
  unfold idempotencyRepo_StoreInTransaction.
  match goal with |- context [tx_Exec ?op ?f ?w0] =>
    assert (txOutbox (snd (tx_Exec op f w0)) = txOutbox w0) as He;
      [| destruct (tx_Exec op f w0) as [[[] | e] w2]; simpl in *; by rewrite He ]
  end.
  apply tx_Exec_outbox. by intros t t' [= <-].
Qed.

Lemma GetByIDForUpdate_outbox w id :
  txOutbox (snd (orderRepo_GetByIDForUpdate w id)) = txOutbox w.
Proof.
  unfold orderRepo_GetByIDForUpdate, txOutbox. simpl.
  destruct (tx w) eqn:Ht; simpl; rewrite ?Ht; [| done].
  destruct (faults w _); simpl; rewrite ?Ht; [done |].
  destruct (_ !! _); simpl; by rewrite ?Ht.
Qed.

Lemma orderRepo_Update_outbox w o : txOutbox (snd (orderRepo_Update w o)) = txOutbox w.
Proof.
  unfold orderRepo_Update, txOutbox. simpl.
  destruct (tx w) eqn:Ht; simpl; rewrite ?Ht; [| done].
  destruct (faults w _); simpl; rewrite ?Ht; [done |].
  destruct (_ !! _); simpl; rewrite ?Ht; [| done].
  destruct (_ =? _); simpl; by rewrite ?Ht.
Qed.

Lemma outboxRepo_Create_outbox w ev w' :
  outboxRepo_Create w ev = (None, w') →
  ∃ ev', txOutbox w' = (λ l, l ++ [ev']) <$> txOutbox w ∧
         OutboxEvent.EventType ev' = OutboxEvent.EventType ev ∧
         OutboxEvent.AggregateType ev' = OutboxEvent.AggregateType ev ∧
         OutboxEvent.ProcessedAt ev' = OutboxEvent.ProcessedAt ev ∧
         OutboxEvent.RetryCount ev' = OutboxEvent.RetryCount ev ∧
         OutboxEvent.MaxRetries ev' = OutboxEvent.MaxRetries ev.
Proof.
  unfold outboxRepo_Create.
  destruct (N.eqb _ _); simpl; unfold tx_Exec, txOutbox; simpl;
    (destruct (tx w) as [t |] eqn:Ht; [| done]);
    (destruct (faults w _); [done |]);
    (destruct (bool_decide _); [done |]);
    intros [= <-]; simpl; eexists; (split; [reflexivity |]); done.
Qed.

Lemma db_Begin_Ok w w' :
  db_Begin w = (Ok tt, w') → txOutbox w' = Some (outbox_events (db w)).
Proof.
  unfold db_Begin. simpl. destruct (faults w OpBegin); [done |]. by intros [= <-].
Qed.

Lemma tx_Commit_Ok w u w' :
  tx_Commit w = (Ok u, w') → txOutbox w = Some (outbox_events (db w')).
Proof.
  unfold tx_Commit, txOutbox. simpl. destruct (tx w); [| done].
  destruct (faults w OpCommit); [done |]. by intros [= _ <-].
Qed.

Lemma tx_Rollback_db w : db (tx_Rollback w) = db w.
Proof. done. Qed.

Lemma placeOrderInTx_Ok w req h o w' :
  service.placeOrderInTx w req h = (Ok o, w') →
  ∃ ev, Some (outbox_events (db w')) = (λ l, l ++ [ev]) <$> txOutbox w ∧
        born "order.placed" ev.
Proof.
  unfold service.placeOrderInTx.
  destruct (world_uuid_New w) as [id w0] eqn:Hid.
  assert (txOutbox w0 = txOutbox w) as H0 by (by injection Hid as _ <-).
  match goal with |- context [orderRepo_Create w0 ?o] =>
    pose proof (orderRepo_Create_outbox w0 o) as H1;
    destruct (orderRepo_Create w0 o) as [[o1 [e1 |]] w1] end; simpl in H1; [done |].
  match goal with |- context [outboxRepo_Create w1 ?ev] =>
    destruct (outboxRepo_Create w1 ev) as [[e2 |] w2] eqn:H2 end; [done |].
  apply outboxRepo_Create_outbox in H2 as (ev & H2 & Hty & Hag & Hp & Hr & Hm).
  match goal with |- context [idempotencyRepo_StoreInTransaction w2 ?k ?hh ?d ?t] =>
    pose proof (StoreInTransaction_outbox w2 k hh d t) as H3;
    destruct (idempotencyRepo_StoreInTransaction w2 k hh d t) as [[e3 |] w3] end;
    simpl in H3; [done |].
  destruct (tx_Commit w3) as [[[] | e4] w4] eqn:Hc; [| done].
  apply tx_Commit_Ok in Hc. intros [= _ <-]. exists ev. split.
  - congruence.
  - unfold born, OutboxEvent.IsProcessed, OutboxEvent.CanRetry. by rewrite Hty, Hag, Hp, Hr, Hm.
Qed.

Lemma cancelOrderInTx_Ok w req h w' :
  service.cancelOrderInTx w req h = (None, w') →
  ∃ ev, Some (outbox_events (db w')) = (λ l, l ++ [ev]) <$> txOutbox w ∧
        born "order.cancelled" ev.
Proof.
  unfold service.cancelOrderInTx.
  pose proof (GetByIDForUpdate_outbox w (CancelOrderRequest.OrderID req)) as H0.
  destruct (orderRepo_GetByIDForUpdate w _) as [[o | e0] w0]; simpl in H0.
  2: { by destruct e0. }
  destruct (negb _ && negb _); [done |].
  match goal with |- context [orderRepo_Update w0 ?o'] =>
    pose proof (orderRepo_Update_outbox w0 o') as H1;
    destruct (orderRepo_Update w0 o') as [[o1 [e1 |]] w1] end; simpl in H1; [done |].
  match goal with |- context [outboxRepo_Create w1 ?ev] =>
    destruct (outboxRepo_Create w1 ev) as [[e2 |] w2] eqn:H2 end; [done |].
  apply outboxRepo_Create_outbox in H2 as (ev & H2 & Hty & Hag & Hp & Hr & Hm).
  match goal with |- context [idempotencyRepo_StoreInTransaction w2 ?k ?hh ?d ?t] =>
    pose proof (StoreInTransaction_outbox w2 k hh d t) as H3;
    destruct (idempotencyRepo_StoreInTransaction w2 k hh d t) as [[e3 |] w3] end;
    simpl in H3; [done |].
  destruct (tx_Commit w3) as [[[] | e4] w4] eqn:Hc; [| done].
  apply tx_Commit_Ok in Hc. intros [= <-]. exists ev. split.
  - congruence.
  - unfold born, OutboxEvent.IsProcessed, OutboxEvent.CanRetry. by rewrite Hty, Hag, Hp, Hr, Hm.
Qed.

Lemma settleOrderInTx_Ok w req h w' :
  service.settleOrderInTx w req h = (None, w') →
  ∃ ev, Some (outbox_events (db w')) = (λ l, l ++ [ev]) <$> txOutbox w ∧
        born "order.settled" ev.
Proof.
  unfold service.settleOrderInTx.
  pose proof (GetByIDForUpdate_outbox w (SettleOrderRequest.OrderID req)) as H0.
  destruct (orderRepo_GetByIDForUpdate w _) as [[o | e0] w0]; simpl in H0; [| done].
  match goal with |- context [orderRepo_Update w0 ?o'] =>
    pose proof (orderRepo_Update_outbox w0 o') as H1;
    destruct (orderRepo_Update w0 o') as [[o1 [e1 |]] w1] end; simpl in H1; [done |].
  match goal with |- context [outboxRepo_Create w1 ?ev] =>
    destruct (outboxRepo_Create w1 ev) as [[e2 |] w2] eqn:H2 end; [done |].
  apply outboxRepo_Create_outbox in H2 as (ev & H2 & Hty & Hag & Hp & Hr & Hm).
  match goal with |- context [idempotencyRepo_StoreInTransaction w2 ?k ?hh ?d ?t] =>
    pose proof (StoreInTransaction_outbox w2 k hh d t) as H3;
    destruct (idempotencyRepo_StoreInTransaction w2 k hh d t) as [[e3 |] w3] end;
    simpl in H3; [done |].
  destruct (tx_Commit w3) as [[[] | e4] w4] eqn:Hc; [| done].
  apply tx_Commit_Ok in Hc. intros [= <-]. exists ev. split.
  - congruence.
  - unfold born, OutboxEvent.IsProcessed, OutboxEvent.CanRetry. by rewrite Hty, Hag, Hp, Hr, Hm.
Qed.

Lemma grows_from type w0 w1 w' ev :
  db w0 = db w1 →
  Some (outbox_events (db w')) = (λ l, l ++ [ev]) <$> Some (outbox_events (db w0)) →
  born type ev → outbox_grows type w1 w'.
Proof.
  intros Hdb [= Hout] Hb. right. exists ev. split; [| done].
  unfold outbox_grows. by rewrite <- Hdb.
Qed.

Lemma PlaceOrder_outbox w req r w' :
  service.PlaceOrder sha256_hex w req = (r, w') → outbox_grows "order.placed" w w'.
Proof.
  destruct r as [o | err].
  2: { intros Hrun. apply (PlaceOrder_Err sha256_hex) in Hrun as [_ Hdb]. left. by rewrite Hdb. }
  unfold service.PlaceOrder. destruct (negb _); [done |].
  match goal with |- context [idempotencyRepo_Check w ?k ?h] =>
    pose proof (Check_db w k h) as H0;
    destruct (idempotencyRepo_Check w k h) as [[[data found] [e0 |]] w0] end;
    simpl in H0.
  { by destruct found, e0. }
  destruct found.
  { destruct (json_Unmarshal data Order.zero); intros [= _ <-]. left. by rewrite H0. }
  destruct (db_Begin w0) as [[[] | e1] w1] eqn:Hb; [| done].
  pose proof (db_Begin_Ok _ _ Hb) as Htx.
  destruct (service.placeOrderInTx w1 req _) as [r w2] eqn:Hrun.
  intros [= -> <-]. apply placeOrderInTx_Ok in Hrun as (ev & Hout & Hborn).
  rewrite Htx in Hout. by eapply grows_from.
Qed.

Lemma CancelOrder_outbox w req r w' :
  service.CancelOrder sha256_hex w req = (r, w') → outbox_grows "order.cancelled" w w'.
Proof.
  destruct r as [err |].
  { intros Hrun. apply (CancelOrder_Err sha256_hex) in Hrun as [_ Hdb]. left. by rewrite Hdb. }
  unfold service.CancelOrder. destruct (negb _); [done |].
  match goal with |- context [idempotencyRepo_Check w ?k ?h] =>
    pose proof (Check_db w k h) as H0;
    destruct (idempotencyRepo_Check w k h) as [[[data found] [e0 |]] w0] end;
    simpl in H0.
  { by destruct found, e0. }
  destruct found.
  { intros [= <-]. left. by rewrite H0. }
  destruct (db_Begin w0) as [[[] | e1] w1] eqn:Hb; [| done].
  pose proof (db_Begin_Ok _ _ Hb) as Htx.
  destruct (service.cancelOrderInTx w1 req _) as [r w2] eqn:Hrun.
  intros [= -> <-]. apply cancelOrderInTx_Ok in Hrun as (ev & Hout & Hborn).
  rewrite Htx in Hout. by eapply grows_from.
Qed.

Lemma SettleOrder_outbox w req r w' :
  service.SettleOrder sha256_hex w req = (r, w') → outbox_grows "order.settled" w w'.
Proof.
  destruct r as [err |].
  { intros Hrun. apply (SettleOrder_Err sha256_hex) in Hrun as [_ Hdb]. left. by rewrite Hdb. }
  unfold service.SettleOrder. destruct (negb _); [done |].
  match goal with |- context [idempotencyRepo_Check w ?k ?h] =>
    pose proof (Check_db w k h) as H0;
    destruct (idempotencyRepo_Check w k h) as [[[data found] [e0 |]] w0] end;
    simpl in H0.
  { by destruct found, e0. }
  destruct found.
  { intros [= <-]. left. by rewrite H0. }
  destruct (db_Begin w0) as [[[] | e1] w1] eqn:Hb; [| done].
  pose proof (db_Begin_Ok _ _ Hb) as Htx.
  destruct (service.settleOrderInTx w1 req _) as [r w2] eqn:Hrun.
  intros [= -> <-]. apply settleOrderInTx_Ok in Hrun as (ev & Hout & Hborn).
  rewrite Htx in Hout. by eapply grows_from.
Qed.

End OutboxFacts.

(** X20.  The outbox grows by at most one event, and that event cannot be
    retried.  Whatever [PlaceOrder], [CancelOrder] or [SettleOrder] returns,
    the outbox table afterwards is the one before, or the one before
    followed by one event of the type of the operation, of aggregate type
    "order"; that event is not processed and, as it is written with
    [retry_count] 0 and [max_retries] 0, its [CanRetry] is false. *)
Theorem outbox_events_born_out_of_retries sha256_hex :
  (∀ w req, outbox_grows "order.placed" w (snd (service.PlaceOrder sha256_hex w req))) ∧
  (∀ w req, outbox_grows "order.cancelled" w (snd (service.CancelOrder sha256_hex w req))) ∧
  (∀ w req, outbox_grows "order.settled" w (snd (service.SettleOrder sha256_hex w req))).
Proof.
  split; [| split]; intros w req.
  - eapply PlaceOrder_outbox, surjective_pairing.
  - eapply CancelOrder_outbox, surjective_pairing.
  - eapply SettleOrder_outbox, surjective_pairing.
Qed.

(** X20 at a [PlaceOrder] that places: one event more. *)
Lemma outbox_events_born_out_of_retries_witness :
  outbox_grows "order.placed" (worldWith restingLay)
    (snd (service.PlaceOrder exampleHash (worldWith restingLay) backRequest)) ∧
  length (outbox_events (db (snd (service.PlaceOrder exampleHash (worldWith restingLay)
                                    backRequest)))) =
    S (length (outbox_events (db (worldWith restingLay)))).
Proof.
  split.
  - exact (proj1 (outbox_events_born_out_of_retries exampleHash)
             (worldWith restingLay) backRequest).
  - vm_compute. reflexivity.
Defined.

(** *** The repositories *)

Section StoreFacts.



(** X22.  [Settle] of the repository changes the status of no order.  It
    succeeds only on a row that is MATCHED, which it leaves MATCHED at its
    next version; on an order that is missing or not MATCHED, in an open
    transaction the driver does not fail, it returns
    [ErrInvalidOrderStatus]. *)
Theorem Settle_keeps_status w id result_ actualPayout :
  let '(err, w') := orderRepo_Settle w id result_ actualPayout in
  (∀ id', Order.Status <$> txOrder w' id' = Order.Status <$> txOrder w id') ∧
  (err = None → ∃ row, txOrder w id = Some row ∧ Order.Status row = OrderStatusMatched ∧
                       Order.Version <$> txOrder w' id = Some (Order.Version row + 1)) ∧
  (tx w ≠ None → faults w OpOrderSettle = false →
   (Order.Status <$> txOrder w id) ≠ Some OrderStatusMatched →
   err = Some ErrInvalidOrderStatus).
Proof.
  unfold orderRepo_Settle, txOrder. simpl.
  destruct (tx w) as [t |] eqn:Ht; simpl; rewrite ?Ht; simpl; [| by repeat split].
  destruct (faults w OpOrderSettle) eqn:Hf; simpl; rewrite ?Ht; simpl; [by repeat split |].
  destruct (orders_table t !! id) as [row |] eqn:Hrow; simpl.
  - destruct (String.eqb_spec (Order.Status row) OrderStatusMatched) as [Hs | Hs]; simpl.
    + repeat split.
      * intros id'. destruct (decide (id = id')) as [<- | Hne].
        -- rewrite lookup_insert_eq, Hrow. simpl. by rewrite Hs.
        -- by rewrite lookup_insert_ne.
      * intros _. exists row. by rewrite lookup_insert_eq.
      * intros _ _ Hn. simpl in Hn. congruence.
    + rewrite Ht. simpl. by repeat split.
  - rewrite Ht. simpl. by repeat split.
Qed.

(** X23.  [Store], then [Check].  After [Store] of a key with a hash and
    a response for [ttl], [Check] of the key before [now + ttl] gives the
    stored response for the same hash and [ErrIdempotencyMismatch] for
    another one; from [now + ttl] on it finds nothing, whatever the
    hash. *)
Theorem Store_then_Check w key requestHash responseData ttl t f :
  f OpIdempotencyCheck = false →
  let w1 := snd (idempotencyRepo_Store None w key requestHash responseData ttl) in
  (t < now w + ttl →
   checkAnswer (later t f w1) key requestHash =
     (Some (json_Marshal responseData), true, None)) ∧
  (∀ otherHash, t < now w + ttl → otherHash ≠ requestHash →
   checkAnswer (later t f w1) key otherHash = (None, true, Some ErrIdempotencyMismatch)) ∧
  (∀ anyHash, now w + ttl <= t →
   checkAnswer (later t f w1) key anyHash = (None, false, None)).
Proof.
  intros Hf. unfold checkAnswer, idempotencyRepo_Check, idempotencyRepo_Store. simpl.
  rewrite Hf, lookup_insert_eq. simpl. repeat split.
  - intros Hlive. apply Z.ltb_lt in Hlive. rewrite Hlive. by rewrite String.eqb_refl.
  - intros otherHash Hlive Hne. apply Z.ltb_lt in Hlive. rewrite Hlive.
    assert (String.eqb requestHash otherHash = false) as ->; [| done].
    apply String.eqb_neq. congruence.
  - intros anyHash Hdead. apply Z.ltb_ge in Hdead. by rewrite Hdead.
Qed.

(** X23 at a record stored for an hour. *)
Lemma Store_then_Check_witness :
  (checkAnswer (later 2000 (fun _ => false)
                  (snd (idempotencyRepo_Store None keyedWorld "key-9" "h9"
                          (Some restingLay) Hour)))
               "key-9" "h9" =
     (Some (json_Marshal (Some restingLay)), true, None)).
Proof.
  apply (Store_then_Check keyedWorld "key-9" "h9" (Some restingLay) Hour 2000
           (fun _ => false) eq_refl).
  vm_compute; reflexivity.
Defined.

(** X24.  [CleanupExpired] changes no answer of [Check].  It deletes the
    records that expired before now, and no other, returns their number and
    leaves orders and events alone; [Check] answers afterwards as before,
    for every key and hash. *)
Theorem CleanupExpired_keeps_answers w :
  let '(deleted, err, w') := idempotencyRepo_CleanupExpired None w in
  err = None ∧
  (∀ key requestHash, checkAnswer w' key requestHash = checkAnswer w key requestHash) ∧
  (∀ key record, idempotency_keys (db w') !! key = Some record ↔
                 idempotency_keys (db w) !! key = Some record ∧
                 now w <= IdempotencyKey.expires_at record) ∧
  deleted = Z.of_nat (size (idempotency_keys (db w)))
            - Z.of_nat (size (idempotency_keys (db w'))) ∧
  orders_table (db w') = orders_table (db w) ∧
  outbox_events (db w') = outbox_events (db w).
Proof.
  unfold idempotencyRepo_CleanupExpired, checkAnswer, idempotencyRepo_Check. simpl.
  split; [done |]. split; [| split; [| split; [| done]]].
  - intros key requestHash. destruct (faults w OpIdempotencyCheck); [done |].
    rewrite map_lookup_filter.
    destruct (idempotency_keys (db w) !! key) as [record |]; simpl; [| done].
    case_guard as Hg; simpl.
    + destruct (_ <? _); [| done]. by destruct (negb _).
    + assert (IdempotencyKey.expires_at record < now w) as Hlt.
      { unfold expired in Hg. simpl in Hg. lia. }
      destruct (Z.ltb_spec (now w) (IdempotencyKey.expires_at record)); [lia | done].
  - intros key record. rewrite map_lookup_filter_Some. unfold expired. simpl.
    split; intros [Hrec Hlive]; (split; [done | lia]).
  - pose proof (map_filter_union_complement (expired (now w)) (idempotency_keys (db w))) as Hu.
    pose proof (map_size_disj_union _ _
      (map_disjoint_filter_complement (expired (now w)) (idempotency_keys (db w)))) as Hs.
    rewrite Hu in Hs. lia.
Qed.

(** X24 at a table with a record that has expired, one that expires now
    and one that is live: one record is deleted. *)
Lemma CleanupExpired_keeps_answers_witness :
  fst (fst (idempotencyRepo_CleanupExpired None agedWorld)) = 1 ∧
  checkAnswer (snd (idempotencyRepo_CleanupExpired None agedWorld)) "new" "h3" =
    checkAnswer agedWorld "new" "h3".
Proof.
  pose proof (CleanupExpired_keeps_answers agedWorld) as H.
  destruct (idempotencyRepo_CleanupExpired None agedWorld) as [[deleted err] w'] eqn:Hrun.
  destruct H as (_ & Hsame & _ & Hcount & _). simpl. split; [| apply Hsame].
  rewrite Hcount. vm_compute in Hrun. injection Hrun as _ _ <-. vm_compute. reflexivity.
Defined.

End StoreFacts.

(** *** Pagination *)

Section PageFacts.

Lemma wrapInt_id z : - 2 ^ 63 <= z < 2 ^ 63 → wrapInt z = z.
Proof.
  intros Hz. unfold wrapInt.
  rewrite Z.mod_small by lia. lia.
Qed.

Lemma pageLimit_range limit : 1 <= service.pageLimit limit <= 100.
Proof.
  unfold service.pageLimit. destruct (Z.leb_spec limit 0); [simpl; lia |].
  destruct (Z.ltb_spec 100 limit); lia.
Qed.

(** X25.  The page of [GetOrdersByEvent].  For an offset that is not
    negative, the page of the pending orders [orders] of the event is
    [orders[offset:]] cut to the limit, where the limit is 50 if none is
    given and at most 100: at most 100 orders, in the order of the
    repository, and none where the offset is past the end. *)
Theorem GetOrdersByEvent_pages repo eventID limit offset orders :
  repo eventID = Ok orders →
  0 <= offset < 2 ^ 63 →
  Z.of_nat (length orders) + 100 < 2 ^ 63 →
  ∃ page,
    service.GetOrdersByEvent repo eventID limit offset = Some (Ok page) ∧
    page = take (Z.to_nat (service.pageLimit limit)) (drop (Z.to_nat offset) orders) ∧
    (length page ≤ 100)%nat.
Proof.
  intros Hrepo Hoff Hlen. unfold service.GetOrdersByEvent. rewrite Hrepo.
  assert ((if 100 <? (if limit <=? 0 then 50 else limit)
           then 100 else if limit <=? 0 then 50 else limit) = service.pageLimit limit) as ->.
  { done. }
  pose proof (pageLimit_range limit) as Hp.
  assert (∀ page : list Order,
            page = take (Z.to_nat (service.pageLimit limit)) (drop (Z.to_nat offset) orders) →
            (length page ≤ 100)%nat) as Hshort.
  { intros page ->. rewrite length_take. lia. }
  destruct (Z.leb_spec (Z.of_nat (length orders)) offset) as [Hge | Hlt].
  - exists []. split; [done |].
    assert ([] = take (Z.to_nat (service.pageLimit limit)) (drop (Z.to_nat offset) orders)) as Heq.
    { rewrite drop_ge by lia. by rewrite take_nil. }
    split; [done |]. simpl. lia.
  - rewrite wrapInt_id by lia. unfold slice.
    destruct (Z.ltb_spec (Z.of_nat (length orders)) (offset + service.pageLimit limit)) as [Hover | Hin].
    + assert ((0 <=? offset) && (offset <=? Z.of_nat (length orders))
              && (Z.of_nat (length orders) <=? Z.of_nat (length orders)) = true) as ->.
      { rewrite !andb_true_iff, !Z.leb_le. lia. }
      eexists. split; [reflexivity |].
      assert (take (Z.to_nat (Z.of_nat (length orders) - offset))
                   (drop (Z.to_nat offset) orders) =
              take (Z.to_nat (service.pageLimit limit)) (drop (Z.to_nat offset) orders)) as Heq.
      { rewrite !take_ge; [done | |]; rewrite length_drop; lia. }
      split; [done |]. by apply Hshort.
    + assert ((0 <=? offset) && (offset <=? offset + service.pageLimit limit)
              && (offset + service.pageLimit limit <=? Z.of_nat (length orders)) = true) as ->.
      { rewrite !andb_true_iff, !Z.leb_le. lia. }
      eexists. split; [reflexivity |].
      replace (offset + service.pageLimit limit - offset) with (service.pageLimit limit) by lia.
      split; [done |]. by apply Hshort.
Qed.

(** X25 at three pending orders, a limit of 2 and an offset of 1. *)
Lemma GetOrdersByEvent_pages_witness :
  ∃ page,
    service.GetOrdersByEvent threePending "match-winner" 2 1 = Some (Ok page) ∧
    page = take (Z.to_nat (service.pageLimit 2)) (drop (Z.to_nat 1)
             [exampleOrder 1 OrderSideBack (decimal.mkDecimal 2 0) (decimal.mkDecimal 10 0);
              exampleOrder 2 OrderSideBack (decimal.mkDecimal 3 0) (decimal.mkDecimal 10 0);
              exampleOrder 3 OrderSideLay (decimal.mkDecimal 4 0) (decimal.mkDecimal 10 0)]) ∧
    (length page ≤ 100)%nat.
Proof.
  apply (GetOrdersByEvent_pages threePending "match-winner" 2 1); [reflexivity | lia |].
  simpl. lia.
Defined.

(** X26.  A negative offset makes [GetOrdersByEvent] panic, whenever the
    repository returns the pending orders of the event: the offset is the
    lower bound of the slice expression and is not checked. *)
Theorem GetOrdersByEvent_negative_offset_panics repo eventID limit offset orders :
  repo eventID = Ok orders →
  - 2 ^ 63 <= offset < 0 →
  service.GetOrdersByEvent repo eventID limit offset = None.
Proof.
  intros Hrepo Hoff. unfold service.GetOrdersByEvent. rewrite Hrepo.
  destruct (Z.leb_spec (Z.of_nat (length orders)) offset) as [Hge | Hlt]; [lia |].
  unfold slice. destruct (Z.leb_spec 0 offset); [lia | done].
Qed.

(** X26 at the offset -1. *)
Lemma GetOrdersByEvent_negative_offset_panics_witness :
  service.GetOrdersByEvent threePending "match-winner" 10 (-1) = None.
Proof.
  apply (GetOrdersByEvent_negative_offset_panics threePending "match-winner" 10 (-1)
           _ eq_refl).
  lia.
Defined.

End PageFacts.
